(** * busquedas.py: search engine over deterministic, discrete models

    Shallow embedding of [src/busquedas.py]: the model and problem
    classes, the tree node [Nodo] with [expande] and [genera_plan], and
    the five strategies [busqueda_ancho], [busqueda_profundo],
    [busqueda_profundidad_iterativa], [busqueda_costo_uniforme] and
    [busqueda_A_estrella], together with the binary heap of Python's
    [heapq] that the last two use as frontier.

    Conventions of the embedding.
    - Costs and priorities are taken to be integers: [Z].  Depths and
      the counters [num_nodos] / [nodos_visitados] start at 0 and only
      grow by one: [nat].  The parameter [max_profundidad] is any
      integer given by the caller, possibly negative: [Z] ([None] is
      kept as [option]).
    - A [while frontera:] loop may run forever on an infinite space, so
      every loop takes a fuel argument; the result [None] means that the
      fuel ran out, [Some (r, num)] that the function returned [r]
      (itself [None] or [Some nodo]) leaving the counter
      [problema.num_nodos] at [num].
    - [problema.num_nodos] is the only mutable field of the problem
      object; it is threaded through every call of [es_meta]. *)

From stdpp Require Import gmap list strings pretty.
From Stdlib Require Import ZArith Lia ZifyNat.

Open Scope Z_scope.

(** ** Python's [heapq] on a list, for an arbitrary [<] *)

Section Heapq.
Context {T : Type} (lt : T → T → bool).

(** [while pos > startpos] of [heapq._siftdown]: [newitem] travels
    towards the root while it is smaller than the parent it meets.
    [pos] strictly decreases, so [pos] units of fuel are enough. *)
Fixpoint siftdown_bucle (fuel : nat) (heap : list T) (newitem : T)
    (startpos pos : nat) : list T :=
  match fuel with
  | O => <[pos:=newitem]> heap
  | S fuel' =>
      if decide (startpos < pos)%nat then
        let parentpos := ((pos - 1) / 2)%nat in
        match heap !! parentpos with
        | Some parent =>
            if lt newitem parent
            then siftdown_bucle fuel' (<[pos:=parent]> heap) newitem
                   startpos parentpos
            else <[pos:=newitem]> heap
        | None => heap
        end
      else <[pos:=newitem]> heap
  end.

Definition siftdown (heap : list T) (startpos pos : nat) : list T :=
  match heap !! pos with
  | Some newitem => siftdown_bucle pos heap newitem startpos pos
  | None => heap
  end.

(** [childpos] after the test
    [if rightpos < endpos and not heap[childpos] < heap[rightpos]]. *)
Definition hijo_menor (heap : list T) (childpos : nat) : nat :=
  match heap !! childpos, heap !! (childpos + 1)%nat with
  | Some l, Some r => if lt l r then childpos else (childpos + 1)%nat
  | _, _ => childpos
  end.

(** [while childpos < endpos] of [heapq._siftup]: the smaller child is
    moved up until a leaf is reached; returns the list and the leaf. *)
Fixpoint siftup_bucle (fuel : nat) (heap : list T) (pos : nat)
    : list T * nat :=
  match fuel with
  | O => (heap, pos)
  | S fuel' =>
      if decide (2 * pos + 1 < length heap)%nat then
        let childpos := hijo_menor heap (2 * pos + 1)%nat in
        match heap !! childpos with
        | Some c => siftup_bucle fuel' (<[pos:=c]> heap) childpos
        | None => (heap, pos)
        end
      else (heap, pos)
  end.

Definition siftup (heap : list T) (pos : nat) : list T :=
  match heap !! pos with
  | Some newitem =>
      let '(heap', hoja) := siftup_bucle (length heap) heap pos in
      siftdown (<[hoja:=newitem]> heap') pos hoja
  | None => heap
  end.

(** [heapq.heappush(heap, item)] *)
Definition heappush (heap : list T) (item : T) : list T :=
  siftdown (heap ++ [item]) 0 (length heap).

(** [heapq.heappop(heap)]; [None] stands for the [IndexError] of an
    empty heap. *)
Definition heappop (heap : list T) : option (T * list T) :=
  match last heap with
  | None => None
  | Some lastelt =>
      let heap' := removelast heap in
      match heap' !! O with
      | Some returnitem =>
          Some (returnitem, siftup (<[O:=lastelt]> heap') 0)
      | None => Some (lastelt, heap')
      end
  end.
End Heapq.

(** ** The search engine *)

Section Busquedas.
Context {Estado : Type} `{Countable Estado} {Accion : Type}.

(** [class ModeloBusqueda]: a concrete subclass gives the three
    methods. *)
Record ModeloBusqueda := {
  acciones_legales : Estado → list Accion;
  sucesor : Estado → Accion → Estado;
  costo_local : Estado → Accion → Z
}.

(** [ModeloBusqueda.costo_local] as inherited when not overridden. *)
Definition costo_local_base (_ : Estado) (_ : Accion) : Z := 1.

(** [class ProblemaBusqueda], without its counter [num_nodos]. *)
Record ProblemaBusqueda := {
  x0 : Estado;
  meta : Estado → bool;
  modelo : ModeloBusqueda
}.

(** [problema.es_meta(estado)]: counts the call, then asks [meta]. *)
Definition es_meta (pb : ProblemaBusqueda) (num : nat) (e : Estado)
    : bool * nat :=
  (meta pb e, S num).

(** [class Nodo] *)
#[warnings="-register-all"]
Inductive Nodo : Type := mkNodo {
  estado : Estado;
  accion : option Accion;
  padre : option Nodo;
  costo : Z;
  profundidad : nat;
  nodos_visitados : nat
}.

(** [Nodo.__init__(estado, accion=None, padre=None, costo_local=0)] *)
Definition Nodo_init (e : Estado) (a : option Accion)
    (p : option Nodo) (c : Z) : Nodo :=
  {| estado := e;
     accion := a;
     padre := p;
     costo := match p with None => 0 | Some q => costo q + c end;
     profundidad := match p with None => O | Some q => S (profundidad q) end;
     nodos_visitados := O |}.

(** [Nodo(problema.x0)] *)
Definition raiz (pb : ProblemaBusqueda) : Nodo :=
  Nodo_init (x0 pb) None None 0.

(** [nodo.nodos_visitados = num] *)
Definition sella (n : Nodo) (num : nat) : Nodo :=
  {| estado := estado n; accion := accion n; padre := padre n;
     costo := costo n; profundidad := profundidad n;
     nodos_visitados := num |}.

(** [Nodo.expande(modelo)]; the generator is consumed in order, and
    the model is pure, so the list of children stands for it. *)
Definition expande (n : Nodo) (m : ModeloBusqueda) : list Nodo :=
  (λ a, Nodo_init (sucesor m (estado n) a) (Some a) (Some n)
          (costo_local m (estado n) a))
  <$> acciones_legales m (estado n).

(** Elements of the list built by [genera_plan]: states and the
    [accion] fields alternate. *)
Inductive Paso : Type :=
| PEstado (e : Estado)
| PAccion (a : option Accion).

(** [Nodo.genera_plan()] *)
Fixpoint genera_plan (n : Nodo) : list Paso :=
  match n with
  | mkNodo e a p _ _ _ =>
      match p with
      | None => [PEstado e]
      | Some q => genera_plan q ++ [PAccion a; PEstado e]
      end
  end.

(** [Nodo.__lt__] *)
Definition Nodo_lt (n m : Nodo) : bool :=
  bool_decide (profundidad n < profundidad m)%nat.

(** [<] of the tuples [(prioridad, nodo)] kept in the heap: the first
    components decide unless they are equal, then [Nodo.__lt__]
    does.  (No node object is pushed twice, so the identity test that
    tuple comparison does first never succeeds on the nodes.) *)
Definition entrada_lt (x y : Z * Nodo) : bool :=
  if bool_decide (x.1 = y.1) then Nodo_lt x.2 y.2
  else bool_decide (x.1 < y.1).

Definition resultado : Type := option (option Nodo * nat).

(** *** [busqueda_ancho] *)

(** The [for hijo in nodo.expande(...)] loop; [inl] is the early
    [return hijo]. *)
Fixpoint hijos_ancho (pb : ProblemaBusqueda) (hijos : list Nodo)
    (frontera : list Nodo) (visitados : gset Estado) (num : nat)
    : (Nodo * nat) + (list Nodo * gset Estado * nat) :=
  match hijos with
  | [] => inr (frontera, visitados, num)
  | hijo :: resto =>
      if decide (estado hijo ∈ visitados)
      then hijos_ancho pb resto frontera visitados num
      else
        let '(b, num') := es_meta pb num (estado hijo) in
        if b then inl (sella hijo num', num')
        else hijos_ancho pb resto (frontera ++ [hijo])
               ({[estado hijo]} ∪ visitados) num'
  end.

(** [while frontera:]; the deque is a list with its left end first. *)
Fixpoint bucle_ancho (fuel : nat) (pb : ProblemaBusqueda)
    (frontera : list Nodo) (visitados : gset Estado) (num : nat)
    : resultado :=
  match fuel with
  | O => None
  | S fuel' =>
      match frontera with
      | [] => Some (None, num)
      | nodo :: resto =>
          match hijos_ancho pb (expande nodo (modelo pb)) resto
                  visitados num with
          | inl (hijo, num') => Some (Some hijo, num')
          | inr (frontera', visitados', num') =>
              bucle_ancho fuel' pb frontera' visitados' num'
          end
      end
  end.

Definition busqueda_ancho (fuel : nat) (pb : ProblemaBusqueda)
    (num : nat) : resultado :=
  let '(b, num') := es_meta pb num (x0 pb) in
  if b then Some (Some (raiz pb), num')
  else bucle_ancho fuel pb [raiz pb] {[x0 pb]} num'.

(** *** [busqueda_profundo] *)

(** [hijo.estado not in visitados or visitados[hijo.estado] > valor] *)
Definition mejora {V : Type} (mayor : V → V → bool)
    (visitados : gmap Estado V) (e : Estado) (valor : V) : bool :=
  match visitados !! e with
  | None => true
  | Some v => mayor v valor
  end.

(** The [for] loop of the depth-first search.  The deque is used as a
    stack at its right end; the list holds it right end first, so
    [append] is a cons and [pop] takes the head. *)
Fixpoint hijos_profundo (hijos : list Nodo) (frontera : list Nodo)
    (visitados : gmap Estado nat) : list Nodo * gmap Estado nat :=
  match hijos with
  | [] => (frontera, visitados)
  | hijo :: resto =>
      if mejora (λ v d, bool_decide (d < v)%nat) visitados
           (estado hijo) (profundidad hijo)
      then hijos_profundo resto (hijo :: frontera)
             (<[estado hijo := profundidad hijo]> visitados)
      else hijos_profundo resto frontera visitados
  end.

(** [max_profundidad is not None and max_profundidad == nodo.profundidad] *)
Definition en_el_limite (max_profundidad : option Z) (n : Nodo) : bool :=
  match max_profundidad with
  | None => false
  | Some m => bool_decide (m = Z.of_nat (profundidad n))
  end.

Fixpoint bucle_profundo (fuel : nat) (pb : ProblemaBusqueda)
    (max_profundidad : option Z) (frontera : list Nodo)
    (visitados : gmap Estado nat) (num : nat) : resultado :=
  match fuel with
  | O => None
  | S fuel' =>
      match frontera with
      | [] => Some (None, num)
      | nodo :: resto =>
          let '(b, num') := es_meta pb num (estado nodo) in
          if b then Some (Some (sella nodo num'), num')
          else if en_el_limite max_profundidad nodo
          then bucle_profundo fuel' pb max_profundidad resto visitados num'
          else
            let '(frontera', visitados') :=
              hijos_profundo (expande nodo (modelo pb)) resto visitados in
            bucle_profundo fuel' pb max_profundidad frontera' visitados'
              num'
      end
  end.

Definition busqueda_profundo (fuel : nat) (pb : ProblemaBusqueda)
    (max_profundidad : option Z) (num : nat) : resultado :=
  bucle_profundo fuel pb max_profundidad [raiz pb] {[x0 pb := O]} num.

(** *** [busqueda_profundidad_iterativa] *)

(** [for profundidad in <profundidades>:] with its early return. *)
Fixpoint iterativa_bucle (fuel : nat) (pb : ProblemaBusqueda)
    (profundidades : list nat) (num : nat) : resultado :=
  match profundidades with
  | [] => Some (None, num)
  | profundidad :: resto =>
      match busqueda_profundo fuel pb (Some (Z.of_nat profundidad)) num with
      | None => None
      | Some (Some r, num') => Some (Some r, num')
      | Some (None, num') => iterativa_bucle fuel pb resto num'
      end
  end.

(** [range(n)] for an integer [n]: empty when [n <= 0]. *)
Definition range (n : Z) : list nat := seq 0 (Z.to_nat n).

Definition busqueda_profundidad_iterativa (fuel : nat)
    (pb : ProblemaBusqueda) (max_profundidad : Z) (num : nat)
    : resultado :=
  iterativa_bucle fuel pb (range max_profundidad) num.

(** The default [max_profundidad=20]. *)
Definition max_profundidad_defecto : Z := 20.

(** *** [busqueda_costo_uniforme] *)

Definition mayor_costo (v c : Z) : bool := bool_decide (c < v).

Fixpoint hijos_costo_uniforme (hijos : list Nodo)
    (frontera : list (Z * Nodo)) (visitados : gmap Estado Z)
    : list (Z * Nodo) * gmap Estado Z :=
  match hijos with
  | [] => (frontera, visitados)
  | hijo :: resto =>
      if mejora mayor_costo visitados (estado hijo) (costo hijo)
      then hijos_costo_uniforme resto
             (heappush entrada_lt frontera (costo hijo, hijo))
             (<[estado hijo := costo hijo]> visitados)
      else hijos_costo_uniforme resto frontera visitados
  end.

Fixpoint bucle_costo_uniforme (fuel : nat) (pb : ProblemaBusqueda)
    (frontera : list (Z * Nodo)) (visitados : gmap Estado Z)
    (num : nat) : resultado :=
  match fuel with
  | O => None
  | S fuel' =>
      match heappop entrada_lt frontera with
      | None => Some (None, num)
      | Some ((_, nodo), frontera1) =>
          let '(b, num') := es_meta pb num (estado nodo) in
          if b then Some (Some (sella nodo num'), num')
          else
            let '(frontera', visitados') :=
              hijos_costo_uniforme (expande nodo (modelo pb)) frontera1
                visitados in
            bucle_costo_uniforme fuel' pb frontera' visitados' num'
      end
  end.

Definition busqueda_costo_uniforme (fuel : nat) (pb : ProblemaBusqueda)
    (num : nat) : resultado :=
  bucle_costo_uniforme fuel pb (heappush entrada_lt [] (0, raiz pb))
    {[x0 pb := 0]} num.

(** *** [busqueda_A_estrella] *)

Fixpoint hijos_A_estrella (heuristica : Nodo → Z) (hijos : list Nodo)
    (frontera : list (Z * Nodo)) (visitados : gmap Estado Z)
    : list (Z * Nodo) * gmap Estado Z :=
  match hijos with
  | [] => (frontera, visitados)
  | hijo :: resto =>
      if mejora mayor_costo visitados (estado hijo) (costo hijo)
      then hijos_A_estrella heuristica resto
             (heappush entrada_lt frontera
                (costo hijo + heuristica hijo, hijo))
             (<[estado hijo := costo hijo]> visitados)
      else hijos_A_estrella heuristica resto frontera visitados
  end.

Fixpoint bucle_A_estrella (fuel : nat) (pb : ProblemaBusqueda)
    (heuristica : Nodo → Z) (frontera : list (Z * Nodo))
    (visitados : gmap Estado Z) (num : nat) : resultado :=
  match fuel with
  | O => None
  | S fuel' =>
      match heappop entrada_lt frontera with
      | None => Some (None, num)
      | Some ((_, nodo), frontera1) =>
          let '(b, num') := es_meta pb num (estado nodo) in
          if b then Some (Some (sella nodo num'), num')
          else
            let '(frontera', visitados') :=
              hijos_A_estrella heuristica (expande nodo (modelo pb))
                frontera1 visitados in
            bucle_A_estrella fuel' pb heuristica frontera' visitados' num'
      end
  end.

Definition busqueda_A_estrella (fuel : nat) (pb : ProblemaBusqueda)
    (heuristica : Nodo → Z) (num : nat) : resultado :=
  bucle_A_estrella fuel pb heuristica
    (heappush entrada_lt [] (0, raiz pb)) {[x0 pb := 0]} num.

(** *** [busqueda_A_estrella] with a heuristic that may raise

    The same function, for a caller whose [heuristica] is not defined
    on every node: [heuristica hijo = None] stands for an exception
    raised by the call [heuristica(hijo)], which leaves the search at
    once ([Lanza]). *)
Inductive salida : Type :=
| Lanza
| Devuelve (r : option Nodo) (num : nat).

Fixpoint hijos_A_estrella_exc (heuristica : Nodo → option Z)
    (hijos : list Nodo) (frontera : list (Z * Nodo))
    (visitados : gmap Estado Z)
    : option (list (Z * Nodo) * gmap Estado Z) :=
  match hijos with
  | [] => Some (frontera, visitados)
  | hijo :: resto =>
      if mejora mayor_costo visitados (estado hijo) (costo hijo)
      then
        match heuristica hijo with
        | None => None
        | Some h =>
            hijos_A_estrella_exc heuristica resto
              (heappush entrada_lt frontera (costo hijo + h, hijo))
              (<[estado hijo := costo hijo]> visitados)
        end
      else hijos_A_estrella_exc heuristica resto frontera visitados
  end.

Fixpoint bucle_A_estrella_exc (fuel : nat) (pb : ProblemaBusqueda)
    (heuristica : Nodo → option Z) (frontera : list (Z * Nodo))
    (visitados : gmap Estado Z) (num : nat) : option salida :=
  match fuel with
  | O => None
  | S fuel' =>
      match heappop entrada_lt frontera with
      | None => Some (Devuelve None num)
      | Some ((_, nodo), frontera1) =>
          let '(b, num') := es_meta pb num (estado nodo) in
          if b then Some (Devuelve (Some (sella nodo num')) num')
          else
            match hijos_A_estrella_exc heuristica
                    (expande nodo (modelo pb)) frontera1 visitados with
            | None => Some Lanza
            | Some (frontera', visitados') =>
                bucle_A_estrella_exc fuel' pb heuristica frontera'
                  visitados' num'
            end
      end
  end.

Definition busqueda_A_estrella_exc (fuel : nat) (pb : ProblemaBusqueda)
    (heuristica : Nodo → option Z) (num : nat) : option salida :=
  bucle_A_estrella_exc fuel pb heuristica
    (heappush entrada_lt [] (0, raiz pb)) {[x0 pb := 0]} num.

(** *** [Nodo.__str__] *)

(** The slice [l[::2]]: the elements at the even positions. *)
Fixpoint cada_dos {A : Type} (l : list A) : list A :=
  match l with
  | [] => []
  | x :: resto =>
      x :: match resto with
           | [] => []
           | _ :: resto' => cada_dos resto'
           end
  end.

(** [zip] of three lists: as long as the shortest. *)
Fixpoint zip3 {A B C : Type} (l1 : list A) (l2 : list B) (l3 : list C)
    : list (A * B * C) :=
  match l1, l2, l3 with
  | x :: l1', y :: l2', z :: l3' => (x, y, z) :: zip3 l1' l2' l3'
  | _, _, _ => []
  end.

(** [zip(plan[:-1:2], plan[1::2], plan[2::2])] for the plan of the
    node: the triples over which [__str__] iterates. *)
Definition Nodo_trayectoria (n : Nodo) : list (Paso * Paso * Paso) :=
  let plan := genera_plan n in
  zip3 (cada_dos (removelast plan)) (cada_dos (drop 1 plan))
    (cada_dos (drop 2 plan)).

(** The line feed, character 10. *)
Definition salto_de_linea : string :=
  String (Ascii.Ascii false true false true false false false false)
    EmptyString.

(** How [format] shows an element of the plan; [str_estado] and
    [str_accion] are the [__str__] of the domain's states and actions,
    and an [accion] that is [None] shows as [None]. *)
Definition str_paso (str_estado : Estado → string)
    (str_accion : Accion → string) (p : Paso) : string :=
  match p with
  | PEstado e => str_estado e
  | PAccion None => "None"
  | PAccion (Some a) => str_accion a
  end.

Definition Nodo_str (str_estado : Estado → string)
    (str_accion : Accion → string) (n : Nodo) : string :=
  let str := str_paso str_estado str_accion in
  ("Costo: " +:+ pretty (costo n) +:+ salto_de_linea) +:+
  ("Profundidad: " +:+ pretty (profundidad n) +:+ salto_de_linea) +:+
  ("Trayectoria:" +:+ salto_de_linea) +:+
  String.concat ""
    ((λ '(x, a, xp),
        "en " +:+ str x +:+ " hace " +:+ str a +:+ " y va a " +:+ str xp
        +:+ "," +:+ salto_de_linea)
     <$> Nodo_trayectoria n).

End Busquedas.


Arguments ModeloBusqueda : clear implicits.
Arguments ProblemaBusqueda : clear implicits.
Arguments Nodo : clear implicits.
Arguments Paso : clear implicits.
Arguments salida : clear implicits.

(** * Vocabulary of the specification *)

Section Especificacion.
Context {Estado : Type} `{Countable Estado} {Accion : Type}.
Implicit Types (pb : ProblemaBusqueda Estado Accion)
  (m : ModeloBusqueda Estado Accion) (n : Nodo Estado Accion).

(** The nodes the engine builds for a problem: the root, the children
    that [expande] yields for a node already built, and a node after
    its field [nodos_visitados] was assigned. *)
Inductive construido pb : Nodo Estado Accion → Prop :=
| construido_raiz : construido pb (raiz pb)
| construido_hijo n hijo :
    construido pb n → hijo ∈ expande n (modelo pb) →
    construido pb hijo
| construido_sella n num :
    construido pb n → construido pb (sella n num).

(** [camino m s l t]: the legal actions [l], taken in order from [s],
    lead to [t]. *)
Inductive camino m : Estado → list Accion → Estado → Prop :=
| camino_nil s : camino m s [] s
| camino_cons s a l t :
    a ∈ acciones_legales m s → camino m (sucesor m s a) l t →
    camino m s (a :: l) t.

(** Sum of [costo_local] along the actions [l] taken from [s]. *)
Fixpoint costo_camino m (s : Estado) (l : list Accion) : Z :=
  match l with
  | [] => 0
  | a :: l' => costo_local m s a + costo_camino m (sucesor m s a) l'
  end.

Definition alcanzable m (s t : Estado) : Prop := ∃ l, camino m s l t.

Definition costos_no_negativos m : Prop :=
  ∀ s a, a ∈ acciones_legales m s → 0 ≤ costo_local m s a.

(** Replaying [a1, s1, a2, s2, ...] from the state [s] through
    [sucesor]: every action is legal where it is taken and every
    state is the successor of the one before. *)
Fixpoint reproduce m (s : Estado) (resto : list (Paso Estado Accion))
    : Prop :=
  match resto with
  | [] => True
  | PAccion (Some a) :: PEstado s' :: resto' =>
      a ∈ acciones_legales m s ∧ s' = sucesor m s a ∧
      reproduce m s' resto'
  | _ => False
  end.

(** A plan [[s0; a1; s1; ...; aT; sT]] of the problem: it starts at
    [x0], replays through the model and ends in a goal state. *)
Definition plan_valido pb (plan : list (Paso Estado Accion)) : Prop :=
  ∃ resto sT, plan = PEstado (x0 pb) :: resto ∧
    reproduce (modelo pb) (x0 pb) resto ∧
    last plan = Some (PEstado sT) ∧ meta pb sT = true.

(** Sum of the step costs over the edges [s(i), a(i+1)] of a plan. *)
Fixpoint costo_desde m (s : Estado) (resto : list (Paso Estado Accion))
    : Z :=
  match resto with
  | PAccion (Some a) :: PEstado s' :: resto' =>
      costo_local m s a + costo_desde m s' resto'
  | _ => 0
  end.


(** The heuristic never overestimates the cost of reaching a goal
    from the state of a node, and is never negative. *)
Definition admisible pb (heuristica : Nodo Estado Accion → Z) : Prop :=
  ∀ n l t, construido pb n → camino (modelo pb) (estado n) l t →
    meta pb t = true → heuristica n ≤ costo_camino (modelo pb) (estado n) l.

Definition no_negativa pb (heuristica : Nodo Estado Accion → Z) : Prop :=
  ∀ n, construido pb n → 0 ≤ heuristica n.

(** The frontier and the visited map at the head of the [while] loop
    of [busqueda_A_estrella], and of [busqueda_costo_uniforme]. *)
Inductive en_bucle_A_estrella pb (heuristica : Nodo Estado Accion → Z)
    : list (Z * Nodo Estado Accion) → gmap Estado Z → Prop :=
| en_bucle_A_inicio :
    en_bucle_A_estrella pb heuristica
      (heappush entrada_lt [] (0, raiz pb)) {[x0 pb := 0]}
| en_bucle_A_vuelta f v p n f1 :
    en_bucle_A_estrella pb heuristica f v →
    heappop entrada_lt f = Some ((p, n), f1) →
    meta pb (estado n) = false →
    en_bucle_A_estrella pb heuristica
      (hijos_A_estrella heuristica (expande n (modelo pb)) f1 v).1
      (hijos_A_estrella heuristica (expande n (modelo pb)) f1 v).2.

Inductive en_bucle_costo_uniforme pb
    : list (Z * Nodo Estado Accion) → gmap Estado Z → Prop :=
| en_bucle_CU_inicio :
    en_bucle_costo_uniforme pb
      (heappush entrada_lt [] (0, raiz pb)) {[x0 pb := 0]}
| en_bucle_CU_vuelta f v p n f1 :
    en_bucle_costo_uniforme pb f v →
    heappop entrada_lt f = Some ((p, n), f1) →
    meta pb (estado n) = false →
    en_bucle_costo_uniforme pb
      (hijos_costo_uniforme (expande n (modelo pb)) f1 v).1
      (hijos_costo_uniforme (expande n (modelo pb)) f1 v).2.

(** [c] is the least cost of a path from [x0] to a goal state, and
    some such path has it. *)
Definition es_costo_minimo pb (c : Z) : Prop :=
  (∃ l t, camino (modelo pb) (x0 pb) l t ∧ meta pb t = true ∧
     costo_camino (modelo pb) (x0 pb) l = c) ∧
  (∀ l t, camino (modelo pb) (x0 pb) l t → meta pb t = true →
     c ≤ costo_camino (modelo pb) (x0 pb) l).

(** A finite state space: [universo] lists the initial state and is
    closed under the legal transitions. *)
Definition espacio_finito pb (universo : list Estado) : Prop :=
  x0 pb ∈ universo ∧
  ∀ s a, s ∈ universo → a ∈ acciones_legales (modelo pb) s →
    sucesor (modelo pb) s a ∈ universo.

Definition sin_meta_alcanzable pb : Prop :=
  ∀ t, alcanzable (modelo pb) (x0 pb) t → meta pb t = false.

(** A triple (state, action, state) is a transition of the model. *)
Definition transicion m (e : Paso Estado Accion * Paso Estado Accion
                             * Paso Estado Accion) : Prop :=
  ∃ s a, e = (PEstado s, PAccion (Some a), PEstado (sucesor m s a)) ∧
    a ∈ acciones_legales m s.

End Especificacion.

(** * Invariants and measures used by the proofs *)

Section HeapqInvariantes.
Context {T : Type} (lt : T → T → bool).

(** The heap invariant of [heapq]: no element is smaller than the one
    at its parent index [(i - 1) >> 1]. *)
Definition heap_ok (h : list T) : Prop :=
  ∀ i x y, (0 < i)%nat → h !! i = Some x →
    h !! ((i - 1) / 2)%nat = Some y → lt x y = false.

(** The list has a hole at [pos] that waits for [newitem]: every pair
    away from the hole is in order, the children of the hole are not
    below [newitem], nor below the parent of the hole. *)
Definition casi_heap (h : list T) (pos : nat) (newitem : T) : Prop :=
  (∀ i x y, (0 < i)%nat → i ≠ pos → ((i - 1) / 2)%nat ≠ pos →
     h !! i = Some x → h !! ((i - 1) / 2)%nat = Some y → lt x y = false) ∧
  (∀ i x, (0 < i)%nat → ((i - 1) / 2)%nat = pos →
     h !! i = Some x → lt x newitem = false) ∧
  (∀ i x y, (0 < i)%nat → ((i - 1) / 2)%nat = pos → (0 < pos)%nat →
     h !! i = Some x → h !! ((pos - 1) / 2)%nat = Some y → lt x y = false).

(** The hole at [pos] left by [_siftup] while a child moves up. *)
Definition hueco (h : list T) (pos : nat) : Prop :=
  (∀ i x y, (0 < i)%nat → i ≠ pos → ((i - 1) / 2)%nat ≠ pos →
     h !! i = Some x → h !! ((i - 1) / 2)%nat = Some y → lt x y = false) ∧
  (∀ i x y, (0 < i)%nat → ((i - 1) / 2)%nat = pos → (0 < pos)%nat →
     h !! i = Some x → h !! ((pos - 1) / 2)%nat = Some y → lt x y = false).

End HeapqInvariantes.

Section Invariantes.
Context {Estado : Type} `{Countable Estado} {Accion : Type}.
Implicit Types (pb : ProblemaBusqueda Estado Accion)
  (n : Nodo Estado Accion).

(** *** A* and uniform cost *)

(** A state recorded with cost [c] is settled when it is no goal and
    every successor is recorded no dearer than through it. *)
Definition resuelto pb (v : gmap Estado Z) (s : Estado) (c : Z) : Prop :=
  meta pb s = false ∧
  ∀ a, a ∈ acciones_legales (modelo pb) s →
    ∃ c', v !! sucesor (modelo pb) s a = Some c' ∧
      c' ≤ c + costo_local (modelo pb) s a.

Definition en_frontera (f : list (Z * Nodo Estado Accion)) (s : Estado)
    (c : Z) : Prop :=
  ∃ p n, (p, n) ∈ f ∧ estado n = s ∧ costo n = c.

Definition entradas_ok pb (heuristica : Nodo Estado Accion → Z)
    (f : list (Z * Nodo Estado Accion)) : Prop :=
  ∀ p n, (p, n) ∈ f →
    construido pb n ∧ costo n ≤ p ≤ costo n + heuristica n.

(** Loop invariant of [busqueda_A_estrella].  [pendiente] is the pair
    (state, cost) of the node under expansion, if any. *)
Definition inv_A pb (heuristica : Nodo Estado Accion → Z)
    (pendiente : option (Estado * Z)) (f : list (Z * Nodo Estado Accion))
    (v : gmap Estado Z) : Prop :=
  heap_ok entrada_lt f ∧ entradas_ok pb heuristica f ∧
  (∀ s c, v !! s = Some c →
     en_frontera f s c ∨ resuelto pb v s c ∨ pendiente = Some (s, c)) ∧
  (∃ c0, v !! x0 pb = Some c0 ∧ c0 ≤ 0).

(** The frontier entries stay inside the universe, at costs that are
    not negative. *)
Definition en_rango (universo : list Estado)
    (f : list (Z * Nodo Estado Accion)) : Prop :=
  ∀ p n, (p, n) ∈ f → estado n ∈ universo ∧ 0 ≤ costo n.

(** *** Measures of progress *)

(** How many states of [universo] the map has not recorded yet, and
    the total weight of those it has. *)
Definition no_vistos {V} (universo : list Estado) (v : gmap Estado V) : nat :=
  length (filter (λ s, v !! s = None) universo).

Definition peso {V} (w : V → nat) (universo : list Estado)
    (v : gmap Estado V) : nat :=
  sum_list_with (λ s, from_option w O (v !! s)) universo.

(** Lexicographic descent on three numbers. *)
Definition desciende (x y : nat * nat * nat) : Prop :=
  (x.1.1 < y.1.1 ∨
   (x.1.1 = y.1.1 ∧ (x.1.2 < y.1.2 ∨ (x.1.2 = y.1.2 ∧ x.2 < y.2))))%nat.

(** The same count for the visited set of the breadth-first search. *)
Definition no_visitados (universo : list Estado) (v : gset Estado) : nat :=
  length (filter (λ s, s ∉ v) universo).

(** *** Depth first within the bound [limite] *)

(** A state recorded at depth [d] is settled when it is no goal and,
    unless [d] is the bound, its successors are recorded at depth
    [d + 1] or less. *)
Definition resuelto_hasta pb (limite : nat) (v : gmap Estado nat)
    (s : Estado) (d : nat) : Prop :=
  meta pb s = false ∧
  ((d < limite)%nat → ∀ a, a ∈ acciones_legales (modelo pb) s →
     ∃ d', v !! sucesor (modelo pb) s a = Some d' ∧ (d' ≤ S d)%nat).

(** Loop invariant of [busqueda_profundo] with
    [max_profundidad = limite]. *)
Definition inv_profundo pb (limite : nat)
    (pendiente : option (Estado * nat)) (f : list (Nodo Estado Accion))
    (v : gmap Estado nat) : Prop :=
  (∀ n, n ∈ f → construido pb n ∧ (profundidad n ≤ limite)%nat) ∧
  (∀ s d, v !! s = Some d →
     (∃ n, n ∈ f ∧ estado n = s ∧ profundidad n = d) ∨
     resuelto_hasta pb limite v s d ∨ pendiente = Some (s, d)) ∧
  (∃ d0, v !! x0 pb = Some d0 ∧ (d0 ≤ 0)%nat).

(** [d] is the least depth of a goal. *)
Definition profundidad_minima pb (d : nat) : Prop :=
  (∃ l t, camino (modelo pb) (x0 pb) l t ∧ meta pb t = true ∧ length l = d) ∧
  ∀ l t, camino (modelo pb) (x0 pb) l t → meta pb t = true →
    (d ≤ length l)%nat.

(** *** Breadth first *)

(** The queue holds nodes of depth [d] followed by nodes of depth
    [d + 1]. *)
Definition capas (d : nat) (f : list (Nodo Estado Accion)) : Prop :=
  ∃ A B, f = A ++ B ∧ (∀ n, n ∈ A → profundidad n = d) ∧
    (∀ n, n ∈ B → profundidad n = S d).

(** Every successor of [s] has been visited. *)
Definition cerrado pb (v : gset Estado) (s : Estado) : Prop :=
  ∀ a, a ∈ acciones_legales (modelo pb) s → sucesor (modelo pb) s a ∈ v.

(** Loop invariant of [busqueda_ancho]; inside an expansion the node
    being expanded still counts as the head of the queue. *)
Definition inv_ancho pb (f : list (Nodo Estado Accion)) (v : gset Estado)
    : Prop :=
  Forall (construido pb) f ∧
  match f with [] => True | n :: _ => capas (profundidad n) f end ∧
  (∀ s, s ∈ v → meta pb s = false) ∧
  (∀ s, s ∈ v → (∃ n, n ∈ f ∧ estado n = s) ∨ cerrado pb v s) ∧
  (∀ n l, n ∈ f → camino (modelo pb) (x0 pb) l (estado n) →
     (profundidad n ≤ length l)%nat) ∧
  x0 pb ∈ v.

(** *** Depth first for any [max_profundidad] *)

(** A state recorded at depth [d] is settled when it is no goal and,
    unless [d] is the bound, its successors are recorded at depth
    [d + 1] or less. *)
Definition resuelto_cota pb (mp : option Z) (v : gmap Estado nat)
    (s : Estado) (d : nat) : Prop :=
  meta pb s = false ∧
  (mp ≠ Some (Z.of_nat d) → ∀ a, a ∈ acciones_legales (modelo pb) s →
     ∃ d', v !! sucesor (modelo pb) s a = Some d' ∧ (d' ≤ S d)%nat).

Definition inv_pila pb (mp : option Z) (pendiente : option (Estado * nat))
    (f : list (Nodo Estado Accion)) (v : gmap Estado nat) : Prop :=
  (∀ s d, v !! s = Some d →
     (∃ n, n ∈ f ∧ estado n = s ∧ profundidad n = d) ∨
     resuelto_cota pb mp v s d ∨ pendiente = Some (s, d)) ∧
  (∃ d0, v !! x0 pb = Some d0 ∧ (d0 ≤ 0)%nat).

(** *** A* for any heuristic *)

(** The part of the invariant of [busqueda_A_estrella] that does not
    look at the priorities. *)
Definition inv_visitados pb (pendiente : option (Estado * Z))
    (f : list (Z * Nodo Estado Accion)) (v : gmap Estado Z) : Prop :=
  (∀ s c, v !! s = Some c →
     en_frontera f s c ∨ resuelto pb v s c ∨ pendiente = Some (s, c)) ∧
  (∃ c0, v !! x0 pb = Some c0 ∧ c0 ≤ 0).

(** What the visited map of the cost-ordered searches records: the
    cost of a path that leads to the state. *)
Definition costos_reales pb (v : gmap Estado Z) : Prop :=
  ∀ s c, v !! s = Some c →
    ∃ l, camino (modelo pb) (x0 pb) l s ∧
      costo_camino (modelo pb) (x0 pb) l = c.

End Invariantes.

(** * Concrete problems *)

(** States are numbers; from a state below 6 one may advance by 1 (at
    cost 2) or by 2 (at cost 1); the goal is to stand on 5. *)
Definition modelo_saltos : ModeloBusqueda nat nat :=
  {| acciones_legales := λ s, if decide (s < 6)%nat then [1%nat; 2%nat] else [];
     sucesor := λ s a, (s + a)%nat;
     costo_local := λ s a, 3 - Z.of_nat a |}.

Definition problema_saltos : ProblemaBusqueda nat nat :=
  {| x0 := O; meta := λ s, bool_decide (s = 5%nat); modelo := modelo_saltos |}.

(** A corridor 0 -> 1 -> 2 -> 3 with unit costs whose goal is the room
    [objetivo]. *)
Definition modelo_pasillo : ModeloBusqueda nat unit :=
  {| acciones_legales := λ s, if decide (s < 3)%nat then [()] else [];
     sucesor := λ s _, S s;
     costo_local := costo_local_base |}.

Definition problema_pasillo (objetivo : nat) : ProblemaBusqueda nat unit :=
  {| x0 := O; meta := λ s, bool_decide (s = objetivo);
     modelo := modelo_pasillo |}.

(** * Correctness of the heap *)

Section HeapqCorrecto.
Context {T : Type} (lt : T → T → bool).

(** [lt] is a strict weak order: asymmetric, and its negation is
    transitive. *)
Hypothesis lt_asim : ∀ x y, lt x y = true → lt y x = false.
Hypothesis lt_negtrans :
  ∀ x y z, lt x y = false → lt y z = false → lt x z = false.

Lemma lt_trans_der x y z :
  lt x y = true → lt y z = true → lt x z = true.
Proof.
  intros Hxy Hyz. destruct (lt x z) eqn:Hxz; [done|].
  apply lt_asim in Hyz.
  rewrite (lt_negtrans _ _ _ Hxz Hyz) in Hxy. done.
Qed.

Lemma lt_le_der x y z :
  lt x y = true → lt z y = false → lt z x = false.
Proof.
  intros Hxy Hzy. destruct (lt z x) eqn:Hzx; [|done].
  rewrite (lt_trans_der _ _ _ Hzx Hxy) in Hzy. done.
Qed.

Lemma heap_ok_nil : heap_ok lt [].
Proof. intros i x y _ Hx. by rewrite lookup_nil in Hx. Qed.

Lemma coloca_ok h pos newitem :
  casi_heap lt h pos newitem → (pos < length h)%nat →
  (pos = O ∨ ∃ parent, h !! ((pos - 1) / 2)%nat = Some parent ∧
                       lt newitem parent = false) →
  heap_ok lt (<[pos:=newitem]> h).
Proof.
  intros (Ha & Hb & Hc) Hlen Hpar i x y Hi Hx Hy.
  destruct (decide (i = pos)) as [->|Hne].
  - rewrite list_lookup_insert_eq in Hx by done.
    rewrite list_lookup_insert_ne in Hy by lia.
    destruct Hpar as [->|(parent & Hp & Hlt)]; [lia|]. naive_solver.
  - rewrite list_lookup_insert_ne in Hx by done.
    destruct (decide (((i - 1) / 2)%nat = pos)) as [Heq|Hne'].
    + rewrite Heq, list_lookup_insert_eq in Hy by done.
      simplify_eq. eauto.
    + rewrite list_lookup_insert_ne in Hy by done. eauto.
Qed.

Lemma siftdown_bucle_ok fuel h newitem pos :
  (pos ≤ fuel)%nat → (pos < length h)%nat → casi_heap lt h pos newitem →
  heap_ok lt (siftdown_bucle lt fuel h newitem 0 pos).
Proof.
  revert h pos. induction fuel as [|fuel IH]; intros h pos Hf Hlen Hc;
    cbn [siftdown_bucle].
  { apply coloca_ok; [done..|left; lia]. }
  destruct (decide (0 < pos)%nat) as [Hpos|Hpos];
    [|apply coloca_ok; [done..|left; lia]].
  destruct (lookup_lt_is_Some_2 h ((pos - 1) / 2)%nat) as [parent Hp];
    [lia|].
  rewrite Hp. destruct (lt newitem parent) eqn:Hlt;
    [|apply coloca_ok; [done..|right; eauto]].
  destruct Hc as (Ha & Hb & Hc).
  apply IH; [lia|rewrite length_insert; lia|].
  split_and!.
  - intros i x y Hi Hne Hne' Hx Hy.
    destruct (decide (i = pos)) as [->|Hip]; [done|].
    rewrite list_lookup_insert_ne in Hx by done.
    destruct (decide (((i - 1) / 2)%nat = pos)) as [Heq|Hnp].
    + rewrite Heq, list_lookup_insert_eq in Hy by done. simplify_eq.
      eapply Hc; eauto.
    + rewrite list_lookup_insert_ne in Hy by done. eauto.
  - intros i x Hi Heq Hx.
    destruct (decide (i = pos)) as [->|Hip].
    + rewrite list_lookup_insert_eq in Hx by done. simplify_eq. eauto.
    + rewrite list_lookup_insert_ne in Hx by done.
      eapply lt_le_der; [exact Hlt|].
      apply (Ha i x parent); [lia..|done|by rewrite Heq].
  - intros i x y Hi Heq Hpp Hx Hy.
    rewrite list_lookup_insert_ne in Hy by lia.
    assert (lt parent y = false) as Hpy.
    { apply (Ha ((pos - 1) / 2)%nat parent y); [lia..|done|done]. }
    destruct (decide (i = pos)) as [->|Hip].
    + rewrite list_lookup_insert_eq in Hx by done. by simplify_eq.
    + rewrite list_lookup_insert_ne in Hx by done.
      eapply lt_negtrans; [|exact Hpy].
      apply (Ha i x parent); [lia..|done|by rewrite Heq].
Qed.

Lemma lt_irrefl_der x : lt x x = false.
Proof.
  destruct (lt x x) eqn:E; [|done]. pose proof (lt_asim _ _ E). congruence.
Qed.

Lemma siftdown_bucle_perm fuel h newitem startpos pos :
  (pos < length h)%nat →
  siftdown_bucle lt fuel h newitem startpos pos ≡ₚ <[pos:=newitem]> h.
Proof.
  revert h pos. induction fuel as [|fuel IH]; intros h pos Hlen;
    cbn [siftdown_bucle]; [done|].
  destruct (decide (startpos < pos)%nat) as [Hpos|Hpos]; [|done].
  destruct (lookup_lt_is_Some_2 h ((pos - 1) / 2)%nat) as [parent Hp];
    [lia|].
  rewrite Hp. destruct (lt newitem parent); [|done].
  rewrite IH by (rewrite length_insert; lia).
  rewrite <-(list_insert_insert_eq h pos parent newitem).
  apply Permutation_insert_swap.
  - by apply list_lookup_insert_eq.
  - rewrite list_lookup_insert_ne by lia. done.
Qed.

Lemma hijo_menor_spec h pos :
  (2 * pos + 1 < length h)%nat →
  let c := hijo_menor lt h (2 * pos + 1) in
  (c = 2 * pos + 1 ∨ c = 2 * pos + 2)%nat ∧ (c < length h)%nat ∧
  ∀ i x y, (0 < i)%nat → ((i - 1) / 2)%nat = pos →
    h !! i = Some x → h !! c = Some y → lt x y = false.
Proof.
  intros Hlen. unfold hijo_menor.
  destruct (lookup_lt_is_Some_2 h (2 * pos + 1)%nat) as [l Hl]; [done|].
  rewrite Hl.
  assert (∀ i, (0 < i)%nat → ((i - 1) / 2)%nat = pos →
            i = (2 * pos + 1)%nat ∨ i = (2 * pos + 1 + 1)%nat) as Hcases
    by (intros; lia).
  destruct (h !! (2 * pos + 1 + 1)%nat) as [r|] eqn:Hr; cbn zeta.
  - apply lookup_lt_Some in Hr as Hlenr.
    destruct (lt l r) eqn:Hlr.
    + split_and!; [lia|done|].
      intros i x y Hi Hp Hx Hy.
      destruct (Hcases i Hi Hp) as [->| ->]; simplify_eq;
        eauto using lt_irrefl_der.
    + split_and!; [lia|done|].
      intros i x y Hi Hp Hx Hy.
      destruct (Hcases i Hi Hp) as [->| ->]; simplify_eq;
        eauto using lt_irrefl_der.
  - split_and!; [lia|done|].
    intros i x y Hi Hp Hx Hy.
    destruct (Hcases i Hi Hp) as [->| ->]; simplify_eq;
      eauto using lt_irrefl_der.
Qed.

Lemma siftup_bucle_ok fuel h pos h' hoja :
  hueco lt h pos → (pos < length h)%nat → (length h ≤ fuel + pos)%nat →
  siftup_bucle lt fuel h pos = (h', hoja) →
  hueco lt h' hoja ∧ (hoja < length h')%nat ∧ length h' = length h ∧
  (length h' ≤ 2 * hoja + 1)%nat.
Proof.
  revert h pos. induction fuel as [|fuel IH]; intros h pos Hh Hlen Hf;
    cbn [siftup_bucle]; [lia|].
  destruct (decide (2 * pos + 1 < length h)%nat) as [Hc|Hc];
    [|intros [= <- <-]; split_and!; [done|done|done|lia]].
  destruct (hijo_menor_spec h pos Hc) as (Hcc & Hclen & Hmen).
  set (c := hijo_menor lt h (2 * pos + 1)) in *.
  destruct (lookup_lt_is_Some_2 h c Hclen) as [vc Hvc]. rewrite Hvc.
  intros Hrun. apply IH in Hrun; rewrite ?length_insert in *;
    [naive_solver|..|lia|lia].
  destruct Hh as [Ha Hb]. split.
  - intros i x y Hi Hne Hne' Hx Hy.
    destruct (decide (i = pos)) as [->|Hip].
    + rewrite list_lookup_insert_eq in Hx by done.
      rewrite list_lookup_insert_ne in Hy by lia. simplify_eq.
      apply (Hb c x y); [lia..|done|done].
    + rewrite list_lookup_insert_ne in Hx by done.
      destruct (decide (((i - 1) / 2)%nat = pos)) as [Heq|Hnp].
      * rewrite Heq, list_lookup_insert_eq in Hy by done. simplify_eq.
        eauto.
      * rewrite list_lookup_insert_ne in Hy by done. eauto.
  - intros i x y Hi Heq Hpc Hx Hy.
    rewrite list_lookup_insert_ne in Hx by lia.
    replace ((c - 1) / 2)%nat with pos in Hy by lia.
    rewrite list_lookup_insert_eq in Hy by done. simplify_eq.
    apply (Ha i x y); [lia..|done|by rewrite Heq].
Qed.

Lemma siftup_bucle_perm fuel h pos h' hoja x :
  (pos < length h)%nat →
  siftup_bucle lt fuel h pos = (h', hoja) →
  <[hoja:=x]> h' ≡ₚ <[pos:=x]> h.
Proof.
  revert h pos. induction fuel as [|fuel IH]; intros h pos Hlen;
    cbn [siftup_bucle]; [by intros [= <- <-]|].
  destruct (decide (2 * pos + 1 < length h)%nat) as [Hc|Hc];
    [|by intros [= <- <-]].
  destruct (hijo_menor_spec h pos Hc) as (Hcc & Hclen & _).
  set (c := hijo_menor lt h (2 * pos + 1)) in *.
  destruct (lookup_lt_is_Some_2 h c Hclen) as [vc Hvc]. rewrite Hvc.
  intros Hrun. apply IH in Hrun; [|rewrite length_insert; lia].
  rewrite Hrun, <-(list_insert_insert_eq h pos vc x).
  apply Permutation_insert_swap.
  - by apply list_lookup_insert_eq.
  - rewrite list_lookup_insert_ne by lia. done.
Qed.

Lemma siftup_bucle_len fuel h pos h' hoja :
  (pos < length h)%nat →
  siftup_bucle lt fuel h pos = (h', hoja) →
  (hoja < length h')%nat ∧ length h' = length h.
Proof.
  revert h pos. induction fuel as [|fuel IH]; intros h pos Hlen;
    cbn [siftup_bucle]; [by intros [= <- <-]|].
  destruct (decide (2 * pos + 1 < length h)%nat) as [Hc|Hc];
    [|by intros [= <- <-]].
  destruct (hijo_menor_spec h pos Hc) as (_ & Hclen & _).
  destruct (lookup_lt_is_Some_2 h _ Hclen) as [vc Hvc]. rewrite Hvc.
  intros Hrun%IH; rewrite ?length_insert in *; done.
Qed.

Lemma siftup_perm h : siftup lt h 0 ≡ₚ h.
Proof.
  unfold siftup. destruct (h !! O) as [newitem|] eqn:H0; [|done].
  apply lookup_lt_Some in H0 as Hlen.
  destruct (siftup_bucle lt (length h) h 0) as [h' hoja] eqn:Hrun.
  pose proof (siftup_bucle_perm _ _ _ _ _ newitem Hlen Hrun) as Hp.
  apply siftup_bucle_len in Hrun as [Hhoja _]; [|done].
  unfold siftdown. rewrite list_lookup_insert_eq by done.
  rewrite siftdown_bucle_perm by (rewrite length_insert; done).
  rewrite list_insert_insert_eq, Hp. by rewrite list_insert_id.
Qed.

Lemma siftup_ok h : hueco lt h 0 → heap_ok lt (siftup lt h 0).
Proof.
  intros Hh. unfold siftup.
  destruct (h !! O) as [newitem|] eqn:H0.
  2:{ apply lookup_ge_None in H0. destruct h; simpl in *; [|lia].
      apply heap_ok_nil. }
  apply lookup_lt_Some in H0 as Hlen.
  destruct (siftup_bucle lt (length h) h 0) as [h' hoja] eqn:Hrun.
  apply siftup_bucle_ok in Hrun as (Hh' & Hhoja & Hl & Hleaf);
    [|done|done|lia].
  unfold siftdown. rewrite list_lookup_insert_eq by done.
  apply siftdown_bucle_ok; [done|by rewrite length_insert|].
  destruct Hh' as [Ha Hb]. split_and!.
  - intros i x y Hi Hne Hne' Hx Hy.
    rewrite list_lookup_insert_ne in Hx, Hy by done. eauto.
  - intros i x Hi Heq Hx. apply lookup_lt_Some in Hx.
    rewrite length_insert in Hx. lia.
  - intros i x y Hi Heq _ Hx. apply lookup_lt_Some in Hx.
    rewrite length_insert in Hx. lia.
Qed.

(** *** The interface the searches rely on *)

Lemma heappush_perm h x : heappush lt h x ≡ₚ x :: h.
Proof.
  unfold heappush, siftdown.
  rewrite lookup_app_r, Nat.sub_diag by done. simpl.
  rewrite siftdown_bucle_perm by (rewrite length_app; simpl; lia).
  rewrite list_insert_id; [by rewrite Permutation_app_comm|].
  by rewrite lookup_app_r, Nat.sub_diag.
Qed.

Lemma heappush_ok h x : heap_ok lt h → heap_ok lt (heappush lt h x).
Proof.
  intros Hh. unfold heappush, siftdown.
  rewrite lookup_app_r, Nat.sub_diag by done. simpl.
  apply siftdown_bucle_ok; [done|rewrite length_app; simpl; lia|].
  split_and!.
  - intros i a b Hi Hne Hne' Ha Hb.
    assert (i < length (h ++ [x]))%nat as Hlt by eauto using lookup_lt_Some.
    rewrite length_app in Hlt. simpl in Hlt.
    rewrite lookup_app_l in Ha, Hb by lia. eauto.
  - intros i a Hi Heq Ha. apply lookup_lt_Some in Ha.
    rewrite length_app in Ha. simpl in Ha. lia.
  - intros i a b Hi Heq _ Ha. apply lookup_lt_Some in Ha.
    rewrite length_app in Ha. simpl in Ha. lia.
Qed.

Lemma heap_ok_min h x :
  heap_ok lt h → h !! O = Some x → ∀ y, y ∈ h → lt y x = false.
Proof.
  intros Hh H0 y [i Hy]%list_elem_of_lookup. revert y Hy.
  induction (lt_wf i) as [i _ IH]. intros y Hy.
  destruct (decide (i = O)) as [->|Hi];
    [simplify_eq; apply lt_irrefl_der|].
  destruct (lookup_lt_is_Some_2 h ((i - 1) / 2)%nat) as [z Hz].
  { apply lookup_lt_Some in Hy. lia. }
  eapply lt_negtrans; [eapply (Hh i); eauto; lia|].
  eapply (IH ((i - 1) / 2)%nat); [lia|done].
Qed.

Lemma heappop_None h : heappop lt h = None ↔ h = [].
Proof.
  unfold heappop. split; [|by intros ->].
  destruct (last h) eqn:Hl; [|by apply last_None in Hl].
  cbn zeta. by destruct (removelast h !! O).
Qed.

Lemma heappop_perm h x h' : heappop lt h = Some (x, h') → h ≡ₚ x :: h'.
Proof.
  unfold heappop. destruct (last h) as [lastelt|] eqn:Hl; [|done].
  apply last_Some in Hl as [h0 ->]. rewrite removelast_last. cbn zeta.
  destruct h0 as [|r resto]; simpl; intros [= <- <-]; [done|].
  rewrite siftup_perm. apply perm_skip.
  change (resto ++ [lastelt] ≡ₚ lastelt :: resto).
  by rewrite Permutation_app_comm.
Qed.

Lemma heappop_spec h x h' :
  heap_ok lt h → heappop lt h = Some (x, h') →
  heap_ok lt h' ∧ h ≡ₚ x :: h' ∧ h !! O = Some x ∧
  ∀ y, y ∈ h' → lt y x = false.
Proof.
  intros Hh. unfold heappop.
  destruct (last h) as [lastelt|] eqn:Hl; [|done].
  apply last_Some in Hl as [h0 ->]. rewrite removelast_last. cbn zeta.
  assert (heap_ok lt h' ∧ h0 ++ [lastelt] ≡ₚ x :: h' ∧
          (h0 ++ [lastelt]) !! O = Some x →
          heap_ok lt h' ∧ h0 ++ [lastelt] ≡ₚ x :: h' ∧
          (h0 ++ [lastelt]) !! O = Some x ∧
          ∀ y, y ∈ h' → lt y x = false) as Hfin.
  { intros (H1 & H2 & H3). split_and!; [done..|].
    intros y Hy. eapply heap_ok_min; [exact Hh|done|].
    rewrite H2. by right. }
  destruct h0 as [|r resto]; simpl.
  { intros [= <- <-]. apply Hfin. split_and!; [apply heap_ok_nil|done..]. }
  intros [= <- <-]. apply Hfin. split_and!; [| |done].
  2:{ rewrite siftup_perm. apply perm_skip.
      change (resto ++ [lastelt] ≡ₚ lastelt :: resto).
      by rewrite Permutation_app_comm. }
  apply siftup_ok. split; [|lia].
  intros i a b Hi _ Hne Ha Hb.
  assert (i < S (length resto))%nat as Hlt.
  { apply lookup_lt_Some in Ha. simpl in Ha. lia. }
  assert (∀ j, j ≠ O → (j < S (length resto))%nat →
            ((r :: resto) ++ [lastelt]) !! j = (lastelt :: resto) !! j)
    as Hsame.
  { intros j Hj Hjl. rewrite lookup_app_l by (simpl; lia).
    by rewrite !lookup_cons_ne_0 by done. }
  apply (Hh i a b Hi); rewrite Hsame; [done|lia|lia|done|lia|lia].
Qed.

End HeapqCorrecto.

(** * Nodes and plans *)

Section Nodos.
Context {Estado : Type} `{Countable Estado} {Accion : Type}.
Implicit Types (pb : ProblemaBusqueda Estado Accion)
  (m : ModeloBusqueda Estado Accion) (n : Nodo Estado Accion).

Lemma pasos_ind2 {A} (P : list A → Prop) :
  P [] → (∀ x, P [x]) → (∀ x y l, P l → P (x :: y :: l)) → ∀ l, P l.
Proof.
  intros Hnil Huno Hdos.
  assert (∀ l, P l ∧ ∀ x, P (x :: l)) as Hboth; [|intros l; apply Hboth].
  induction l as [|y l [IH1 IH2]]; [by split|].
  split; [apply IH2|]. intros x. by apply Hdos.
Qed.

Lemma expande_elem n m hijo :
  hijo ∈ expande n m ↔
  ∃ a, a ∈ acciones_legales m (estado n) ∧
    hijo = Nodo_init (sucesor m (estado n) a) (Some a) (Some n)
             (costo_local m (estado n) a).
Proof.
  unfold expande. rewrite list_elem_of_fmap.
  split; intros (a & ? & ?); by exists a.
Qed.

Lemma genera_plan_sella n num : genera_plan (sella n num) = genera_plan n.
Proof. by destruct n. Qed.

Lemma genera_plan_hijo e a n c :
  genera_plan (Nodo_init e a (Some n) c)
  = genera_plan n ++ [PAccion a; PEstado e].
Proof. done. Qed.

Lemma reproduce_snoc m s resto t a :
  reproduce m s resto → last (PEstado s :: resto) = Some (PEstado t) →
  a ∈ acciones_legales m t →
  reproduce m s (resto ++ [PAccion (Some a); PEstado (sucesor m t a)]).
Proof.
  revert s. induction resto as [|x|x y resto IH] using pasos_ind2;
    intros s Hr Hl Ha.
  - simpl in *. by simplify_eq.
  - by destruct x as [|[]].
  - destruct x as [|[b|]]; [done| |done]. destruct y as [s'|]; [|done].
    destruct Hr as (Hb & -> & Hr). simpl. split_and!; [done..|].
    apply IH; [done| |done]. by rewrite !last_cons_cons in Hl.
Qed.

Lemma costo_desde_snoc m s resto t a s' :
  reproduce m s resto → last (PEstado s :: resto) = Some (PEstado t) →
  costo_desde m s (resto ++ [PAccion (Some a); PEstado s'])
  = costo_desde m s resto + costo_local m t a.
Proof.
  revert s. induction resto as [|x|x y resto IH] using pasos_ind2;
    intros s Hr Hl.
  - simpl in *. simplify_eq. lia.
  - by destruct x as [|[]].
  - destruct x as [|[b|]]; [done| |done]. destruct y as [s2|]; [|done].
    destruct Hr as (Hb & -> & Hr). simpl.
    rewrite IH; [lia|done|]. by rewrite !last_cons_cons in Hl.
Qed.

(** What a built node stands for: its plan starts at [x0], replays
    through the model up to the node's state, and its edges add up to
    the node's cost. *)
Lemma construido_plan pb n :
  construido pb n →
  ∃ resto, genera_plan n = PEstado (x0 pb) :: resto ∧
    reproduce (modelo pb) (x0 pb) resto ∧
    last (genera_plan n) = Some (PEstado (estado n)) ∧
    costo n = costo_desde (modelo pb) (x0 pb) resto ∧
    length resto = (2 * profundidad n)%nat.
Proof.
  induction 1 as [|n hijo _ (resto & Hp & Hr & Hl & Hc & Hd) Hh
                  |n num _ (resto & Hp & Hr & Hl & Hc & Hd)].
  - by exists [].
  - apply expande_elem in Hh as (a & Ha & ->).
    rewrite genera_plan_hijo, Hp. rewrite Hp in Hl.
    eexists. split; [by rewrite <-app_comm_cons|].
    split_and!.
    + by apply reproduce_snoc.
    + by rewrite last_app_cons.
    + simpl. rewrite Hc. symmetry. by apply costo_desde_snoc.
    + rewrite length_app. simpl. lia.
  - rewrite genera_plan_sella. by exists resto.
Qed.

(** The same fact in terms of paths of the graph. *)
Lemma camino_snoc m s l t a :
  camino m s l t → a ∈ acciones_legales m t →
  camino m s (l ++ [a]) (sucesor m t a).
Proof.
  induction 1; intros Ha; simpl.
  - apply camino_cons; [done|apply camino_nil].
  - apply camino_cons; auto.
Qed.

Lemma costo_camino_snoc m s l t a :
  camino m s l t →
  costo_camino m s (l ++ [a]) = costo_camino m s l + costo_local m t a.
Proof. induction 1; simpl; lia. Qed.

Lemma camino_app m s l1 t l2 u :
  camino m s l1 t → camino m t l2 u → camino m s (l1 ++ l2) u.
Proof. induction 1; simpl; [done|]. intros. apply camino_cons; auto. Qed.

Lemma costo_camino_app m s l1 t l2 :
  camino m s l1 t →
  costo_camino m s (l1 ++ l2) = costo_camino m s l1 + costo_camino m t l2.
Proof. induction 1; simpl; lia. Qed.

Lemma costo_camino_no_neg m s l t :
  costos_no_negativos m → camino m s l t → 0 ≤ costo_camino m s l.
Proof.
  intros Hm. induction 1 as [|s a l t Ha _ IH]; simpl; [done|].
  specialize (Hm s a Ha). lia.
Qed.

Lemma construido_camino pb n :
  construido pb n →
  ∃ l, camino (modelo pb) (x0 pb) l (estado n) ∧
    costo_camino (modelo pb) (x0 pb) l = costo n ∧
    length l = profundidad n.
Proof.
  induction 1 as [|n hijo _ (l & Hl & Hc & Hd) Hh
                  |n num _ (l & Hl & Hc & Hd)].
  - exists []. split; [apply camino_nil|done].
  - apply expande_elem in Hh as (a & Ha & ->). exists (l ++ [a]).
    split_and!; simpl.
    + by apply camino_snoc.
    + erewrite costo_camino_snoc by done. lia.
    + rewrite length_app. simpl. lia.
  - by exists l.
Qed.

(** *** The order of the frontier entries *)

Lemma entrada_lt_true (x y : Z * Nodo Estado Accion) :
  entrada_lt x y = true ↔
  x.1 < y.1 ∨ (x.1 = y.1 ∧ (profundidad x.2 < profundidad y.2)%nat).
Proof.
  unfold entrada_lt, Nodo_lt. case_bool_decide.
  - rewrite bool_decide_eq_true. lia.
  - rewrite bool_decide_eq_true. lia.
Qed.

Lemma entrada_lt_false (x y : Z * Nodo Estado Accion) :
  entrada_lt x y = false ↔
  y.1 < x.1 ∨ (x.1 = y.1 ∧ (profundidad y.2 ≤ profundidad x.2)%nat).
Proof.
  unfold entrada_lt, Nodo_lt. case_bool_decide.
  - rewrite bool_decide_eq_false. lia.
  - rewrite bool_decide_eq_false. lia.
Qed.

Lemma entrada_lt_asim (x y : Z * Nodo Estado Accion) :
  entrada_lt x y = true → entrada_lt y x = false.
Proof. rewrite entrada_lt_true, entrada_lt_false. lia. Qed.

Lemma entrada_lt_negtrans (x y z : Z * Nodo Estado Accion) :
  entrada_lt x y = false → entrada_lt y z = false →
  entrada_lt x z = false.
Proof. rewrite !entrada_lt_false. lia. Qed.

End Nodos.

(** * Invariant rules for the loops *)

Section Reglas.
Context {Estado : Type} `{Countable Estado} {Accion : Type}.
Context (pb : ProblemaBusqueda Estado Accion).
Implicit Types (n r : Nodo Estado Accion) (num : nat)
  (hijos : list (Nodo Estado Accion)).

(** A property [I] of frontier and visited set that every full
    iteration of [busqueda_ancho] keeps holds when the loop stops,
    either inside an expansion (early return) or on an empty
    frontier. *)
Lemma bucle_ancho_regla
    (I : list (Nodo Estado Accion) → gset Estado → Prop)
    fuel frontera visitados num res :
  I frontera visitados →
  (∀ n resto v k f' v' k',
     I (n :: resto) v →
     hijos_ancho pb (expande n (modelo pb)) resto v k = inr (f', v', k') →
     I f' v') →
  bucle_ancho fuel pb frontera visitados num = Some res →
  (∃ n resto v k r k',
     I (n :: resto) v ∧
     hijos_ancho pb (expande n (modelo pb)) resto v k = inl (r, k') ∧
     res = (Some r, k')) ∨
  (∃ v k, I [] v ∧ res = (None, k)).
Proof.
  intros HI Hstep. revert frontera visitados num HI.
  induction fuel as [|fuel IH]; intros frontera visitados num HI;
    simpl; [done|].
  destruct frontera as [|n resto]; [intros [= <-]; right; eauto|].
  destruct (hijos_ancho _ _ _ _ _) as [[r k']|[[f' v'] k']] eqn:Hh.
  - intros [= <-]. left. by exists n, resto, visitados, num, r, k'.
  - apply IH. eauto.
Qed.

Lemma bucle_profundo_regla
    (I : list (Nodo Estado Accion) → gmap Estado nat → Prop)
    fuel max_profundidad frontera visitados num res :
  I frontera visitados →
  (∀ n resto v,
     I (n :: resto) v → meta pb (estado n) = false →
     if en_el_limite max_profundidad n then I resto v
     else I (hijos_profundo (expande n (modelo pb)) resto v).1
            (hijos_profundo (expande n (modelo pb)) resto v).2) →
  bucle_profundo fuel pb max_profundidad frontera visitados num
    = Some res →
  (∃ n resto v k,
     I (n :: resto) v ∧ meta pb (estado n) = true ∧
     res = (Some (sella n k), k)) ∨
  (∃ v k, I [] v ∧ res = (None, k)).
Proof.
  intros HI Hstep. revert frontera visitados num HI.
  induction fuel as [|fuel IH]; intros frontera visitados num HI;
    simpl; [done|].
  destruct frontera as [|n resto]; [intros [= <-]; right; eauto|].
  destruct (meta pb (estado n)) eqn:Hm.
  { intros [= <-]. left. by exists n, resto, visitados, (S num). }
  specialize (Hstep n resto visitados HI Hm).
  destruct (en_el_limite max_profundidad n); [by apply IH|].
  destruct (hijos_profundo _ _ _) as [f' v']. by apply IH.
Qed.

Lemma bucle_A_estrella_regla
    (I : list (Z * Nodo Estado Accion) → gmap Estado Z → Prop)
    fuel heuristica frontera visitados num res :
  I frontera visitados →
  (∀ f v p n f1,
     I f v → heappop entrada_lt f = Some ((p, n), f1) →
     meta pb (estado n) = false →
     I (hijos_A_estrella heuristica (expande n (modelo pb)) f1 v).1
       (hijos_A_estrella heuristica (expande n (modelo pb)) f1 v).2) →
  bucle_A_estrella fuel pb heuristica frontera visitados num = Some res →
  (∃ f v p n f1 k,
     I f v ∧ heappop entrada_lt f = Some ((p, n), f1) ∧
     meta pb (estado n) = true ∧ res = (Some (sella n k), k)) ∨
  (∃ v k, I [] v ∧ res = (None, k)).
Proof.
  intros HI Hstep. revert frontera visitados num HI.
  induction fuel as [|fuel IH]; intros frontera visitados num HI;
    simpl; [done|].
  destruct (heappop entrada_lt frontera) as [[[p n] f1]|] eqn:Hpop.
  2:{ apply heappop_None in Hpop as ->. intros [= <-]. right; eauto. }
  destruct (meta pb (estado n)) eqn:Hm.
  { intros [= <-]. left. by exists frontera, visitados, p, n, f1, (S num). }
  specialize (Hstep _ _ _ _ _ HI Hpop Hm).
  destruct (hijos_A_estrella _ _ _ _) as [f' v']. by apply IH.
Qed.

(** *** Uniform cost is A* with the heuristic that is 0 everywhere *)

Lemma hijos_costo_uniforme_A_estrella hijos frontera
    (visitados : gmap Estado Z) :
  hijos_costo_uniforme hijos frontera visitados
  = hijos_A_estrella (λ _, 0) hijos frontera visitados.
Proof.
  revert frontera visitados.
  induction hijos as [|hijo resto IH]; intros frontera visitados;
    simpl; [done|].
  rewrite Z.add_0_r. by rewrite !IH.
Qed.

Lemma bucle_costo_uniforme_A_estrella fuel frontera visitados num :
  bucle_costo_uniforme fuel pb frontera visitados num
  = bucle_A_estrella fuel pb (λ _, 0) frontera visitados num.
Proof.
  revert frontera visitados num.
  induction fuel as [|fuel IH]; intros frontera visitados num;
    simpl; [done|].
  destruct (heappop _ _) as [[[p n] f1]|]; [|done].
  destruct (meta pb (estado n)); [done|].
  rewrite hijos_costo_uniforme_A_estrella.
  destruct (hijos_A_estrella _ _ _ _). apply IH.
Qed.

Lemma costo_uniforme_A_estrella fuel num :
  busqueda_costo_uniforme fuel pb num
  = busqueda_A_estrella fuel pb (λ _, 0) num.
Proof. apply bucle_costo_uniforme_A_estrella. Qed.

(** *** Every node the strategies hold was built from the root *)

Lemma expande_construido n :
  construido pb n → Forall (construido pb) (expande n (modelo pb)).
Proof.
  intros Hn. apply Forall_forall. intros hijo Hh.
  by apply construido_hijo with n.
Qed.

Lemma hijos_ancho_construido hijos frontera visitados num :
  Forall (construido pb) hijos → Forall (construido pb) frontera →
  match hijos_ancho pb hijos frontera visitados num with
  | inl (r, _) => construido pb r ∧ meta pb (estado r) = true
  | inr (f', _, _) => Forall (construido pb) f'
  end.
Proof.
  intros Hh. revert frontera visitados num.
  induction Hh as [|hijo resto Hc _ IH]; intros frontera visitados num Hf;
    simpl; [done|].
  destruct (decide _); [by apply IH|].
  destruct (meta pb (estado hijo)) eqn:Hm.
  - split; [by apply construido_sella|done].
  - apply IH. apply Forall_app. by split; [|apply Forall_singleton].
Qed.

Lemma busqueda_ancho_construido fuel num r num' :
  busqueda_ancho fuel pb num = Some (Some r, num') →
  construido pb r ∧ meta pb (estado r) = true.
Proof.
  unfold busqueda_ancho. simpl.
  destruct (meta pb (x0 pb)) eqn:Hm.
  { intros [= <- <-]. split; [apply construido_raiz|done]. }
  intros Hrun.
  apply (bucle_ancho_regla (λ f _, Forall (construido pb) f)) in Hrun;
    [|apply Forall_singleton, construido_raiz|].
  - destruct Hrun as [(n & resto & v & k & r' & k' & Hf & Hh & Hres)
                     |(? & ? & _ & ?)]; [|done].
    simplify_eq. apply Forall_cons in Hf as [Hn Hf].
    pose proof (hijos_ancho_construido _ _ v k
                  (expande_construido _ Hn) Hf) as Hc.
    by rewrite Hh in Hc.
  - intros n resto v k f' v' k' [Hn Hf]%Forall_cons Hh.
    pose proof (hijos_ancho_construido _ _ v k
                  (expande_construido _ Hn) Hf) as Hc.
    by rewrite Hh in Hc.
Qed.

Lemma hijos_profundo_construido hijos frontera
    (visitados : gmap Estado nat) :
  Forall (construido pb) hijos → Forall (construido pb) frontera →
  Forall (construido pb) (hijos_profundo hijos frontera visitados).1.
Proof.
  intros Hh. revert frontera visitados.
  induction Hh as [|hijo resto Hc _ IH]; intros frontera visitados Hf;
    simpl; [done|].
  destruct (mejora _ _ _ _); apply IH; [by apply Forall_cons|done].
Qed.

Lemma bucle_profundo_construido fuel mp frontera visitados num r num' :
  Forall (construido pb) frontera →
  bucle_profundo fuel pb mp frontera visitados num = Some (Some r, num') →
  construido pb r ∧ meta pb (estado r) = true.
Proof.
  intros Hf Hrun.
  apply (bucle_profundo_regla (λ f _, Forall (construido pb) f)) in Hrun;
    [|done|].
  - destruct Hrun as [(n & resto & v & k & [Hn _]%Forall_cons & Hm & Hres)
                     |(? & ? & _ & ?)]; [|done].
    simplify_eq. split; [by apply construido_sella|done].
  - intros n resto v [Hn Hr]%Forall_cons _.
    destruct (en_el_limite mp n); [done|].
    apply hijos_profundo_construido; [by apply expande_construido|done].
Qed.

Lemma busqueda_profundo_construido fuel mp num r num' :
  busqueda_profundo fuel pb mp num = Some (Some r, num') →
  construido pb r ∧ meta pb (estado r) = true.
Proof.
  apply bucle_profundo_construido, Forall_singleton, construido_raiz.
Qed.

Lemma iterativa_bucle_construido fuel profundidades num r num' :
  iterativa_bucle fuel pb profundidades num = Some (Some r, num') →
  construido pb r ∧ meta pb (estado r) = true.
Proof.
  revert num. induction profundidades as [|d resto IH]; intros num;
    simpl; [done|].
  destruct (busqueda_profundo _ _ _ _) as [[[r'|] k]|] eqn:Hd; [| |done].
  - intros [= <- <-]. by eapply busqueda_profundo_construido.
  - apply IH.
Qed.

Lemma hijos_A_estrella_construido heuristica hijos frontera
    (visitados : gmap Estado Z) :
  Forall (construido pb) hijos →
  Forall (λ e, construido pb e.2) frontera →
  Forall (λ e, construido pb e.2)
    (hijos_A_estrella heuristica hijos frontera visitados).1.
Proof.
  intros Hh. revert frontera visitados.
  induction Hh as [|hijo resto Hc _ IH]; intros frontera visitados Hf;
    simpl; [done|].
  destruct (mejora _ _ _ _); apply IH; [|done].
  rewrite heappush_perm. by apply Forall_cons.
Qed.

Lemma busqueda_A_estrella_construido fuel heuristica num r num' :
  busqueda_A_estrella fuel pb heuristica num = Some (Some r, num') →
  construido pb r ∧ meta pb (estado r) = true.
Proof.
  intros Hrun.
  apply (bucle_A_estrella_regla
           (λ f _, Forall (λ e, construido pb e.2) f)) in Hrun.
  - destruct Hrun as [(f & v & p & n & f1 & k & Hf & Hpop & Hm & Hres)
                     |(? & ? & _ & ?)]; [|done].
    simplify_eq. split; [|done]. apply construido_sella.
    apply heappop_perm in Hpop; [|apply entrada_lt_asim].
    rewrite Hpop in Hf. by apply Forall_cons in Hf as [? _].
  - rewrite heappush_perm.
    apply Forall_singleton, construido_raiz.
  - intros f v p n f1 Hf Hpop _.
    apply heappop_perm in Hpop; [|apply entrada_lt_asim].
    rewrite Hpop in Hf. apply Forall_cons in Hf as [Hn Hf].
    apply hijos_A_estrella_construido; [by apply expande_construido|done].
Qed.

Lemma busqueda_costo_uniforme_construido fuel num r num' :
  busqueda_costo_uniforme fuel pb num = Some (Some r, num') →
  construido pb r ∧ meta pb (estado r) = true.
Proof.
  rewrite costo_uniforme_A_estrella.
  apply busqueda_A_estrella_construido.
Qed.

End Reglas.

(** * Optimality of A* (and of uniform cost) *)

Section Optimalidad.
Context {Estado : Type} `{Countable Estado} {Accion : Type}.
Context (pb : ProblemaBusqueda Estado Accion).
Context (heuristica : Nodo Estado Accion → Z).
Implicit Types (n r : Nodo Estado Accion) (num : nat)
  (hijos : list (Nodo Estado Accion))
  (f : list (Z * Nodo Estado Accion)) (v : gmap Estado Z).

Hypothesis h_no_negativa : no_negativa pb heuristica.

Local Abbreviation m := (modelo pb).

Lemma mejora_costo_true v e c :
  mejora mayor_costo v e c = true ↔
  v !! e = None ∨ ∃ c0, v !! e = Some c0 ∧ c < c0.
Proof.
  unfold mejora, mayor_costo. destruct (v !! e) as [c0|].
  - rewrite bool_decide_eq_true. split; [intros; right; by exists c0|].
    by intros [?|(? & [= <-] & ?)].
  - split; [by left|done].
Qed.

Lemma mejora_costo_false v e c :
  mejora mayor_costo v e c = false ↔ ∃ c0, v !! e = Some c0 ∧ c0 ≤ c.
Proof.
  unfold mejora, mayor_costo. destruct (v !! e) as [c0|].
  - rewrite bool_decide_eq_false. split; [|intros (? & [= <-] & ?); lia].
    intros. exists c0. split; [done|lia].
  - split; [done|]. by intros (? & ? & ?).
Qed.

(** Recorded costs only go down. *)
Lemma mejora_baja v e c s c1 :
  mejora mayor_costo v e c = true → v !! s = Some c1 →
  ∃ c2, <[e:=c]> v !! s = Some c2 ∧ c2 ≤ c1.
Proof.
  intros Hm Hs. destruct (decide (e = s)) as [->|Hne].
  - rewrite lookup_insert_eq. exists c. split; [done|].
    apply mejora_costo_true in Hm as [Hm|(c0 & Hm & ?)]; simplify_eq. lia.
  - rewrite lookup_insert_ne by done. exists c1. split; [done|lia].
Qed.

Lemma resuelto_baja v e c s c1 :
  mejora mayor_costo v e c = true → resuelto pb v s c1 →
  resuelto pb (<[e:=c]> v) s c1.
Proof.
  intros Hm [Hmeta Hs]. split; [done|]. intros a Ha.
  destruct (Hs a Ha) as (c' & Hc' & Hle).
  destruct (mejora_baja _ _ _ _ _ Hm Hc') as (c2 & ? & ?).
  exists c2. split; [done|lia].
Qed.

(** The [for] loop: besides the invariant, the children already seen
    are all recorded no dearer than their own cost. *)
Lemma hijos_A_estrella_inv hijos pend f v :
  Forall (construido pb) hijos → inv_A pb heuristica pend f v →
  let r := hijos_A_estrella heuristica hijos f v in
  inv_A pb heuristica pend r.1 r.2 ∧
  (∀ s c1, v !! s = Some c1 → ∃ c2, r.2 !! s = Some c2 ∧ c2 ≤ c1) ∧
  (∀ hijo, hijo ∈ hijos →
     ∃ c', r.2 !! estado hijo = Some c' ∧ c' ≤ costo hijo).
Proof.
  intros Hh. revert f v.
  induction Hh as [|hijo resto Hc _ IH]; intros f v Hinv; simpl.
  { split_and!; [done| |by intros ? ?%elem_of_nil].
    intros s c1 ?. exists c1. split; [done|lia]. }
  destruct (mejora mayor_costo v (estado hijo) (costo hijo)) eqn:Hm.
  - destruct (IH (heappush entrada_lt f
                    (costo hijo + heuristica hijo, hijo))
                 (<[estado hijo:=costo hijo]> v)) as (Hi & Hmono & Hdone).
    { destruct Hinv as (Hheap & Hent & Hvis & c0 & Hx0 & Hc0).
      split_and!.
      - apply heappush_ok;
          [apply entrada_lt_asim|apply entrada_lt_negtrans|done].
      - intros p n. rewrite heappush_perm, elem_of_cons.
        intros [[= -> ->]|Hin]; [|by apply Hent].
        split; [done|]. specialize (h_no_negativa hijo Hc). lia.
      - intros s c. destruct (decide (estado hijo = s)) as [<-|Hne].
        + rewrite lookup_insert_eq. intros [= <-]. left.
          exists (costo hijo + heuristica hijo), hijo.
          rewrite heappush_perm. split; [by left|done].
        + rewrite lookup_insert_ne by done. intros Hs.
          destruct (Hvis s c Hs) as [(p & n & Hin & ?)|[Hr|Hp]].
          * left. exists p, n. rewrite heappush_perm.
            split; [by right|done].
          * right; left. by apply resuelto_baja.
          * by right; right.
      - destruct (mejora_baja _ _ _ _ _ Hm Hx0) as (c2 & ? & ?).
        exists c2. split; [done|lia]. }
    split_and!; [done| |].
    + intros s c1 Hs.
      destruct (mejora_baja _ _ _ _ _ Hm Hs) as (c2 & Hc2 & ?).
      destruct (Hmono s c2 Hc2) as (c3 & ? & ?).
      exists c3. split; [done|lia].
    + intros hijo' [->|Hin]%elem_of_cons; [|by apply Hdone].
      destruct (Hmono (estado hijo) (costo hijo)) as (c3 & ? & ?);
        [by rewrite lookup_insert_eq|].
      by exists c3.
  - destruct (IH f v Hinv) as (Hi & Hmono & Hdone).
    split_and!; [done..|].
    intros hijo' [->|Hin]%elem_of_cons; [|by apply Hdone].
    apply mejora_costo_false in Hm as (c0 & Hc0 & ?).
    destruct (Hmono _ _ Hc0) as (c3 & ? & ?).
    exists c3. split; [done|lia].
Qed.

Lemma inv_A_inicial :
  inv_A pb heuristica None (heappush entrada_lt [] (0, raiz pb)) {[x0 pb := 0]}.
Proof.
  split_and!.
  - apply heappush_ok;
      [apply entrada_lt_asim|apply entrada_lt_negtrans|apply heap_ok_nil].
  - intros p n. rewrite heappush_perm, list_elem_of_singleton.
    intros [= -> ->]. split; [apply construido_raiz|].
    pose proof (h_no_negativa _ (construido_raiz pb)). simpl. lia.
  - intros s c [<- <-]%lookup_singleton_Some. left.
    exists 0, (raiz pb). rewrite heappush_perm. split; [by left|done].
  - exists 0. by rewrite lookup_singleton_eq.
Qed.

Lemma inv_A_paso f v p n f1 :
  inv_A pb heuristica None f v → heappop entrada_lt f = Some ((p, n), f1) →
  meta pb (estado n) = false →
  inv_A pb heuristica None
    (hijos_A_estrella heuristica (expande n m) f1 v).1
    (hijos_A_estrella heuristica (expande n m) f1 v).2.
Proof.
  intros (Hheap & Hent & Hvis & Hx0) Hpop Hmeta.
  apply heappop_spec in Hpop as Hspec;
    [|apply entrada_lt_asim|apply entrada_lt_negtrans|done].
  destruct Hspec as (Hheap1 & Hperm & _ & _).
  assert (construido pb n) as Hn.
  { apply (Hent p n). rewrite Hperm. by left. }
  destruct (hijos_A_estrella_inv (expande n m)
              (Some (estado n, costo n)) f1 v) as (Hi & Hmono & Hdone).
  { by apply expande_construido. }
  { split_and!; [done| | |done].
    - intros p' n' Hin. apply Hent. rewrite Hperm. by right.
    - intros s c Hs.
      destruct (Hvis s c Hs) as [(p' & n' & Hin & ? & ?)|[Hr|?]];
        [|by right; left|done].
      rewrite Hperm in Hin. apply elem_of_cons in Hin as [[= -> ->]|Hin].
      + right; right. by subst.
      + left. by exists p', n'. }
  destruct Hi as (Hh' & He' & Hv' & Hx').
  split_and!; [done..| |done].
  intros s c Hs. destruct (Hv' s c Hs) as [?|[?|[= <- <-]]];
    [by left|by right; left|].
  right; left. split; [done|]. intros a Ha.
  destruct (Hdone (Nodo_init (sucesor m (estado n) a) (Some a) (Some n)
                     (costo_local m (estado n) a))) as (c' & ? & ?).
  { apply expande_elem. by exists a. }
  by exists c'.
Qed.

(** Along any path to a goal the frontier holds a node that sits on
    the path and is no dearer than the path up to there. *)
Lemma testigo_en_frontera f v l t :
  inv_A pb heuristica None f v → camino m (x0 pb) l t → meta pb t = true →
  ∃ p n l1 l2, (p, n) ∈ f ∧ l = l1 ++ l2 ∧
    camino m (x0 pb) l1 (estado n) ∧ camino m (estado n) l2 t ∧
    costo n ≤ costo_camino m (x0 pb) l1.
Proof.
  intros (_ & _ & Hvis & c0 & Hx0 & Hc0) Hl Ht.
  assert (∀ s l2, camino m s l2 t → ∀ l1 c,
            camino m (x0 pb) l1 s → v !! s = Some c →
            c ≤ costo_camino m (x0 pb) l1 →
            ∃ p n l1' l2', (p, n) ∈ f ∧ l1 ++ l2 = l1' ++ l2' ∧
              camino m (x0 pb) l1' (estado n) ∧
              camino m (estado n) l2' t ∧
              costo n ≤ costo_camino m (x0 pb) l1') as Hgen.
  { induction 1 as [s|s a l2 t Ha Hl2 IH]; intros l1 c Hl1 Hs Hc.
    - destruct (Hvis s c Hs) as [(p & n & Hin & <- & <-)|[[Hr _]|?]];
        [|congruence|done].
      exists p, n, l1, []. split_and!; [done..|apply camino_nil|done].
    - destruct (Hvis s c Hs) as [(p & n & Hin & <- & <-)|[[_ Hr]|?]];
        [| |done].
      + exists p, n, l1, (a :: l2).
        split_and!; [done..|by apply camino_cons|done].
      + destruct (Hr a Ha) as (c' & Hc' & Hle).
        destruct (IH Hl Ht (l1 ++ [a]) c')
          as (p & n & l1' & l2' & ? & Heq & ?);
          [by apply camino_snoc|done| |].
        { erewrite costo_camino_snoc by done. lia. }
        exists p, n, l1', l2'. split; [done|].
        split; [|done]. by rewrite <-Heq, <-(assoc_L (++)). }
  destruct (Hgen _ _ Hl [] c0) as (p & n & l1 & l2 & ?);
    [apply camino_nil|done|done|].
  by exists p, n, l1, l2.
Qed.

Hypothesis h_admisible : admisible pb heuristica.

Lemma A_estrella_cota fuel num r num' l t :
  busqueda_A_estrella fuel pb heuristica num = Some (Some r, num') →
  camino m (x0 pb) l t → meta pb t = true →
  costo r ≤ costo_camino m (x0 pb) l.
Proof.
  intros Hrun Hl Ht.
  apply (bucle_A_estrella_regla pb (inv_A pb heuristica None)) in Hrun;
    [|apply inv_A_inicial|apply inv_A_paso].
  destruct Hrun as [(f & v & p & n & f1 & k & Hinv & Hpop & Hm & Hres)
                   |(? & ? & _ & ?)]; [|done].
  simplify_eq. simpl.
  destruct (testigo_en_frontera _ _ _ _ Hinv Hl Ht)
    as (p' & n' & l1 & l2 & Hin & -> & Hl1 & Hl2 & Hc).
  destruct Hinv as (Hheap & Hent & _ & _).
  apply heappop_spec in Hpop as (_ & Hperm & _ & Hmin);
    [|apply entrada_lt_asim|apply entrada_lt_negtrans|done].
  assert (p ≤ p') as Hpp.
  { rewrite Hperm in Hin. apply elem_of_cons in Hin as [[= -> ->]|Hin];
      [lia|].
    apply Hmin, entrada_lt_false in Hin. simpl in Hin. lia. }
  destruct (Hent p n) as [_ [Hlo _]]; [rewrite Hperm; by left|].
  destruct (Hent p' n' Hin) as [Hn' [_ Hhi]].
  pose proof (h_admisible n' l2 t Hn' Hl2 Ht).
  erewrite costo_camino_app by done. lia.
Qed.

End Optimalidad.

(** * Termination on a finite state space *)

Section Medidas.
Context {Estado : Type} `{Countable Estado}.
Local Open Scope nat_scope.

Lemma desciende_ind (P : nat * nat * nat → Prop) :
  (∀ x, (∀ y, desciende y x → P y) → P x) → ∀ x, P x.
Proof.
  intros Hstep [[a b] c]. revert b c.
  induction (lt_wf a) as [a _ IHa]. intros b.
  induction (lt_wf b) as [b _ IHb]. intros c.
  induction (lt_wf c) as [c _ IHc].
  apply Hstep. intros [[a' b'] c'] [?|[? [?|[? ?]]]]; simpl in *; subst; auto.
Qed.

Lemma length_filter_le {A} (P Q : A → Prop)
    `{!∀ x, Decision (P x)} `{!∀ x, Decision (Q x)} (l : list A) :
  (∀ x, x ∈ l → P x → Q x) → length (filter P l) ≤ length (filter Q l).
Proof.
  induction l as [|x l IH]; intros HPQ; [done|].
  rewrite !filter_cons.
  assert (length (filter P l) ≤ length (filter Q l)) as Hle.
  { apply IH. intros y Hy. apply HPQ. by right. }
  destruct (decide (P x)) as [HP|]; destruct (decide (Q x)) as [|HQ];
    simpl; try lia.
  destruct HQ. apply HPQ; [by left|done].
Qed.

Lemma length_filter_menor {A} (P Q : A → Prop)
    `{!∀ x, Decision (P x)} `{!∀ x, Decision (Q x)} (l : list A) z :
  (∀ x, x ∈ l → P x → Q x) → z ∈ l → Q z → ¬ P z →
  length (filter P l) < length (filter Q l).
Proof.
  induction l as [|x l IH]; intros HPQ Hz HQz HPz;
    [by apply elem_of_nil in Hz|].
  rewrite !filter_cons.
  assert (length (filter P l) ≤ length (filter Q l)) as Hle.
  { apply length_filter_le. intros y Hy. apply HPQ. by right. }
  apply elem_of_cons in Hz as [<-|Hz].
  - rewrite decide_False, decide_True by done. simpl. lia.
  - assert (length (filter P l) < length (filter Q l)) as Hlt.
    { apply IH; [|done..]. intros y Hy. apply HPQ. by right. }
    destruct (decide (P x)) as [HP|]; destruct (decide (Q x)) as [|HQ];
      simpl; try lia.
    destruct HQ. apply HPQ; [by left|done].
Qed.

Lemma sum_list_with_le {A} (g h : A → nat) (l : list A) :
  (∀ x, x ∈ l → g x ≤ h x) → sum_list_with g l ≤ sum_list_with h l.
Proof.
  induction l as [|x l IH]; intros Hgh; simpl; [done|].
  pose proof (Hgh x ltac:(by left)).
  assert (sum_list_with g l ≤ sum_list_with h l);
    [apply IH; intros y Hy; apply Hgh; by right|lia].
Qed.

Lemma sum_list_with_menor {A} (g h : A → nat) (l : list A) z :
  (∀ x, x ∈ l → g x ≤ h x) → z ∈ l → g z < h z →
  sum_list_with g l < sum_list_with h l.
Proof.
  induction l as [|x l IH]; intros Hgh Hz Hlt;
    [by apply elem_of_nil in Hz|]. simpl.
  pose proof (Hgh x ltac:(by left)).
  assert (sum_list_with g l ≤ sum_list_with h l) as Hle.
  { apply sum_list_with_le. intros y Hy. apply Hgh. by right. }
  apply elem_of_cons in Hz as [<-|Hz]; [lia|].
  assert (sum_list_with g l < sum_list_with h l);
    [apply IH; [|done..]; intros y Hy; apply Hgh; by right|lia].
Qed.

(** Recording a state of the universe for the first time, or lowering
    the weight of a recorded one, descends. *)
Lemma registrar_desciende {V} (w : V → nat) universo (v : gmap Estado V)
    s y (k k' : nat) :
  s ∈ universo →
  match v !! s with None => True | Some x => w y < w x end →
  desciende (no_vistos universo (<[s:=y]> v),
             peso w universo (<[s:=y]> v), k')
            (no_vistos universo v, peso w universo v, k).
Proof.
  intros Hs Hm. unfold desciende, no_vistos, peso. simpl.
  assert (∀ u, <[s:=y]> v !! u = None → v !! u = None) as Hnone.
  { intros u. destruct (decide (s = u)) as [->|];
      [by rewrite lookup_insert_eq|by rewrite lookup_insert_ne]. }
  destruct (v !! s) as [x|] eqn:Hx.
  - pose proof (length_filter_le (λ u, <[s:=y]> v !! u = None)
                  (λ u, v !! u = None) universo (λ u _, Hnone u)).
    assert (sum_list_with (λ u, from_option w 0 (<[s:=y]> v !! u)) universo
            < sum_list_with (λ u, from_option w 0 (v !! u)) universo);
      [|lia].
    apply sum_list_with_menor with s; [|done|].
    + intros u _. destruct (decide (s = u)) as [<-|].
      * rewrite lookup_insert_eq, Hx. simpl. lia.
      * by rewrite lookup_insert_ne.
    + rewrite lookup_insert_eq, Hx. simpl. lia.
  - left. apply length_filter_menor with s;
      [intros u _; apply Hnone|done..|].
    by rewrite lookup_insert_eq.
Qed.

Lemma desciende_trans x y z : desciende x y → desciende y z → desciende x z.
Proof. unfold desciende. lia. Qed.

Lemma no_visitados_add universo (v : gset Estado) s :
  s ∈ universo → s ∉ v →
  no_visitados universo ({[s]} ∪ v) < no_visitados universo v.
Proof.
  intros Hs Hv. unfold no_visitados.
  apply length_filter_menor with s; [|done|done|]; set_solver.
Qed.

End Medidas.

Section Terminacion.
Context {Estado : Type} `{Countable Estado} {Accion : Type}.
Context (pb : ProblemaBusqueda Estado Accion) (universo : list Estado).
Implicit Types (n r : Nodo Estado Accion) (num : nat)
  (hijos : list (Nodo Estado Accion)).
Hypothesis finito : espacio_finito pb universo.
Local Open Scope nat_scope.

Lemma expande_universo n hijo :
  estado n ∈ universo → hijo ∈ expande n (modelo pb) →
  estado hijo ∈ universo.
Proof.
  intros Hn (a & Ha & ->)%expande_elem. simpl.
  by apply (proj2 finito).
Qed.

Lemma alcanzable_universo t :
  alcanzable (modelo pb) (x0 pb) t → t ∈ universo.
Proof.
  intros [l Hl]. destruct finito as [Hx0 Hcl].
  induction Hl as [|s a l t Ha _ IH]; [done|]. apply IH. by apply Hcl.
Qed.

(** *** More fuel does not change a result *)

Lemma bucle_ancho_mono fuel fuel' frontera visitados num res :
  bucle_ancho fuel pb frontera visitados num = Some res → fuel ≤ fuel' →
  bucle_ancho fuel' pb frontera visitados num = Some res.
Proof.
  revert fuel' frontera visitados num.
  induction fuel as [|fuel IH]; intros fuel' frontera visitados num;
    [done|].
  intros Hrun Hle. destruct fuel' as [|fuel']; [lia|]. simpl in *.
  destruct frontera as [|n resto]; [done|].
  destruct (hijos_ancho _ _ _ _ _) as [[??]|[[??]?]]; [done|].
  apply IH; [done|lia].
Qed.

Lemma bucle_profundo_mono fuel fuel' mp frontera visitados num res :
  bucle_profundo fuel pb mp frontera visitados num = Some res →
  fuel ≤ fuel' →
  bucle_profundo fuel' pb mp frontera visitados num = Some res.
Proof.
  revert fuel' frontera visitados num.
  induction fuel as [|fuel IH]; intros fuel' frontera visitados num;
    [done|].
  intros Hrun Hle. destruct fuel' as [|fuel']; [lia|]. simpl in *.
  destruct frontera as [|n resto]; [done|].
  destruct (meta pb (estado n)); [done|].
  destruct (en_el_limite mp n); [apply IH; [done|lia]|].
  destruct (hijos_profundo _ _ _). apply IH; [done|lia].
Qed.

Lemma bucle_A_estrella_mono fuel fuel' heuristica frontera visitados num
    res :
  bucle_A_estrella fuel pb heuristica frontera visitados num = Some res →
  fuel ≤ fuel' →
  bucle_A_estrella fuel' pb heuristica frontera visitados num = Some res.
Proof.
  revert fuel' frontera visitados num.
  induction fuel as [|fuel IH]; intros fuel' frontera visitados num;
    [done|].
  intros Hrun Hle. destruct fuel' as [|fuel']; [lia|]. simpl in *.
  destruct (heappop _ _) as [[[p n] f1]|]; [|done].
  destruct (meta pb (estado n)); [done|].
  destruct (hijos_A_estrella _ _ _ _). apply IH; [done|lia].
Qed.

Lemma iterativa_bucle_mono fuel fuel' profundidades num res :
  iterativa_bucle fuel pb profundidades num = Some res → fuel ≤ fuel' →
  iterativa_bucle fuel' pb profundidades num = Some res.
Proof.
  revert num. induction profundidades as [|d resto IH]; intros num;
    simpl; [done|]. unfold busqueda_profundo.
  destruct (bucle_profundo fuel _ _ _ _ _) as [[[r|] k]|] eqn:Hd; [| |done].
  - intros [= <-] Hle.
    by rewrite (bucle_profundo_mono _ _ _ _ _ _ _ Hd Hle).
  - intros Hrun Hle.
    rewrite (bucle_profundo_mono _ _ _ _ _ _ _ Hd Hle). by apply IH.
Qed.

(** *** Breadth first *)

Lemma hijos_ancho_medida hijos frontera (visitados : gset Estado) num :
  (∀ hijo, hijo ∈ hijos → estado hijo ∈ universo) →
  match hijos_ancho pb hijos frontera visitados num with
  | inl _ => True
  | inr (f', v', _) =>
      (∀ n, n ∈ f' → n ∈ frontera ∨ n ∈ hijos) ∧
      ((f' = frontera ∧ v' = visitados) ∨
       no_visitados universo v' < no_visitados universo visitados)
  end.
Proof.
  revert frontera visitados num.
  induction hijos as [|hijo resto IH]; intros frontera visitados num Hu;
    simpl.
  { split; [by left|by left]. }
  assert (∀ h, h ∈ resto → estado h ∈ universo) as Hu'
    by (intros h Hh; apply Hu; by right).
  destruct (decide _) as [|Hnv].
  { specialize (IH frontera visitados num Hu').
    destruct (hijos_ancho _ _ _ _ _) as [|[[f' v'] k']]; [done|].
    destruct IH as [Hin Hm]. split; [|done].
    intros n [?|?]%Hin; [by left|right; by right]. }
  destruct (meta pb (estado hijo)); [done|].
  specialize (IH (frontera ++ [hijo]) ({[estado hijo]} ∪ visitados)
                (S num) Hu').
  destruct (hijos_ancho _ _ _ _ _) as [|[[f' v'] k']]; [done|].
  destruct IH as [Hin Hm]. split.
  - intros n Hn. apply Hin in Hn as [[?|Hs]%elem_of_app|?];
      [by left| |right; by right].
    apply list_elem_of_singleton in Hs as ->. right; by left.
  - right.
    assert (no_visitados universo ({[estado hijo]} ∪ visitados)
            < no_visitados universo visitados) as Hlt.
    { apply no_visitados_add; [|done]. apply Hu. by left. }
    destruct Hm as [[_ ->]|?]; [done|lia].
Qed.

Lemma bucle_ancho_termina frontera (visitados : gset Estado) num :
  (∀ n, n ∈ frontera → estado n ∈ universo) →
  ∃ fuel res, bucle_ancho fuel pb frontera visitados num = Some res.
Proof.
  remember (no_visitados universo visitados, O, length frontera) as x
    eqn:Hx.
  revert frontera visitados num Hx.
  induction x as [x IH] using desciende_ind.
  intros frontera visitados num -> Hu.
  destruct frontera as [|n resto]; [by exists 1, (None, num)|].
  pose proof (hijos_ancho_medida (expande n (modelo pb)) resto visitados
                num) as Hh.
  destruct (hijos_ancho pb _ resto visitados num)
    as [[r k]|[[f' v'] k']] eqn:Hrun.
  { exists 1, (Some r, k). simpl. by rewrite Hrun. }
  destruct Hh as [Hin Hm].
  { intros hijo Hh. eapply expande_universo; [|done]. apply Hu. by left. }
  destruct (IH (no_visitados universo v', O, length f')) with f' v' k'
    as (fuel & res & Hres); [|done| |].
  - unfold desciende. simpl. destruct Hm as [[-> ->]|?]; lia.
  - intros n' [?|?]%Hin; [apply Hu; by right|].
    eapply expande_universo; [|done]. apply Hu. by left.
  - exists (S fuel), res. simpl. by rewrite Hrun.
Qed.

(** *** Depth first *)

Lemma hijos_profundo_medida hijos frontera (visitados : gmap Estado nat) :
  (∀ hijo, hijo ∈ hijos → estado hijo ∈ universo) →
  let r := hijos_profundo hijos frontera visitados in
  (∀ n, n ∈ r.1 → n ∈ frontera ∨ n ∈ hijos) ∧
  (r = (frontera, visitados) ∨
   ∀ k k', desciende (no_vistos universo r.2, peso id universo r.2, k')
             (no_vistos universo visitados, peso id universo visitados, k)).
Proof.
  revert frontera visitados.
  induction hijos as [|hijo resto IH]; intros frontera visitados Hu; simpl.
  { split; [by left|by left]. }
  assert (∀ h, h ∈ resto → estado h ∈ universo) as Hu'
    by (intros h Hh; apply Hu; by right).
  destruct (mejora _ _ _ _) eqn:Hmej.
  - destruct (IH (hijo :: frontera)
                (<[estado hijo:=profundidad hijo]> visitados) Hu')
      as [Hin Hm].
    split.
    + intros n [[->|?]%elem_of_cons|?]%Hin;
        [right; by left|by left|right; by right].
    + right. intros k k'.
      assert (desciende
                (no_vistos universo
                   (<[estado hijo:=profundidad hijo]> visitados),
                 peso id universo
                   (<[estado hijo:=profundidad hijo]> visitados), k')
                (no_vistos universo visitados,
                 peso id universo visitados, k)) as Hd.
      { apply registrar_desciende; [apply Hu; by left|].
        unfold mejora in Hmej. destruct (visitados !! estado hijo); [|done].
        apply bool_decide_eq_true in Hmej. done. }
      destruct Hm as [->|Hm]; [done|].
      eapply desciende_trans; [apply (Hm k' k')|done].
  - destruct (IH frontera visitados Hu') as [Hin Hm].
    split; [|done]. intros n [?|?]%Hin; [by left|right; by right].
Qed.

Lemma bucle_profundo_termina mp frontera (visitados : gmap Estado nat) num :
  (∀ n, n ∈ frontera → estado n ∈ universo) →
  ∃ fuel res, bucle_profundo fuel pb mp frontera visitados num = Some res.
Proof.
  remember (no_vistos universo visitados, peso id universo visitados,
            length frontera) as x eqn:Hx.
  revert frontera visitados num Hx.
  induction x as [x IH] using desciende_ind.
  intros frontera visitados num -> Hu.
  destruct frontera as [|n resto]; [by exists 1, (None, num)|].
  destruct (meta pb (estado n)) eqn:Hmeta.
  { exists 1, (Some (sella n (S num)), S num). simpl. by rewrite Hmeta. }
  destruct (en_el_limite mp n) eqn:Hlim.
  { destruct (IH (no_vistos universo visitados, peso id universo visitados,
                  length resto)) with resto visitados (S num)
      as (fuel & res & Hres); [|done| |].
    - unfold desciende. simpl. lia.
    - intros n' ?. apply Hu. by right.
    - exists (S fuel), res. simpl. by rewrite Hmeta, Hlim. }
  pose proof (hijos_profundo_medida (expande n (modelo pb)) resto visitados)
    as Hh.
  destruct (hijos_profundo (expande n (modelo pb)) resto visitados)
    as [f' v'] eqn:Hrun.
  destruct Hh as [Hin Hm].
  { intros hijo Hh. eapply expande_universo; [|done]. apply Hu. by left. }
  simpl in *.
  destruct (IH (no_vistos universo v', peso id universo v', length f'))
    with f' v' (S num) as (fuel & res & Hres); [|done| |].
  - destruct Hm as [[= -> ->]|Hm]; [|apply Hm].
    unfold desciende. simpl. lia.
  - intros n' [?|?]%Hin; [apply Hu; by right|].
    eapply expande_universo; [|done]. apply Hu. by left.
  - exists (S fuel), res. simpl. by rewrite Hmeta, Hlim, Hrun.
Qed.

Lemma raiz_universo n : n ∈ [raiz pb] → estado n ∈ universo.
Proof. intros ->%list_elem_of_singleton. apply finito. Qed.

Lemma iterativa_bucle_termina profundidades num :
  ∃ fuel res, iterativa_bucle fuel pb profundidades num = Some res.
Proof.
  revert num. induction profundidades as [|d resto IH]; intros num.
  { by exists O, (None, num). }
  destruct (bucle_profundo_termina (Some (Z.of_nat d)) [raiz pb]
              {[x0 pb := O]} num raiz_universo) as (f1 & [r k] & Hd).
  destruct r as [r|].
  - exists f1, (Some r, k). simpl. unfold busqueda_profundo. by rewrite Hd.
  - destruct (IH k) as (f2 & res & Hres).
    exists (max f1 f2), res. simpl. unfold busqueda_profundo.
    rewrite (bucle_profundo_mono _ _ _ _ _ _ _ Hd (Nat.le_max_l f1 f2)).
    apply (iterativa_bucle_mono _ _ _ _ _ Hres (Nat.le_max_r f1 f2)).
Qed.

(** *** A* and uniform cost *)

Hypothesis costos : costos_no_negativos (modelo pb).

Lemma expande_costo n hijo :
  (0 ≤ costo n)%Z → hijo ∈ expande n (modelo pb) → (0 ≤ costo hijo)%Z.
Proof.
  intros Hn (a & Ha & ->)%expande_elem. simpl.
  specialize (costos _ _ Ha). lia.
Qed.

Lemma hijos_A_estrella_medida heuristica hijos
    (frontera : list (Z * Nodo Estado Accion)) (visitados : gmap Estado Z) :
  (∀ hijo, hijo ∈ hijos → estado hijo ∈ universo ∧ (0 ≤ costo hijo)%Z) →
  en_rango universo frontera →
  let r := hijos_A_estrella heuristica hijos frontera visitados in
  en_rango universo r.1 ∧
  (r = (frontera, visitados) ∨
   ∀ k k', desciende
             (no_vistos universo r.2, peso Z.to_nat universo r.2, k')
             (no_vistos universo visitados,
              peso Z.to_nat universo visitados, k)).
Proof.
  revert frontera visitados.
  induction hijos as [|hijo resto IH]; intros frontera visitados Hu Hf;
    simpl.
  { split; [done|by left]. }
  assert (∀ h, h ∈ resto → estado h ∈ universo ∧ (0 ≤ costo h)%Z) as Hu'
    by (intros h Hh; apply Hu; by right).
  destruct (Hu hijo ltac:(by left)) as [Hhu Hhc].
  destruct (mejora _ _ _ _) eqn:Hmej; [|by apply IH].
  destruct (IH (heappush entrada_lt frontera
                  (costo hijo + heuristica hijo, hijo)%Z)
              (<[estado hijo:=costo hijo]> visitados) Hu') as [Hin Hm].
  { intros p n. rewrite heappush_perm, elem_of_cons.
    intros [[= -> ->]|?]; [done|by apply (Hf p n)]. }
  split; [done|]. right. intros k k'.
  assert (desciende
            (no_vistos universo (<[estado hijo:=costo hijo]> visitados),
             peso Z.to_nat universo (<[estado hijo:=costo hijo]> visitados),
             k')
            (no_vistos universo visitados,
             peso Z.to_nat universo visitados, k)) as Hd.
  { apply registrar_desciende; [done|].
    unfold mejora, mayor_costo in Hmej.
    destruct (visitados !! estado hijo); [|done].
    apply bool_decide_eq_true in Hmej. lia. }
  destruct Hm as [->|Hm]; [done|].
  eapply desciende_trans; [apply (Hm k' k')|done].
Qed.

Lemma bucle_A_estrella_termina heuristica frontera visitados num :
  en_rango universo frontera →
  ∃ fuel res,
    bucle_A_estrella fuel pb heuristica frontera visitados num = Some res.
Proof.
  remember (no_vistos universo visitados, peso Z.to_nat universo visitados,
            length frontera) as x eqn:Hx.
  revert frontera visitados num Hx.
  induction x as [x IH] using desciende_ind.
  intros frontera visitados num -> Hu.
  destruct (heappop entrada_lt frontera) as [[[p n] f1]|] eqn:Hpop.
  2:{ exists 1, (None, num). simpl. by rewrite Hpop. }
  apply heappop_perm in Hpop as Hperm; [|apply entrada_lt_asim].
  destruct (meta pb (estado n)) eqn:Hmeta.
  { exists 1, (Some (sella n (S num)), S num). simpl.
    by rewrite Hpop, Hmeta. }
  destruct (Hu p n) as [Hnu Hnc]; [rewrite Hperm; by left|].
  pose proof (hijos_A_estrella_medida heuristica (expande n (modelo pb))
                f1 visitados) as Hh.
  destruct (hijos_A_estrella heuristica (expande n (modelo pb)) f1 visitados)
    as [f' v'] eqn:Hrun.
  destruct Hh as [Hin Hm].
  { intros hijo Hh. split; [by eapply expande_universo|].
    by eapply expande_costo. }
  { intros p' n' Hin. apply (Hu p' n'). rewrite Hperm. by right. }
  simpl in *.
  destruct (IH (no_vistos universo v', peso Z.to_nat universo v',
                length f')) with f' v' (S num) as (fuel & res & Hres);
    [|done|done|].
  - destruct Hm as [[= -> ->]|Hm]; [|apply Hm].
    unfold desciende. simpl. apply Permutation_length in Hperm.
    simpl in Hperm. lia.
  - exists (S fuel), res. simpl. by rewrite Hpop, Hmeta, Hrun.
Qed.

Lemma busqueda_A_estrella_termina heuristica num :
  ∃ fuel res, busqueda_A_estrella fuel pb heuristica num = Some res.
Proof.
  apply bucle_A_estrella_termina. intros p n.
  rewrite heappush_perm, list_elem_of_singleton. intros [= -> ->].
  split; [apply finito|done].
Qed.

End Terminacion.

(** * Depth first within a bound, and iterative deepening *)

Section Profundidad.
Context {Estado : Type} `{Countable Estado} {Accion : Type}.
Context (pb : ProblemaBusqueda Estado Accion) (limite : nat).
Implicit Types (n r : Nodo Estado Accion) (num : nat)
  (hijos f : list (Nodo Estado Accion)) (v : gmap Estado nat).
Local Open Scope nat_scope.

Lemma mejora_profundidad_true v e d :
  mejora (λ x y : nat, bool_decide (y < x)) v e d = true ↔
  v !! e = None ∨ ∃ d0, v !! e = Some d0 ∧ d < d0.
Proof.
  unfold mejora. destruct (v !! e) as [d0|].
  - rewrite bool_decide_eq_true. split; [intros; right; by exists d0|].
    by intros [?|(? & [= <-] & ?)].
  - split; [by left|done].
Qed.

Lemma mejora_profundidad_false v e d :
  mejora (λ x y : nat, bool_decide (y < x)) v e d = false ↔
  ∃ d0, v !! e = Some d0 ∧ d0 ≤ d.
Proof.
  unfold mejora. destruct (v !! e) as [d0|].
  - rewrite bool_decide_eq_false. split; [|intros (? & [= <-] & ?); lia].
    intros. exists d0. split; [done|lia].
  - split; [done|]. by intros (? & ? & ?).
Qed.

Lemma mejora_profundidad_baja v e d s d1 :
  mejora (λ x y : nat, bool_decide (y < x)) v e d = true → v !! s = Some d1 →
  ∃ d2, <[e:=d]> v !! s = Some d2 ∧ d2 ≤ d1.
Proof.
  intros Hm Hs. destruct (decide (e = s)) as [->|Hne].
  - rewrite lookup_insert_eq. exists d. split; [done|].
    apply mejora_profundidad_true in Hm as [Hm|(d0 & Hm & ?)];
      simplify_eq. lia.
  - rewrite lookup_insert_ne by done. exists d1. split; [done|lia].
Qed.

Lemma resuelto_hasta_baja v e d s d1 :
  mejora (λ x y : nat, bool_decide (y < x)) v e d = true →
  resuelto_hasta pb limite v s d1 → resuelto_hasta pb limite (<[e:=d]> v) s d1.
Proof.
  intros Hm [Hmeta Hs]. split; [done|]. intros Hlt a Ha.
  destruct (Hs Hlt a Ha) as (d' & Hd' & Hle).
  destruct (mejora_profundidad_baja _ _ _ _ _ Hm Hd') as (d2 & ? & ?).
  exists d2. split; [done|lia].
Qed.

Lemma hijos_profundo_inv hijos pend f v :
  (∀ hijo, hijo ∈ hijos → construido pb hijo ∧ profundidad hijo ≤ limite) →
  inv_profundo pb limite pend f v →
  let r := hijos_profundo hijos f v in
  inv_profundo pb limite pend r.1 r.2 ∧
  (∀ s d1, v !! s = Some d1 → ∃ d2, r.2 !! s = Some d2 ∧ d2 ≤ d1) ∧
  (∀ hijo, hijo ∈ hijos →
     ∃ d', r.2 !! estado hijo = Some d' ∧ d' ≤ profundidad hijo).
Proof.
  revert f v. induction hijos as [|hijo resto IH]; intros f v Hh Hinv; simpl.
  { split_and!; [done| |by intros ? ?%elem_of_nil].
    intros s d1 ?. exists d1. split; [done|lia]. }
  assert (∀ h, h ∈ resto → construido pb h ∧ profundidad h ≤ limite) as Hh'
    by (intros h ?; apply Hh; by right).
  destruct (mejora _ v (estado hijo) (profundidad hijo)) eqn:Hm.
  - destruct (IH (hijo :: f) (<[estado hijo:=profundidad hijo]> v) Hh')
      as (Hi & Hmono & Hdone).
    { destruct Hinv as (Hf & Hvis & d0 & Hx0 & Hd0). split_and!.
      - intros n [->|?]%elem_of_cons; [apply Hh; by left|by apply Hf].
      - intros s d. destruct (decide (estado hijo = s)) as [<-|Hne].
        + rewrite lookup_insert_eq. intros [= <-]. left. exists hijo.
          split; [by left|done].
        + rewrite lookup_insert_ne by done. intros Hs.
          destruct (Hvis s d Hs) as [(n & Hin & ?)|[Hr|Hp]].
          * left. exists n. split; [by right|done].
          * right; left. by apply resuelto_hasta_baja.
          * by right; right.
      - destruct (mejora_profundidad_baja _ _ _ _ _ Hm Hx0) as (d2 & ? & ?).
        exists d2. split; [done|lia]. }
    split_and!; [done| |].
    + intros s d1 Hs.
      destruct (mejora_profundidad_baja _ _ _ _ _ Hm Hs) as (d2 & Hd2 & ?).
      destruct (Hmono s d2 Hd2) as (d3 & ? & ?).
      exists d3. split; [done|lia].
    + intros hijo' [->|Hin]%elem_of_cons; [|by apply Hdone].
      destruct (Hmono (estado hijo) (profundidad hijo)) as (d3 & ? & ?);
        [by rewrite lookup_insert_eq|].
      by exists d3.
  - destruct (IH f v Hh' Hinv) as (Hi & Hmono & Hdone).
    split_and!; [done..|].
    intros hijo' [->|Hin]%elem_of_cons; [|by apply Hdone].
    apply mejora_profundidad_false in Hm as (d0 & Hd0 & ?).
    destruct (Hmono _ _ Hd0) as (d3 & ? & ?).
    exists d3. split; [done|lia].
Qed.

Lemma inv_profundo_inicial : inv_profundo pb limite None [raiz pb] {[x0 pb := 0]}.
Proof.
  split_and!.
  - intros n ->%list_elem_of_singleton. split; [apply construido_raiz|].
    simpl. lia.
  - intros s d [<- <-]%lookup_singleton_Some. left. exists (raiz pb).
    split; [by left|done].
  - exists 0. by rewrite lookup_singleton_eq.
Qed.

Lemma en_el_limite_nat n :
  en_el_limite (Some (Z.of_nat limite)) n = bool_decide (limite = profundidad n).
Proof. unfold en_el_limite. apply bool_decide_ext. lia. Qed.

Lemma inv_profundo_paso n resto v :
  inv_profundo pb limite None (n :: resto) v → meta pb (estado n) = false →
  if en_el_limite (Some (Z.of_nat limite)) n then inv_profundo pb limite None resto v
  else inv_profundo pb limite None
         (hijos_profundo (expande n (modelo pb)) resto v).1
         (hijos_profundo (expande n (modelo pb)) resto v).2.
Proof.
  intros (Hf & Hvis & Hx0) Hmeta. rewrite en_el_limite_nat.
  destruct (Hf n ltac:(by left)) as [Hcn Hdn].
  case_bool_decide as Hlim.
  - split_and!; [|
      |done].
    + intros n' ?. apply Hf. by right.
    + intros s d Hs. destruct (Hvis s d Hs) as [(n' & Hin & ? & ?)|[?|?]];
        [|by right; left|done].
      apply elem_of_cons in Hin as [->|Hin]; [|left; by exists n'].
      right; left. split; [by subst|]. lia.
  - destruct (hijos_profundo_inv (expande n (modelo pb))
                (Some (estado n, profundidad n)) resto v)
      as (Hi & Hmono & Hdone).
    { intros hijo Hh. split; [by apply construido_hijo with n|].
      apply expande_elem in Hh as (a & _ & ->). simpl. lia. }
    { split_and!; [| |done].
      - intros n' ?. apply Hf. by right.
      - intros s d Hs.
        destruct (Hvis s d Hs) as [(n' & Hin & ? & ?)|[?|?]];
          [|by right; left|done].
        apply elem_of_cons in Hin as [->|Hin]; [|left; by exists n'].
        right; right. by subst. }
    destruct Hi as (Hf' & Hv' & Hx').
    split_and!; [done| |done].
    intros s d Hs. destruct (Hv' s d Hs) as [?|[?|[= <- <-]]];
      [by left|by right; left|].
    right; left. split; [done|]. intros _ a Ha.
    destruct (Hdone (Nodo_init (sucesor (modelo pb) (estado n) a) (Some a)
                       (Some n) (costo_local (modelo pb) (estado n) a)))
      as (d' & ? & ?).
    { apply expande_elem. by exists a. }
    by exists d'.
Qed.

(** While a goal lies within the bound the stack is not empty. *)
Lemma pila_no_vacia f v l t :
  inv_profundo pb limite None f v → camino (modelo pb) (x0 pb) l t →
  meta pb t = true → length l ≤ limite → ∃ n, n ∈ f.
Proof.
  intros (_ & Hvis & d0 & Hx0 & Hd0) Hl Ht Hlen.
  assert (∀ s l2, camino (modelo pb) s l2 t → ∀ i d,
            v !! s = Some d → d ≤ i → i + length l2 ≤ limite →
            ∃ n, n ∈ f) as Hgen.
  { clear Hl Hlen. induction 1 as [s|s a l2 t Ha Hl2 IH]; intros i d Hs Hd Hi.
    - destruct (Hvis s d Hs) as [(n & ? & _)|[[Hr _]|?]];
        [by exists n|congruence|done].
    - destruct (Hvis s d Hs) as [(n & ? & _)|[[_ Hr]|?]];
        [by exists n| |done].
      simpl in Hi. destruct (Hr ltac:(lia) a Ha) as (d' & Hd' & Hle).
      apply (IH Ht (S i) d' Hd'); lia. }
  apply (Hgen _ _ Hl 0 d0 Hx0); lia.
Qed.

Lemma busqueda_profundo_acotada fuel num r k :
  busqueda_profundo fuel pb (Some (Z.of_nat limite)) num = Some (Some r, k) →
  profundidad r ≤ limite.
Proof.
  intros Hrun.
  apply (bucle_profundo_regla pb (inv_profundo pb limite None)) in Hrun;
    [|apply inv_profundo_inicial|apply inv_profundo_paso].
  destruct Hrun as [(n & resto & v & k' & (Hf & _) & _ & Hres)
                   |(? & ? & _ & ?)]; [|done].
  simplify_eq. simpl. apply Hf. by left.
Qed.

Lemma busqueda_profundo_completa fuel num k l t :
  busqueda_profundo fuel pb (Some (Z.of_nat limite)) num = Some (None, k) →
  camino (modelo pb) (x0 pb) l t → meta pb t = true → limite < length l.
Proof.
  intros Hrun Hl Ht.
  apply (bucle_profundo_regla pb (inv_profundo pb limite None)) in Hrun;
    [|apply inv_profundo_inicial|apply inv_profundo_paso].
  destruct Hrun as [(? & ? & ? & ? & _ & _ & ?)|(v & k' & Hinv & _)];
    [done|].
  destruct (decide (limite < length l)) as [|Hn]; [done|].
  destruct (pila_no_vacia [] v l t Hinv Hl Ht) as (n & Hn'); [lia|].
  by apply elem_of_nil in Hn'.
Qed.

End Profundidad.

Section Iterativa.
Context {Estado : Type} `{Countable Estado} {Accion : Type}.
Context (pb : ProblemaBusqueda Estado Accion) (universo : list Estado).
Implicit Types (n r : Nodo Estado Accion) (num : nat).
Hypothesis finito : espacio_finito pb universo.
Local Open Scope nat_scope.

Lemma iterativa_bucle_minima d antes despues num :
  profundidad_minima pb d → (∀ p, p ∈ antes → p < d) →
  ∃ fuel r k,
    (∀ fuel', fuel ≤ fuel' →
       iterativa_bucle fuel' pb (antes ++ d :: despues) num
       = Some (Some r, k)) ∧
    profundidad r = d ∧ meta pb (estado r) = true.
Proof.
  intros [(l & t & Hl & Ht & Hlen) Hmin]. revert num.
  induction antes as [|p antes IH]; intros num Hantes; simpl.
  - destruct (bucle_profundo_termina pb universo finito (Some (Z.of_nat d))
                [raiz pb] {[x0 pb := 0]} num (raiz_universo pb universo finito))
      as (fuel & [[r|] k] & Hrun).
    + exists fuel, r, k.
      pose proof (busqueda_profundo_acotada pb d fuel num r k Hrun) as Hle.
      destruct (busqueda_profundo_construido pb fuel _ num r k Hrun)
        as [Hc Hm].
      destruct (construido_camino _ _ Hc) as (l' & Hl' & _ & Hlen').
      pose proof (Hmin l' (estado r) Hl' Hm).
      split_and!; [|lia|done].
      intros fuel' Hf. unfold busqueda_profundo.
      by rewrite (bucle_profundo_mono pb _ _ _ _ _ _ _ Hrun Hf).
    + pose proof (busqueda_profundo_completa pb d fuel num k l t Hrun Hl Ht).
      lia.
  - destruct (bucle_profundo_termina pb universo finito (Some (Z.of_nat p))
                [raiz pb] {[x0 pb := 0]} num (raiz_universo pb universo finito))
      as (fuel & [[r|] k] & Hrun).
    + pose proof (busqueda_profundo_acotada pb p fuel num r k Hrun) as Hle.
      destruct (busqueda_profundo_construido pb fuel _ num r k Hrun)
        as [Hc Hm].
      destruct (construido_camino _ _ Hc) as (l' & Hl' & _ & Hlen').
      pose proof (Hmin l' (estado r) Hl' Hm).
      pose proof (Hantes p ltac:(by left)). lia.
    + destruct (IH k) as (fuel2 & r & k2 & Hrun2 & Hd & Hm).
      { intros q ?. apply Hantes. by right. }
      exists (max fuel fuel2), r, k2. split_and!; [|done..].
      intros fuel' Hf. unfold busqueda_profundo.
      rewrite (bucle_profundo_mono pb _ fuel' _ _ _ _ _ Hrun) by lia.
      apply Hrun2. lia.
Qed.

Lemma iterativa_bucle_sin_alcanzar d profundidades num :
  profundidad_minima pb d → (∀ p, p ∈ profundidades → p < d) →
  ∃ fuel k, ∀ fuel', fuel ≤ fuel' →
    iterativa_bucle fuel' pb profundidades num = Some (None, k).
Proof.
  intros [_ Hmin]. revert num.
  induction profundidades as [|p resto IH]; intros num Hp; simpl.
  { by exists 0, num. }
  destruct (bucle_profundo_termina pb universo finito (Some (Z.of_nat p))
              [raiz pb] {[x0 pb := 0]} num (raiz_universo pb universo finito))
    as (fuel & [[r|] k] & Hrun).
  - pose proof (busqueda_profundo_acotada pb p fuel num r k Hrun) as Hle.
    destruct (busqueda_profundo_construido pb fuel _ num r k Hrun)
      as [Hc Hm].
    destruct (construido_camino _ _ Hc) as (l' & Hl' & _ & Hlen').
    pose proof (Hmin l' (estado r) Hl' Hm).
    pose proof (Hp p ltac:(by left)). lia.
  - destruct (IH k) as (fuel2 & k2 & Hrun2).
    { intros q ?. apply Hp. by right. }
    exists (max fuel fuel2), k2. intros fuel' Hf. unfold busqueda_profundo.
    rewrite (bucle_profundo_mono pb _ fuel' _ _ _ _ _ Hrun) by lia.
    apply Hrun2. lia.
Qed.

(** With the ceiling at the least depth of a goal, or below it, the
    iteration never tries that depth and returns [None]. *)
Lemma iterativa_en_el_techo d max_profundidad num :
  profundidad_minima pb d → (max_profundidad ≤ Z.of_nat d)%Z →
  ∃ fuel k, ∀ fuel', fuel ≤ fuel' →
    busqueda_profundidad_iterativa fuel' pb max_profundidad num
    = Some (None, k).
Proof.
  intros Hd Hle. apply (iterativa_bucle_sin_alcanzar d); [done|].
  intros p Hp%elem_of_seq. lia.
Qed.

(** Below the ceiling the iteration returns a goal node of least
    depth. *)
Lemma iterativa_minima d max_profundidad num :
  profundidad_minima pb d → (Z.of_nat d < max_profundidad)%Z →
  ∃ fuel r k,
    (∀ fuel', fuel ≤ fuel' →
       busqueda_profundidad_iterativa fuel' pb max_profundidad num
       = Some (Some r, k)) ∧
    profundidad r = d ∧ meta pb (estado r) = true.
Proof.
  intros Hd Hlt. unfold busqueda_profundidad_iterativa, range.
  replace (Z.to_nat max_profundidad)
    with (d + S (Z.to_nat max_profundidad - S d)) by lia.
  rewrite seq_app. simpl.
  apply iterativa_bucle_minima; [done|].
  intros p Hp%elem_of_seq. lia.
Qed.

End Iterativa.

(** * Breadth first finds a shallowest goal *)

Section Anchura.
Context {Estado : Type} `{Countable Estado} {Accion : Type}.
Context (pb : ProblemaBusqueda Estado Accion).
Implicit Types (n r : Nodo Estado Accion) (num : nat)
  (hijos f : list (Nodo Estado Accion)) (v : gset Estado).
Local Open Scope nat_scope.

Lemma capas_cabeza d n f : capas d (n :: f) → capas (profundidad n) (n :: f).
Proof.
  intros (A & B & Heq & HA & HB). destruct A as [|n' A]; simpl in *.
  - exists (n :: f), []. rewrite app_nil_r. split; [done|].
    split; [|by intros ? ?%elem_of_nil].
    intros n' Hn'. rewrite (HB n) by (rewrite <-Heq; by left).
    apply HB. by rewrite <-Heq.
  - injection Heq as <- ->. exists (n :: A), B. split; [done|].
    rewrite (HA n) by by left. done.
Qed.

Lemma capas_cola n f :
  capas (profundidad n) (n :: f) →
  capas (profundidad n) f ∧
  (∀ n', n' ∈ f → profundidad n ≤ profundidad n') ∧
  match f with [] => True | n1 :: _ => capas (profundidad n1) f end.
Proof.
  intros (A & B & Heq & HA & HB).
  assert (capas (profundidad n) f) as Hc.
  { destruct A as [|n' A]; simpl in *.
    - pose proof (HB n). rewrite <-Heq in *.
      assert (profundidad n = S (profundidad n)) by (apply HB; by left).
      lia.
    - injection Heq as <- ->. exists A, B. split; [done|].
      split; [|done]. intros ? ?. apply HA. by right. }
  split; [done|]. split.
  - destruct Hc as (A' & B' & -> & HA' & HB').
    intros n' [Hn'|Hn']%elem_of_app;
      [rewrite (HA' n' Hn')|rewrite (HB' n' Hn')]; lia.
  - destruct f as [|n1 f']; [done|]. by eapply capas_cabeza.
Qed.

Lemma capas_snoc d f hijo :
  capas d f → profundidad hijo = S d → capas d (f ++ [hijo]).
Proof.
  intros (A & B & -> & HA & HB) Hh. exists A, (B ++ [hijo]).
  rewrite (assoc_L (++)). split; [done|]. split; [done|].
  intros n [?|Hs]%elem_of_app; [auto|].
  by apply list_elem_of_singleton in Hs as ->.
Qed.

(** A path that leaves the visited set passes through the queue. *)
Lemma cruce f v l t :
  x0 pb ∈ v →
  (∀ s, s ∈ v → (∃ n, n ∈ f ∧ estado n = s) ∨ cerrado pb v s) →
  camino (modelo pb) (x0 pb) l t → t ∉ v →
  ∃ n l1 a l2, n ∈ f ∧ l = l1 ++ a :: l2 ∧
    camino (modelo pb) (x0 pb) l1 (estado n).
Proof.
  intros Hx0 Hvis Hl Ht.
  assert (∀ s l2, camino (modelo pb) s l2 t → ∀ l1,
            camino (modelo pb) (x0 pb) l1 s → s ∈ v →
            ∃ n l1' a l2', n ∈ f ∧ l1 ++ l2 = l1' ++ a :: l2' ∧
              camino (modelo pb) (x0 pb) l1' (estado n)) as Hgen.
  { clear Hl. induction 1 as [s|s a l2 t Ha Hl2 IH]; intros l1 Hl1 Hs;
      [done|].
    destruct (Hvis s Hs) as [(n & Hn & <-)|Hc].
    - by exists n, l1, a, l2.
    - destruct (IH Ht (l1 ++ [a])) as (n & l1' & a' & l2' & ? & Heq & ?);
        [by apply camino_snoc|by apply Hc|].
      exists n, l1', a', l2'. split; [done|]. split; [|done].
      by rewrite <-Heq, <-(assoc_L (++)). }
  destruct (Hgen _ _ Hl []) as (n & l1 & a & l2 & ?);
    [apply camino_nil|done|]. by exists n, l1, a, l2.
Qed.

Lemma bajo_la_cabeza n f v l t :
  inv_ancho pb (n :: f) v → camino (modelo pb) (x0 pb) l t → t ∉ v →
  S (profundidad n) ≤ length l.
Proof.
  intros (_ & Hcap & _ & Hvis & Hmin & Hx0) Hl Ht.
  destruct (cruce _ _ _ _ Hx0 Hvis Hl Ht) as (n' & l1 & a & l2 & Hn' & -> & Hl1).
  specialize (Hmin n' l1 Hn' Hl1).
  apply capas_cola in Hcap as (_ & Hle & _).
  rewrite length_app. simpl.
  apply elem_of_cons in Hn' as [->|Hn']; [lia|].
  specialize (Hle n' Hn'). lia.
Qed.

Lemma hijos_ancho_inv n hijos f v num :
  inv_ancho pb (n :: f) v →
  (∀ hijo, hijo ∈ hijos →
     construido pb hijo ∧ profundidad hijo = S (profundidad n)) →
  match hijos_ancho pb hijos f v num with
  | inl (r, _) =>
      meta pb (estado r) = true ∧ profundidad r = S (profundidad n) ∧
      ∀ l t, camino (modelo pb) (x0 pb) l t → meta pb t = true →
        S (profundidad n) ≤ length l
  | inr (f', v', _) =>
      inv_ancho pb (n :: f') v' ∧ v ⊆ v' ∧
      ∀ hijo, hijo ∈ hijos → estado hijo ∈ v'
  end.
Proof.
  revert f v num. induction hijos as [|hijo resto IH]; intros f v num Hinv Hh;
    simpl.
  { split_and!; [done..|]. by intros ? ?%elem_of_nil. }
  assert (∀ h, h ∈ resto →
            construido pb h ∧ profundidad h = S (profundidad n)) as Hh'
    by (intros h ?; apply Hh; by right).
  destruct (Hh hijo ltac:(by left)) as [Hc Hd].
  destruct (decide (estado hijo ∈ v)) as [Hv|Hv].
  { specialize (IH f v num Hinv Hh').
    destruct (hijos_ancho _ _ _ _ _) as [[r k]|[[f' v'] k']]; [done|].
    destruct IH as (Hinv' & Hsub & Hin). split_and!; [done..|].
    intros h [->|?]%elem_of_cons; [by apply Hsub|by apply Hin]. }
  destruct (meta pb (estado hijo)) eqn:Hm.
  { simpl. split_and!; [done..|].
    intros l t Hl Ht. eapply bajo_la_cabeza; [done..|].
    intros Htv. destruct Hinv as (_ & _ & Hng & _).
    by rewrite (Hng t Htv) in Ht. }
  assert (inv_ancho pb (n :: f ++ [hijo]) ({[estado hijo]} ∪ v)) as Hinv1.
  { pose proof (bajo_la_cabeza n f v) as Hbajo.
    destruct Hinv as (Hcons & Hcap & Hng & Hvis & Hmin & Hx0).
    split_and!.
    - rewrite app_comm_cons. apply Forall_app. split; [done|].
      by apply Forall_singleton.
    - rewrite app_comm_cons. by apply capas_snoc.
    - intros s [Hs|?]%elem_of_union; [|auto].
      by apply elem_of_singleton in Hs as ->.
    - intros s [Hs|Hs]%elem_of_union.
      + apply elem_of_singleton in Hs as ->. left. exists hijo. split; [|done]. rewrite app_comm_cons.
        apply elem_of_app. right. by left.
      + destruct (Hvis s Hs) as [(n' & Hn' & <-)|Hcer].
        * left. exists n'. split; [|done]. rewrite app_comm_cons.
          apply elem_of_app. by left.
        * right. intros a Ha. apply elem_of_union. right. by apply Hcer.
    - intros n' l. rewrite app_comm_cons, elem_of_app.
      intros [Hn'|Hs] Hl; [by eapply Hmin|].
      apply list_elem_of_singleton in Hs as ->. rewrite Hd. eapply Hbajo; [|done..].
      by split_and!.
    - apply elem_of_union. by right. }
  specialize (IH (f ++ [hijo]) ({[estado hijo]} ∪ v) (S num) Hinv1 Hh').
  destruct (hijos_ancho _ _ _ _ _) as [[r k]|[[f' v'] k']]; [done|].
  destruct IH as (Hinv' & Hsub & Hin). split_and!; [done| |].
  - intros s Hs. apply Hsub, elem_of_union. by right.
  - intros h [->|?]%elem_of_cons; [|by apply Hin].
    apply Hsub, elem_of_union. left. by apply elem_of_singleton.
Qed.

Lemma inv_ancho_inicial :
  meta pb (x0 pb) = false → inv_ancho pb [raiz pb] {[x0 pb]}.
Proof.
  intros Hm. split_and!.
  - apply Forall_singleton, construido_raiz.
  - exists [raiz pb], []. split; [done|].
    split; [|by intros ? ?%elem_of_nil].
    by intros n ->%list_elem_of_singleton.
  - by intros s ->%elem_of_singleton.
  - intros s ->%elem_of_singleton. left. exists (raiz pb).
    split; [by left|done].
  - intros n l ->%list_elem_of_singleton _. simpl. lia.
  - by apply elem_of_singleton.
Qed.

Lemma inv_ancho_paso n resto v k f' v' k' :
  inv_ancho pb (n :: resto) v →
  hijos_ancho pb (expande n (modelo pb)) resto v k = inr (f', v', k') →
  inv_ancho pb f' v'.
Proof.
  intros Hinv Hrun.
  pose proof (hijos_ancho_inv n (expande n (modelo pb)) resto v k Hinv)
    as Hh.
  rewrite Hrun in Hh. destruct Hh as (Hinv' & _ & Hin).
  { intros hijo Hh. split.
    - apply construido_hijo with n; [|done].
      destruct Hinv as (Hc & _). by apply Forall_cons in Hc as [? _].
    - by apply expande_elem in Hh as (a & _ & ->). }
  destruct Hinv' as (Hcons & Hcap & Hng & Hvis & Hmin & Hx0).
  split_and!; [|by apply capas_cola in Hcap as (_ & _ & ?)|done| |
               |done].
  - by apply Forall_cons in Hcons as [_ ?].
  - intros s Hs. destruct (Hvis s Hs) as [(n' & Hn' & <-)|?]; [|by right].
    apply elem_of_cons in Hn' as [->|Hn']; [|left; by exists n'].
    right. intros a Ha.
    apply (Hin (Nodo_init (sucesor (modelo pb) (estado n) a) (Some a)
                  (Some n) (costo_local (modelo pb) (estado n) a))).
    apply expande_elem. by exists a.
  - intros n' l Hn'. apply Hmin. by right.
Qed.

(** The goal test is made on the children as they are produced: an
    unvisited goal child ends the loop inside the expansion. *)
Lemma hijos_ancho_meta hijos f v num hijo :
  hijo ∈ hijos → estado hijo ∉ v → meta pb (estado hijo) = true →
  ∃ h k, hijos_ancho pb hijos f v num = inl (sella h k, k) ∧
    h ∈ hijos ∧ meta pb (estado h) = true.
Proof.
  revert f v num. induction hijos as [|h0 resto IH]; intros f v num Hin Hv Hm;
    [by apply elem_of_nil in Hin|]. simpl.
  destruct (decide (estado h0 ∈ v)) as [Hv0|Hv0].
  { apply elem_of_cons in Hin as [->|Hin]; [done|].
    destruct (IH f v num Hin Hv Hm) as (h & k & -> & ? & ?).
    exists h, k. split_and!; [done| |done]. by right. }
  destruct (meta pb (estado h0)) eqn:Hm0.
  { exists h0, (S num). split_and!; [done| |done]. by left. }
  apply elem_of_cons in Hin as [->|Hin]; [congruence|].
  destruct (IH (f ++ [h0]) ({[estado h0]} ∪ v) (S num) Hin) as
    (h & k & -> & ? & ?); [|done|].
  { intros [Heq%elem_of_singleton|?]%elem_of_union; [|done].
    congruence. }
  exists h, k. split_and!; [done| |done]. by right.
Qed.

End Anchura.

(** * Completeness of the depth-first and of the A* search *)

Section PilaCompleta.
Context {Estado : Type} `{Countable Estado} {Accion : Type}.
Context (pb : ProblemaBusqueda Estado Accion) (mp : option Z).
Implicit Types (n r : Nodo Estado Accion) (num : nat)
  (hijos f : list (Nodo Estado Accion)) (v : gmap Estado nat).
Local Open Scope nat_scope.

Lemma resuelto_cota_baja v e d s d1 :
  mejora (λ x y : nat, bool_decide (y < x)) v e d = true →
  resuelto_cota pb mp v s d1 → resuelto_cota pb mp (<[e:=d]> v) s d1.
Proof.
  intros Hm [Hmeta Hs]. split; [done|]. intros Hne a Ha.
  destruct (Hs Hne a Ha) as (d' & Hd' & Hle).
  destruct (mejora_profundidad_baja _ _ _ _ _ Hm Hd') as (d2 & ? & ?).
  exists d2. split; [done|lia].
Qed.

Lemma hijos_profundo_pila hijos pend f v :
  inv_pila pb mp pend f v →
  let r := hijos_profundo hijos f v in
  inv_pila pb mp pend r.1 r.2 ∧
  (∀ s d1, v !! s = Some d1 → ∃ d2, r.2 !! s = Some d2 ∧ d2 ≤ d1) ∧
  (∀ hijo, hijo ∈ hijos →
     ∃ d', r.2 !! estado hijo = Some d' ∧ d' ≤ profundidad hijo).
Proof.
  revert f v. induction hijos as [|hijo resto IH]; intros f v Hinv; simpl.
  { split_and!; [done| |by intros ? ?%elem_of_nil].
    intros s d1 ?. exists d1. split; [done|lia]. }
  destruct (mejora _ v (estado hijo) (profundidad hijo)) eqn:Hm.
  - destruct (IH (hijo :: f) (<[estado hijo:=profundidad hijo]> v))
      as (Hi & Hmono & Hdone).
    { destruct Hinv as (Hvis & d0 & Hx0 & Hd0). split.
      - intros s d. destruct (decide (estado hijo = s)) as [<-|Hne].
        + rewrite lookup_insert_eq. intros [= <-]. left. exists hijo.
          split; [by left|done].
        + rewrite lookup_insert_ne by done. intros Hs.
          destruct (Hvis s d Hs) as [(n & Hin & ?)|[Hr|Hp]].
          * left. exists n. split; [by right|done].
          * right; left. by apply resuelto_cota_baja.
          * by right; right.
      - destruct (mejora_profundidad_baja _ _ _ _ _ Hm Hx0) as (d2 & ? & ?).
        exists d2. split; [done|lia]. }
    split_and!; [done| |].
    + intros s d1 Hs.
      destruct (mejora_profundidad_baja _ _ _ _ _ Hm Hs) as (d2 & Hd2 & ?).
      destruct (Hmono s d2 Hd2) as (d3 & ? & ?).
      exists d3. split; [done|lia].
    + intros hijo' [->|Hin]%elem_of_cons; [|by apply Hdone].
      destruct (Hmono (estado hijo) (profundidad hijo)) as (d3 & ? & ?);
        [by rewrite lookup_insert_eq|].
      by exists d3.
  - destruct (IH f v Hinv) as (Hi & Hmono & Hdone).
    split_and!; [done..|].
    intros hijo' [->|Hin]%elem_of_cons; [|by apply Hdone].
    apply mejora_profundidad_false in Hm as (d0 & Hd0 & ?).
    destruct (Hmono _ _ Hd0) as (d3 & ? & ?).
    exists d3. split; [done|lia].
Qed.

Lemma inv_pila_inicial : inv_pila pb mp None [raiz pb] {[x0 pb := 0]}.
Proof.
  split.
  - intros s d [<- <-]%lookup_singleton_Some. left. exists (raiz pb).
    split; [by left|done].
  - exists 0. by rewrite lookup_singleton_eq.
Qed.

Lemma en_el_limite_true n :
  en_el_limite mp n = true → mp = Some (Z.of_nat (profundidad n)).
Proof.
  unfold en_el_limite. destruct mp as [m|]; [|done].
  by intros ->%bool_decide_eq_true.
Qed.

Lemma inv_pila_paso n resto v :
  inv_pila pb mp None (n :: resto) v → meta pb (estado n) = false →
  if en_el_limite mp n then inv_pila pb mp None resto v
  else inv_pila pb mp None
         (hijos_profundo (expande n (modelo pb)) resto v).1
         (hijos_profundo (expande n (modelo pb)) resto v).2.
Proof.
  intros (Hvis & Hx0) Hmeta.
  destruct (en_el_limite mp n) eqn:Hlim.
  - apply en_el_limite_true in Hlim. split; [|done].
    intros s d Hs. destruct (Hvis s d Hs) as [(n' & Hin & ? & ?)|[?|?]];
      [|by right; left|done].
    apply elem_of_cons in Hin as [->|Hin]; [|left; by exists n'].
    right; left. split; [by subst|]. intros Hne. by subst.
  - destruct (hijos_profundo_pila (expande n (modelo pb))
                (Some (estado n, profundidad n)) resto v)
      as (Hi & Hmono & Hdone).
    { split; [|done]. intros s d Hs.
      destruct (Hvis s d Hs) as [(n' & Hin & ? & ?)|[?|?]];
        [|by right; left|done].
      apply elem_of_cons in Hin as [->|Hin]; [|left; by exists n'].
      right; right. by subst. }
    destruct Hi as (Hv' & Hx'). split; [|done].
    intros s d Hs. destruct (Hv' s d Hs) as [?|[?|[= <- <-]]];
      [by left|by right; left|].
    right; left. split; [done|]. intros _ a Ha.
    destruct (Hdone (Nodo_init (sucesor (modelo pb) (estado n) a) (Some a)
                       (Some n) (costo_local (modelo pb) (estado n) a)))
      as (d' & ? & ?).
    { apply expande_elem. by exists a. }
    by exists d'.
Qed.

(** While a goal lies on a path that the bound does not cut, the
    stack is not empty. *)
Lemma pila_no_vacia_cota f v l t :
  inv_pila pb mp None f v → camino (modelo pb) (x0 pb) l t →
  meta pb t = true →
  (∀ d, d < length l → mp ≠ Some (Z.of_nat d)) → ∃ n, n ∈ f.
Proof.
  intros (Hvis & d0 & Hx0 & Hd0) Hl Ht Hlen.
  assert (∀ s l2, camino (modelo pb) s l2 t → ∀ i d,
            v !! s = Some d → d ≤ i →
            (∀ d', d' < i + length l2 → mp ≠ Some (Z.of_nat d')) →
            ∃ n, n ∈ f) as Hgen.
  { clear Hl Hlen. induction 1 as [s|s a l2 t Ha Hl2 IH]; intros i d Hs Hd Hi.
    - destruct (Hvis s d Hs) as [(n & ? & _)|[[Hr _]|?]];
        [by exists n|congruence|done].
    - destruct (Hvis s d Hs) as [(n & ? & _)|[[_ Hr]|?]];
        [by exists n| |done].
      simpl in Hi. destruct (Hr (Hi d ltac:(lia)) a Ha) as (d' & Hd' & Hle).
      apply (IH Ht (S i) d' Hd'); [lia|].
      intros d'' ?. apply Hi. lia. }
  apply (Hgen _ _ Hl 0 d0 Hx0); [lia|done].
Qed.

Lemma busqueda_profundo_no_None fuel num k l t :
  busqueda_profundo fuel pb mp num = Some (None, k) →
  camino (modelo pb) (x0 pb) l t → meta pb t = true →
  ¬ ∀ d, d < length l → mp ≠ Some (Z.of_nat d).
Proof.
  intros Hrun Hl Ht Hcota.
  apply (bucle_profundo_regla pb (inv_pila pb mp None)) in Hrun;
    [|apply inv_pila_inicial|apply inv_pila_paso].
  destruct Hrun as [(? & ? & ? & ? & _ & _ & ?)|(v & k' & Hinv & _)];
    [done|].
  destruct (pila_no_vacia_cota [] v l t Hinv Hl Ht Hcota) as (n & Hn).
  by apply elem_of_nil in Hn.
Qed.

End PilaCompleta.

Section FronteraCompleta.
Context {Estado : Type} `{Countable Estado} {Accion : Type}.
Context (pb : ProblemaBusqueda Estado Accion).
Context (heuristica : Nodo Estado Accion → Z).
Implicit Types (n r : Nodo Estado Accion) (num : nat)
  (hijos : list (Nodo Estado Accion))
  (f : list (Z * Nodo Estado Accion)) (v : gmap Estado Z).

Lemma hijos_A_estrella_visitados hijos pend f v :
  inv_visitados pb pend f v →
  let r := hijos_A_estrella heuristica hijos f v in
  inv_visitados pb pend r.1 r.2 ∧
  (∀ s c1, v !! s = Some c1 → ∃ c2, r.2 !! s = Some c2 ∧ c2 ≤ c1) ∧
  (∀ hijo, hijo ∈ hijos →
     ∃ c', r.2 !! estado hijo = Some c' ∧ c' ≤ costo hijo).
Proof.
  revert f v. induction hijos as [|hijo resto IH]; intros f v Hinv; simpl.
  { split_and!; [done| |by intros ? ?%elem_of_nil].
    intros s c1 ?. exists c1. split; [done|lia]. }
  destruct (mejora mayor_costo v (estado hijo) (costo hijo)) eqn:Hm.
  - destruct (IH (heappush entrada_lt f
                    (costo hijo + heuristica hijo, hijo))
                 (<[estado hijo:=costo hijo]> v)) as (Hi & Hmono & Hdone).
    { destruct Hinv as (Hvis & c0 & Hx0 & Hc0). split.
      - intros s c. destruct (decide (estado hijo = s)) as [<-|Hne].
        + rewrite lookup_insert_eq. intros [= <-]. left.
          exists (costo hijo + heuristica hijo), hijo.
          rewrite heappush_perm. split; [by left|done].
        + rewrite lookup_insert_ne by done. intros Hs.
          destruct (Hvis s c Hs) as [(p & n & Hin & ?)|[Hr|Hp]].
          * left. exists p, n. rewrite heappush_perm.
            split; [by right|done].
          * right; left. by apply resuelto_baja.
          * by right; right.
      - destruct (mejora_baja _ _ _ _ _ Hm Hx0) as (c2 & ? & ?).
        exists c2. split; [done|lia]. }
    split_and!; [done| |].
    + intros s c1 Hs.
      destruct (mejora_baja _ _ _ _ _ Hm Hs) as (c2 & Hc2 & ?).
      destruct (Hmono s c2 Hc2) as (c3 & ? & ?).
      exists c3. split; [done|lia].
    + intros hijo' [->|Hin]%elem_of_cons; [|by apply Hdone].
      destruct (Hmono (estado hijo) (costo hijo)) as (c3 & ? & ?);
        [by rewrite lookup_insert_eq|].
      by exists c3.
  - destruct (IH f v Hinv) as (Hi & Hmono & Hdone).
    split_and!; [done..|].
    intros hijo' [->|Hin]%elem_of_cons; [|by apply Hdone].
    apply mejora_costo_false in Hm as (c0 & Hc0 & ?).
    destruct (Hmono _ _ Hc0) as (c3 & ? & ?).
    exists c3. split; [done|lia].
Qed.

Lemma inv_visitados_inicial :
  inv_visitados pb None (heappush entrada_lt [] (0, raiz pb)) {[x0 pb := 0]}.
Proof.
  split.
  - intros s c [<- <-]%lookup_singleton_Some. left.
    exists 0, (raiz pb). rewrite heappush_perm. split; [by left|done].
  - exists 0. by rewrite lookup_singleton_eq.
Qed.

Lemma inv_visitados_paso f v p n f1 :
  inv_visitados pb None f v → heappop entrada_lt f = Some ((p, n), f1) →
  meta pb (estado n) = false →
  inv_visitados pb None
    (hijos_A_estrella heuristica (expande n (modelo pb)) f1 v).1
    (hijos_A_estrella heuristica (expande n (modelo pb)) f1 v).2.
Proof.
  intros (Hvis & Hx0) Hpop Hmeta.
  apply heappop_perm in Hpop as Hperm; [|apply entrada_lt_asim].
  destruct (hijos_A_estrella_visitados (expande n (modelo pb))
              (Some (estado n, costo n)) f1 v) as (Hi & Hmono & Hdone).
  { split; [|done]. intros s c Hs.
    destruct (Hvis s c Hs) as [(p' & n' & Hin & ? & ?)|[Hr|?]];
      [|by right; left|done].
    rewrite Hperm in Hin. apply elem_of_cons in Hin as [[= -> ->]|Hin].
    - right; right. by subst.
    - left. by exists p', n'. }
  destruct Hi as (Hv' & Hx'). split; [|done].
  intros s c Hs. destruct (Hv' s c Hs) as [?|[?|[= <- <-]]];
    [by left|by right; left|].
  right; left. split; [done|]. intros a Ha.
  destruct (Hdone (Nodo_init (sucesor (modelo pb) (estado n) a) (Some a)
                     (Some n) (costo_local (modelo pb) (estado n) a)))
    as (c' & ? & ?).
  { apply expande_elem. by exists a. }
  by exists c'.
Qed.

(** While a goal can be reached the frontier is not empty. *)
Lemma frontera_no_vacia f v l t :
  inv_visitados pb None f v → camino (modelo pb) (x0 pb) l t →
  meta pb t = true → ∃ e, e ∈ f.
Proof.
  intros (Hvis & c0 & Hx0 & _) Hl Ht.
  assert (∀ s l2, camino (modelo pb) s l2 t → ∀ c, v !! s = Some c →
            ∃ e, e ∈ f) as Hgen.
  { clear Hl. induction 1 as [s|s a l2 t Ha Hl2 IH]; intros c Hs.
    - destruct (Hvis s c Hs) as [(p & n & ? & _)|[[Hr _]|?]];
        [by exists (p, n)|congruence|done].
    - destruct (Hvis s c Hs) as [(p & n & ? & _)|[[_ Hr]|?]];
        [by exists (p, n)| |done].
      destruct (Hr a Ha) as (c' & Hc' & _). by apply (IH Ht c'). }
  by apply (Hgen _ _ Hl c0).
Qed.

Lemma busqueda_A_estrella_no_None fuel num k l t :
  busqueda_A_estrella fuel pb heuristica num = Some (None, k) →
  camino (modelo pb) (x0 pb) l t → meta pb t = false.
Proof.
  intros Hrun Hl. destruct (meta pb t) eqn:Ht; [|done].
  apply (bucle_A_estrella_regla pb (inv_visitados pb None)) in Hrun;
    [|apply inv_visitados_inicial|apply inv_visitados_paso].
  destruct Hrun as [(? & ? & ? & ? & ? & ? & _ & _ & _ & ?)
                   |(v & k' & Hinv & _)]; [done|].
  destruct (frontera_no_vacia [] v l t Hinv Hl Ht) as (e & He).
  by apply elem_of_nil in He.
Qed.

End FronteraCompleta.

(** * The properties of the specification *)

Section Teoremas.
Context {Estado : Type} `{Countable Estado} {Accion : Type}.
Implicit Types (pb : ProblemaBusqueda Estado Accion)
  (n r : Nodo Estado Accion) (num : nat)
  (hijos : list (Nodo Estado Accion))
  (heuristica : Nodo Estado Accion → Z).

(** C1. With non-negative step costs, the cost of a node returned by
    [busqueda_costo_uniforme] is the least cost of a path from the
    initial state to a goal state; so is the cost of a node returned
    by [busqueda_A_estrella] when the heuristic (a function into the
    non-negative numbers, as its contract says) never overestimates
    the remaining cost. *)
Theorem costo_uniforme_y_A_estrella_optimas pb :
  costos_no_negativos (modelo pb) →
  (∀ fuel num r num',
     busqueda_costo_uniforme fuel pb num = Some (Some r, num') →
     es_costo_minimo pb (costo r)) ∧
  (∀ heuristica, no_negativa pb heuristica → admisible pb heuristica →
     ∀ fuel num r num',
       busqueda_A_estrella fuel pb heuristica num = Some (Some r, num') →
       es_costo_minimo pb (costo r)).
Proof.
  intros Hcost.
  assert (∀ heuristica, no_negativa pb heuristica →
            admisible pb heuristica → ∀ fuel num r num',
            busqueda_A_estrella fuel pb heuristica num
            = Some (Some r, num') → es_costo_minimo pb (costo r)) as HA.
  { intros h Hnn Hadm fuel num r num' Hrun. split.
    - apply busqueda_A_estrella_construido in Hrun as Hr.
      destruct Hr as [Hc Hm].
      destruct (construido_camino _ _ Hc) as (l & Hl & Hcl & _).
      by exists l, (estado r).
    - intros l t Hl Ht. by eapply A_estrella_cota. }
  split; [|done].
  intros fuel num r num'. rewrite costo_uniforme_A_estrella.
  apply HA; [done|].
  intros n l t _ Hl _. by eapply costo_camino_no_neg.
Qed.

(** C4. The plan of a node returned by any of the five strategies is
    the list [[s0; a1; s1; ...; aT; sT]] that [genera_plan] builds
    recursively; it starts at the initial state, each state is the
    successor of the previous one by the action between them, and the
    last state, the node's own, is a goal. *)
Theorem plan_de_la_solucion pb fuel num r num' :
  (busqueda_ancho fuel pb num = Some (Some r, num') ∨
   (∃ mp, busqueda_profundo fuel pb mp num = Some (Some r, num')) ∨
   (∃ mp, busqueda_profundidad_iterativa fuel pb mp num
          = Some (Some r, num')) ∨
   busqueda_costo_uniforme fuel pb num = Some (Some r, num') ∨
   (∃ heuristica,
      busqueda_A_estrella fuel pb heuristica num = Some (Some r, num'))) →
  plan_valido pb (genera_plan r) ∧
  last (genera_plan r) = Some (PEstado (estado r)) ∧
  (∀ n, padre n = None → genera_plan n = [PEstado (estado n)]) ∧
  (∀ n q, padre n = Some q →
     genera_plan n
     = genera_plan q ++ [PAccion (accion n); PEstado (estado n)]).
Proof.
  intros Hrun.
  assert (construido pb r ∧ meta pb (estado r) = true) as [Hc Hm].
  { destruct Hrun as [?|[[mp ?]|[[mp ?]|[?|[h ?]]]]];
      eauto using busqueda_ancho_construido,
        busqueda_profundo_construido, iterativa_bucle_construido,
        busqueda_costo_uniforme_construido,
        busqueda_A_estrella_construido. }
  destruct (construido_plan _ _ Hc) as (resto & Hp & Hr & Hl & _).
  split_and!; [|done| |].
  - by exists resto, (estado r).
  - by intros [] [= ->].
  - by intros [] q [= ->].
Qed.


Lemma hijos_A_estrella_difiere heuristica hijos
    (fa fu : list (Z * Nodo Estado Accion)) (v : gmap Estado Z) :
  (hijos_A_estrella heuristica hijos fa v).2
  = (hijos_costo_uniforme hijos fu v).2 ∧
  ∃ nuevos,
    (hijos_A_estrella heuristica hijos fa v).1
    ≡ₚ ((λ n, (costo n + heuristica n, n)) <$> nuevos) ++ fa ∧
    (hijos_costo_uniforme hijos fu v).1
    ≡ₚ ((λ n, (costo n, n)) <$> nuevos) ++ fu.
Proof.
  revert fa fu v. induction hijos as [|hijo resto IH]; intros fa fu v;
    simpl.
  { split; [done|]. by exists []. }
  destruct (mejora _ _ _ _); [|apply IH].
  destruct (IH (heappush entrada_lt fa (costo hijo + heuristica hijo, hijo))
              (heappush entrada_lt fu (costo hijo, hijo))
              (<[estado hijo:=costo hijo]> v)) as (Hv & nuevos & Ha & Hu).
  split; [done|]. exists (nuevos ++ [hijo]).
  rewrite Ha, Hu, !heappush_perm, !fmap_app, <-!(assoc_L (++)). done.
Qed.

(** C9. [busqueda_A_estrella] with the heuristic that is 0 everywhere
    is [busqueda_costo_uniforme]: the two return [None] together, and
    otherwise a goal node of the same cost.  For any heuristic, one
    pass over the children records the same costs in [visitados] and
    pushes the same nodes, under priority [costo + heuristica]
    instead of [costo]. *)
Theorem A_estrella_heuristica_cero pb fuel num :
  busqueda_A_estrella fuel pb (λ _, 0) num
  = busqueda_costo_uniforme fuel pb num ∧
  (∀ k, busqueda_A_estrella fuel pb (λ _, 0) num = Some (None, k) ↔
        busqueda_costo_uniforme fuel pb num = Some (None, k)) ∧
  (∀ r k, busqueda_A_estrella fuel pb (λ _, 0) num = Some (Some r, k) →
     meta pb (estado r) = true ∧
     ∃ r', busqueda_costo_uniforme fuel pb num = Some (Some r', k) ∧
           costo r' = costo r) ∧
  (∀ heuristica hijos fa fu (v : gmap Estado Z),
     (hijos_A_estrella heuristica hijos fa v).2
     = (hijos_costo_uniforme hijos fu v).2 ∧
     ∃ nuevos,
       (hijos_A_estrella heuristica hijos fa v).1
       ≡ₚ ((λ n, (costo n + heuristica n, n)) <$> nuevos) ++ fa ∧
       (hijos_costo_uniforme hijos fu v).1
       ≡ₚ ((λ n, (costo n, n)) <$> nuevos) ++ fu).
Proof.
  rewrite <-costo_uniforme_A_estrella. split_and!; [done..| |].
  - intros r k Hrun. split; [|by exists r].
    by apply busqueda_costo_uniforme_construido in Hrun as [_ ?].
  - apply hijos_A_estrella_difiere.
Qed.

Lemma hijos_A_estrella_heap heuristica hijos
    (f : list (Z * Nodo Estado Accion)) (v : gmap Estado Z) :
  heap_ok entrada_lt f →
  heap_ok entrada_lt (hijos_A_estrella heuristica hijos f v).1.
Proof.
  revert f v. induction hijos as [|hijo resto IH]; intros f v Hf; simpl;
    [done|].
  destruct (mejora _ _ _ _); apply IH; [|done].
  apply heappush_ok;
    [apply entrada_lt_asim|apply entrada_lt_negtrans|done].
Qed.

Lemma en_bucle_A_estrella_heap pb heuristica f v :
  en_bucle_A_estrella pb heuristica f v → heap_ok entrada_lt f.
Proof.
  induction 1 as [|f v p n f1 _ IH Hpop _].
  - apply heappush_ok;
      [apply entrada_lt_asim|apply entrada_lt_negtrans|apply heap_ok_nil].
  - apply hijos_A_estrella_heap.
    by apply heappop_spec in Hpop as (? & _);
      [|apply entrada_lt_asim|apply entrada_lt_negtrans|].
Qed.

Lemma en_bucle_costo_uniforme_A_estrella pb f v :
  en_bucle_costo_uniforme pb f v → en_bucle_A_estrella pb (λ _, 0) f v.
Proof.
  induction 1 as [|f v p n f1 _ IH Hpop Hm]; [constructor|].
  rewrite hijos_costo_uniforme_A_estrella. by econstructor.
Qed.

Lemma busqueda_A_estrella_en_bucle pb heuristica fuel num res :
  busqueda_A_estrella fuel pb heuristica num = Some res →
  ∃ f v, en_bucle_A_estrella pb heuristica f v ∧
    match res.1 with
    | Some r =>
        ∃ p n f1, heappop entrada_lt f = Some ((p, n), f1) ∧
          r = sella n res.2
    | None => f = []
    end.
Proof.
  intros Hrun.
  apply (bucle_A_estrella_regla pb (en_bucle_A_estrella pb heuristica))
    in Hrun; [|apply en_bucle_A_inicio|apply en_bucle_A_vuelta].
  destruct Hrun as [(f & v & p & n & f1 & k & Hf & Hpop & _ & ->)
                   |(v & k & Hf & ->)].
  - exists f, v. split; [done|]. by exists p, n, f1.
  - by exists [], v.
Qed.

Lemma busqueda_costo_uniforme_en_bucle pb fuel num res :
  busqueda_costo_uniforme fuel pb num = Some res →
  ∃ f v, en_bucle_costo_uniforme pb f v ∧
    match res.1 with
    | Some r =>
        ∃ p n f1, heappop entrada_lt f = Some ((p, n), f1) ∧
          r = sella n res.2
    | None => f = []
    end.
Proof.
  rewrite costo_uniforme_A_estrella. intros Hrun.
  apply (bucle_A_estrella_regla pb (en_bucle_costo_uniforme pb)) in Hrun;
    [|apply en_bucle_CU_inicio|].
  - destruct Hrun as [(f & v & p & n & f1 & k & Hf & Hpop & _ & ->)
                     |(v & k & Hf & ->)].
    + exists f, v. split; [done|]. by exists p, n, f1.
    + by exists [], v.
  - intros f v p n f1 Hf Hpop Hm.
    rewrite <-hijos_costo_uniforme_A_estrella.
    by eapply en_bucle_CU_vuelta.
Qed.

(** C8. Whenever [busqueda_costo_uniforme] or [busqueda_A_estrella]
    pops an entry from its frontier, no entry that stays has a
    smaller priority, and none of those with the same priority has a
    node of smaller depth: ties are broken by depth, whatever the
    order of insertion.  The frontiers meant are those at the head of
    the [while] loop of a run, and a node that a run returns is the
    one its last pop took. *)
Theorem pop_minimo_por_prioridad_y_profundidad pb heuristica :
  (∀ f v p n f1,
     en_bucle_costo_uniforme pb f v ∨ en_bucle_A_estrella pb heuristica f v →
     heappop entrada_lt f = Some ((p, n), f1) →
     f ≡ₚ (p, n) :: f1 ∧
     ∀ p' n', (p', n') ∈ f1 →
       p ≤ p' ∧ (p' = p → (profundidad n ≤ profundidad n')%nat)) ∧
  (∀ fuel num res,
     busqueda_costo_uniforme fuel pb num = Some res ∨
     busqueda_A_estrella fuel pb heuristica num = Some res →
     ∃ f v,
       (en_bucle_costo_uniforme pb f v ∨
        en_bucle_A_estrella pb heuristica f v) ∧
       match res.1 with
       | Some r =>
           ∃ p n f1, heappop entrada_lt f = Some ((p, n), f1) ∧
             r = sella n res.2
       | None => f = []
       end).
Proof.
  split.
  - intros f v p n f1 Hf Hpop.
    assert (heap_ok entrada_lt f) as Hheap.
    { destruct Hf as [Hf%en_bucle_costo_uniforme_A_estrella|Hf];
        by eapply en_bucle_A_estrella_heap. }
    apply heappop_spec in Hpop as (_ & Hperm & _ & Hmin);
      [|apply entrada_lt_asim|apply entrada_lt_negtrans|done].
    split; [done|]. intros p' n' Hin.
    apply Hmin, entrada_lt_false in Hin. simpl in Hin. lia.
  - intros fuel num res [Hrun|Hrun].
    + apply busqueda_costo_uniforme_en_bucle in Hrun as (f & v & ? & ?).
      exists f, v. split; [by left|done].
    + apply busqueda_A_estrella_en_bucle in Hrun as (f & v & ? & ?).
      exists f, v. split; [by right|done].
Qed.

Lemma hijos_A_estrella_exc_total (hp : Nodo Estado Accion → option Z)
    heuristica hijos (f : list (Z * Nodo Estado Accion))
    (v : gmap Estado Z) :
  (∀ n, n ∈ hijos → hp n = Some (heuristica n)) →
  hijos_A_estrella_exc hp hijos f v
  = Some (hijos_A_estrella heuristica hijos f v).
Proof.
  revert f v. induction hijos as [|hijo resto IH]; intros f v Hh; simpl;
    [done|].
  rewrite (Hh hijo) by by left.
  destruct (mejora _ _ _ _); apply IH; intros n Hn; apply Hh; by right.
Qed.

Lemma expande_padre n pb hijo :
  hijo ∈ expande n (modelo pb) → padre hijo = Some n.
Proof. by intros (a & _ & ->)%expande_elem. Qed.

(** C10. [busqueda_A_estrella] calls the heuristic on nodes produced
    by an expansion only.  The root enters the frontier with priority
    0 and the heuristic is not asked about it: a heuristic that is
    defined on every node that [expande] produces from a node of the
    search, whatever it does elsewhere (it may raise at the root, or
    at the initial state), never makes the search raise, and the
    search returns what it returns with any total extension of it. *)
Theorem heuristica_solo_en_hijos pb (hp : Nodo Estado Accion → option Z)
    heuristica fuel num :
  (∀ q hijo, construido pb q → hijo ∈ expande q (modelo pb) →
     hp hijo = Some (heuristica hijo)) →
  busqueda_A_estrella_exc fuel pb hp num
  = (λ res, Devuelve res.1 res.2)
    <$> busqueda_A_estrella fuel pb heuristica num ∧
  busqueda_A_estrella_exc fuel pb hp num ≠ Some Lanza ∧
  heappop entrada_lt (heappush entrada_lt [] (0, raiz pb))
  = Some ((0, raiz pb), []).
Proof.
  intros Hhp.
  assert (∀ fuel num (v : gmap Estado Z) f,
            Forall (λ e : Z * Nodo Estado Accion, construido pb e.2) f →
            bucle_A_estrella_exc fuel pb hp f v num
            = (λ res, Devuelve res.1 res.2)
              <$> bucle_A_estrella fuel pb heuristica f v num) as Hbucle.
  { clear fuel num.
    induction fuel as [|fuel IH]; intros num v f Hf; simpl; [done|].
    destruct (heappop entrada_lt f) as [[[p n] f1]|] eqn:Hpop; [|done].
    apply heappop_perm in Hpop as Hperm; [|apply entrada_lt_asim].
    rewrite Hperm in Hf. apply Forall_cons in Hf as [Hn Hf1].
    simpl in Hn.
    destruct (meta pb (estado n)); [done|].
    rewrite (hijos_A_estrella_exc_total hp heuristica).
    - pose proof (hijos_A_estrella_construido pb heuristica
                    (expande n (modelo pb)) f1 v
                    (expande_construido pb n Hn) Hf1) as Hc.
      destruct (hijos_A_estrella _ _ _ _) as [f' v']. by apply IH.
    - intros hijo Hh. by apply Hhp with n. }
  assert (busqueda_A_estrella_exc fuel pb hp num
          = (λ res, Devuelve res.1 res.2)
            <$> busqueda_A_estrella fuel pb heuristica num) as Heq.
  { apply Hbucle. rewrite heappush_perm.
    apply Forall_cons. split; [apply construido_raiz|done]. }
  split_and!; [done| |done].
  rewrite Heq. by destruct (busqueda_A_estrella _ _ _ _).
Qed.

Lemma bucle_profundo_negativo pb fuel mp frontera visitados num :
  mp < 0 →
  bucle_profundo fuel pb (Some mp) frontera visitados num
  = bucle_profundo fuel pb None frontera visitados num.
Proof.
  intros Hmp. revert frontera visitados num.
  induction fuel as [|fuel IH]; intros frontera visitados num; simpl;
    [done|].
  destruct frontera as [|n resto]; [done|].
  destruct (meta pb (estado n)); [done|].
  rewrite bool_decide_eq_false_2 by lia.
  destruct (hijos_profundo _ _ _). apply IH.
Qed.

(** C7, as the code has it.  A negative [max_profundidad] is not
    rejected: [busqueda_profundo] searches exactly as it does without
    a bound, and [busqueda_profundidad_iterativa] returns [None] at
    once, with no goal test made. *)
Theorem max_profundidad_negativa pb fuel mp num :
  mp < 0 →
  busqueda_profundo fuel pb (Some mp) num
  = busqueda_profundo fuel pb None num ∧
  busqueda_profundidad_iterativa fuel pb mp num = Some (None, num).
Proof.
  intros Hmp. split; [by apply bucle_profundo_negativo|].
  unfold busqueda_profundidad_iterativa, range.
  by replace (Z.to_nat mp) with O by lia.
Qed.

Lemma sin_meta_construido pb r :
  sin_meta_alcanzable pb → construido pb r → meta pb (estado r) = false.
Proof.
  intros Hsin Hc. destruct (construido_camino _ _ Hc) as (l & Hl & _).
  apply Hsin. by exists l.
Qed.

(** C6. On a finite state space where no goal state can be reached
    from the initial state, each of the five strategies stops and
    returns [None] (given enough fuel the result is [Some (None, _)],
    and more fuel never changes it); for [busqueda_costo_uniforme] and
    [busqueda_A_estrella] the step costs are taken non-negative.  The
    depth-first search is the one of the source, which pushes a state
    again whenever it is reached at a smaller depth. *)
Theorem sin_solucion_termina pb universo num :
  espacio_finito pb universo → sin_meta_alcanzable pb →
  (∃ fuel k, ∀ fuel', (fuel ≤ fuel')%nat →
     busqueda_ancho fuel' pb num = Some (None, k)) ∧
  (∀ mp, ∃ fuel k, ∀ fuel', (fuel ≤ fuel')%nat →
     busqueda_profundo fuel' pb mp num = Some (None, k)) ∧
  (∀ mp, ∃ fuel k, ∀ fuel', (fuel ≤ fuel')%nat →
     busqueda_profundidad_iterativa fuel' pb mp num = Some (None, k)) ∧
  (costos_no_negativos (modelo pb) →
   (∃ fuel k, ∀ fuel', (fuel ≤ fuel')%nat →
      busqueda_costo_uniforme fuel' pb num = Some (None, k)) ∧
   (∀ heuristica, ∃ fuel k, ∀ fuel', (fuel ≤ fuel')%nat →
      busqueda_A_estrella fuel' pb heuristica num = Some (None, k))).
Proof.
  intros Hfin Hsin.
  assert (∀ heuristica, costos_no_negativos (modelo pb) →
            ∃ fuel k, ∀ fuel', (fuel ≤ fuel')%nat →
              busqueda_A_estrella fuel' pb heuristica num = Some (None, k))
    as HA.
  { intros h Hcost.
    destruct (busqueda_A_estrella_termina pb universo Hfin Hcost h num)
      as (fuel & [[r|] k] & Hrun).
    - apply busqueda_A_estrella_construido in Hrun as [Hc Hm].
      by rewrite (sin_meta_construido _ _ Hsin Hc) in Hm.
    - exists fuel, k. intros fuel' Hle.
      by apply (bucle_A_estrella_mono pb fuel). }
  split_and!.
  - assert (meta pb (x0 pb) = false) as Hx0
      by exact (sin_meta_construido _ _ Hsin (construido_raiz pb)).
    unfold busqueda_ancho. simpl. rewrite Hx0.
    destruct (bucle_ancho_termina pb universo Hfin [raiz pb] {[x0 pb]}
                (S num) (raiz_universo pb universo Hfin))
      as (fuel & [[r|] k] & Hrun).
    + assert (busqueda_ancho fuel pb num = Some (Some r, k)) as Hb.
      { unfold busqueda_ancho. simpl. by rewrite Hx0. }
      apply busqueda_ancho_construido in Hb as [Hc Hm].
      by rewrite (sin_meta_construido _ _ Hsin Hc) in Hm.
    + exists fuel, k. intros fuel' Hle. by apply (bucle_ancho_mono pb fuel).
  - intros mp.
    destruct (bucle_profundo_termina pb universo Hfin mp [raiz pb]
                {[x0 pb := O]} num (raiz_universo pb universo Hfin))
      as (fuel & [[r|] k] & Hrun).
    + apply busqueda_profundo_construido in Hrun as [Hc Hm].
      by rewrite (sin_meta_construido _ _ Hsin Hc) in Hm.
    + exists fuel, k. intros fuel' Hle.
      by apply (bucle_profundo_mono pb fuel).
  - intros mp.
    destruct (iterativa_bucle_termina pb universo Hfin (range mp) num)
      as (fuel & [[r|] k] & Hrun).
    + apply iterativa_bucle_construido in Hrun as [Hc Hm].
      by rewrite (sin_meta_construido _ _ Hsin Hc) in Hm.
    + exists fuel, k. intros fuel' Hle.
      by apply (iterativa_bucle_mono pb fuel).
  - intros Hcost. split; [|intros h; by apply HA].
    destruct (HA (λ _, 0) Hcost) as (fuel & k & Hrun).
    exists fuel, k. intros fuel' Hle.
    rewrite costo_uniforme_A_estrella. by apply Hrun.
Qed.

(** C3. On a finite graph with a goal state reachable from the initial
    state, [busqueda_ancho] returns a node whose state is a goal and
    whose depth is the least number of actions leading to a goal.  The
    goal test falls on the children while a node is expanded (the loop
    returns a goal child in the very iteration that produces it, and a
    node taken from the queue is never tested itself), and a goal
    initial state gives the root, of depth 0, at once. *)
Theorem ancho_profundidad_minima pb universo num :
  espacio_finito pb universo →
  (∃ l t, camino (modelo pb) (x0 pb) l t ∧ meta pb t = true) →
  (∃ fuel r k,
     (∀ fuel', (fuel ≤ fuel')%nat →
        busqueda_ancho fuel' pb num = Some (Some r, k)) ∧
     meta pb (estado r) = true ∧
     (∃ l, camino (modelo pb) (x0 pb) l (estado r) ∧
           length l = profundidad r) ∧
     (∀ l t, camino (modelo pb) (x0 pb) l t → meta pb t = true →
        (profundidad r ≤ length l)%nat)) ∧
  (∀ fuel n resto (v : gset Estado) k hijo,
     hijo ∈ expande n (modelo pb) → estado hijo ∉ v →
     meta pb (estado hijo) = true →
     ∃ r k', bucle_ancho (S fuel) pb (n :: resto) v k = Some (Some r, k') ∧
       padre r = Some n ∧ meta pb (estado r) = true) ∧
  (∀ fuel n (v : gset Estado) k,
     expande n (modelo pb) = [] →
     bucle_ancho (S (S fuel)) pb [n] v k = Some (None, k)) ∧
  (meta pb (x0 pb) = true →
   ∀ fuel, busqueda_ancho fuel pb num = Some (Some (raiz pb), S num) ∧
           profundidad (raiz pb) = O).
Proof.
  intros Hfin (l0 & t0 & Hl0 & Ht0). split_and!.
  - destruct (meta pb (x0 pb)) eqn:Hx0.
    { exists O, (raiz pb), (S num). split_and!.
      - intros fuel' _. unfold busqueda_ancho. simpl. by rewrite Hx0.
      - done.
      - exists []. split; [apply camino_nil|done].
      - intros l t _ _. simpl. lia. }
    destruct (bucle_ancho_termina pb universo Hfin [raiz pb] {[x0 pb]}
                (S num) (raiz_universo pb universo Hfin))
      as (fuel & res & Hrun).
    assert (∀ fuel', (fuel ≤ fuel')%nat →
              busqueda_ancho fuel' pb num = Some res) as Hb.
    { intros fuel' Hle. unfold busqueda_ancho. simpl. rewrite Hx0.
      by apply (bucle_ancho_mono pb fuel). }
    apply (bucle_ancho_regla pb (inv_ancho pb)) in Hrun;
      [|by apply inv_ancho_inicial|apply inv_ancho_paso].
    destruct Hrun as [(n & resto & v & k & r & k' & Hinv & Hh & ->)
                     |(v & k & Hinv & ->)].
    + exists fuel, r, k'. split; [done|].
      destruct (busqueda_ancho_construido pb fuel num r k')
        as [Hc Hm]; [by apply Hb|].
      pose proof (hijos_ancho_inv pb n (expande n (modelo pb)) resto v k
                    Hinv) as Hi.
      rewrite Hh in Hi. destruct Hi as (_ & Hd & Hmin).
      { intros hijo Hhijo. split.
        - apply construido_hijo with n; [|done].
          destruct Hinv as (Hcn & _). by apply Forall_cons in Hcn as [? _].
        - by apply expande_elem in Hhijo as (a & _ & ->). }
      split_and!; [done| |].
      * destruct (construido_camino _ _ Hc) as (l & Hl & _ & Hlen).
        by exists l.
      * intros l t Hl Ht. rewrite Hd. by eapply Hmin.
    + destruct Hinv as (_ & _ & Hng & Hvis & _ & Hx0v).
      destruct (cruce pb [] v l0 t0 Hx0v Hvis Hl0)
        as (n & _ & _ & _ & Hn & _); [|by apply elem_of_nil in Hn].
      intros Htv. by rewrite (Hng t0 Htv) in Ht0.
  - intros fuel n resto v k hijo Hh Hv Hm.
    destruct (hijos_ancho_meta pb _ resto v k hijo Hh Hv Hm)
      as (h & k' & Hrun & Hin & Hmh).
    exists (sella h k'), k'. simpl. rewrite Hrun.
    split_and!; [done| |done]. simpl. by eapply expande_padre.
  - intros fuel n v k Hexp. simpl. by rewrite Hexp.
  - intros Hx0 fuel. split; [|done]. unfold busqueda_ancho. simpl.
    by rewrite Hx0.
Qed.

End Teoremas.

(** * Further properties of the code *)

Section Adicionales.
Context {Estado : Type} `{Countable Estado} {Accion : Type}.
Implicit Types (pb : ProblemaBusqueda Estado Accion)
  (m : ModeloBusqueda Estado Accion)
  (n r : Nodo Estado Accion) (num : nat)
  (hijos : list (Nodo Estado Accion))
  (heuristica : Nodo Estado Accion → Z).

(** *** [Nodo.__str__] *)

Lemma cada_dos_cons {A} (x : A) (l : list A) :
  cada_dos (x :: l) = x :: cada_dos (drop 1 l).
Proof. by destruct l. Qed.

Lemma trayectoria_reproduce m s resto :
  reproduce m s resto →
  let plan := PEstado s :: resto in
  let tr := zip3 (cada_dos (removelast plan)) (cada_dos (drop 1 plan))
              (cada_dos (drop 2 plan)) in
  (2 * length tr = length resto)%nat ∧ Forall (transicion m) tr.
Proof.
  revert s. induction resto as [|x|x y resto IH] using pasos_ind2;
    intros s Hr.
  - by split.
  - by destruct x as [|[]].
  - destruct x as [|[b|]]; [done| |done]. destruct y as [s'|]; [|done].
    destruct Hr as (Hb & -> & Hr). destruct (IH _ Hr) as [Hlen Htr].
    cbv zeta.
    change (removelast (PEstado s :: PAccion (Some b)
                          :: PEstado (sucesor m s b) :: resto))
      with (PEstado s :: PAccion (Some b)
              :: removelast (PEstado (sucesor m s b) :: resto)).
    cbn [drop]. rewrite !cada_dos_cons. cbn [drop zip3 length].
    cbn [drop] in Hlen, Htr. rewrite ?drop_0 in *.
    split; [lia|]. apply Forall_cons. split; [|done].
    by exists s, b.
Qed.

(** X1. For a node the engine built, the triples over which
    [Nodo.__str__] iterates are the transitions of its plan: as many
    as the depth of the node, each a legal action with the state
    before it and its successor after it.  The root prints its header
    alone. *)
Theorem str_lista_las_transiciones pb n :
  construido pb n →
  length (Nodo_trayectoria n) = profundidad n ∧
  Forall (transicion (modelo pb)) (Nodo_trayectoria n) ∧
  (∀ str_estado str_accion,
     Nodo_str str_estado str_accion (raiz pb)
     = "Costo: 0" +:+ salto_de_linea +:+ "Profundidad: 0" +:+
       salto_de_linea +:+ "Trayectoria:" +:+ salto_de_linea).
Proof.
  intros Hc.
  destruct (construido_plan _ _ Hc) as (resto & Hp & Hr & _ & _ & Hlen).
  destruct (trayectoria_reproduce _ _ _ Hr) as [Hl Htr].
  unfold Nodo_trayectoria. rewrite Hp. split_and!; [lia|done|done].
Qed.

(** *** The inherited [costo_local] *)

Lemma costo_camino_unitario m s l t :
  (∀ s a, costo_local m s a = 1) → camino m s l t →
  costo_camino m s l = Z.of_nat (length l).
Proof.
  intros Hu. induction 1 as [|s a l t _ _ IH]; simpl; [done|].
  rewrite Hu, IH. lia.
Qed.

Lemma costo_unitario_construido pb n :
  (∀ s a, costo_local (modelo pb) s a = 1) → construido pb n →
  costo n = Z.of_nat (profundidad n).
Proof.
  intros Hu Hc. destruct (construido_camino _ _ Hc) as (l & Hl & <- & <-).
  by apply costo_camino_unitario with (estado n).
Qed.

Lemma costo_uniforme_unitario_cota pb fuel num r k l t :
  (∀ s a, costo_local (modelo pb) s a = 1) →
  busqueda_costo_uniforme fuel pb num = Some (Some r, k) →
  camino (modelo pb) (x0 pb) l t → meta pb t = true →
  (profundidad r ≤ length l)%nat.
Proof.
  intros Hu Hrun Hl Ht.
  apply busqueda_costo_uniforme_construido in Hrun as Hr.
  destruct Hr as [Hc Hm]. rewrite costo_uniforme_A_estrella in Hrun.
  assert (costo r ≤ costo_camino (modelo pb) (x0 pb) l) as Hle.
  { eapply (A_estrella_cota pb (λ _, 0)); [by intros ? ?| |done..].
    intros n' l' t' _ Hl' _.
    rewrite (costo_camino_unitario _ _ _ _ Hu Hl'). lia. }
  rewrite (costo_unitario_construido _ _ Hu Hc),
    (costo_camino_unitario _ _ _ _ Hu Hl) in Hle. lia.
Qed.

(** X2. When the model keeps the [costo_local] of [ModeloBusqueda]
    (every step costs 1), the cost of a node the engine built is its
    depth, and a node returned by [busqueda_costo_uniforme] is a goal
    node of least depth. *)
Theorem costo_unitario_es_profundidad pb :
  (∀ s a, costo_local (modelo pb) s a = costo_local_base s a) →
  (∀ n, construido pb n → costo n = Z.of_nat (profundidad n)) ∧
  (∀ fuel num r k,
     busqueda_costo_uniforme fuel pb num = Some (Some r, k) →
     meta pb (estado r) = true ∧
     ∀ l t, camino (modelo pb) (x0 pb) l t → meta pb t = true →
       (profundidad r ≤ length l)%nat).
Proof.
  intros Hbase.
  assert (∀ s a, costo_local (modelo pb) s a = 1) as Hu
    by (intros; by rewrite Hbase).
  split; [intros n; by apply costo_unitario_construido|].
  intros fuel num r k Hrun. split.
  - by apply busqueda_costo_uniforme_construido in Hrun as [_ ?].
  - intros l t. by apply costo_uniforme_unitario_cota with fuel num k.
Qed.

(** A node returned by the breadth-first search is no deeper than any
    path to a goal is long, on any space. *)
Lemma busqueda_ancho_cota pb fuel num r k l t :
  busqueda_ancho fuel pb num = Some (Some r, k) →
  camino (modelo pb) (x0 pb) l t → meta pb t = true →
  (profundidad r ≤ length l)%nat.
Proof.
  unfold busqueda_ancho. simpl. destruct (meta pb (x0 pb)) eqn:Hx0.
  { intros [= <- <-] _ _. simpl. lia. }
  intros Hrun Hl Ht.
  apply (bucle_ancho_regla pb (inv_ancho pb)) in Hrun;
    [|by apply inv_ancho_inicial|apply inv_ancho_paso].
  destruct Hrun as [(n & resto & v & k0 & r' & k' & Hinv & Hh & Hres)
                   |(? & ? & _ & ?)]; [|done].
  simplify_eq.
  pose proof (hijos_ancho_inv pb n (expande n (modelo pb)) resto v k0
                Hinv) as Hi.
  rewrite Hh in Hi. destruct Hi as (_ & Hd & Hmin).
  { intros hijo Hhijo. split.
    - apply construido_hijo with n; [|done].
      destruct Hinv as (Hcn & _). by apply Forall_cons in Hcn as [? _].
    - by apply expande_elem in Hhijo as (a & _ & ->). }
  rewrite Hd. by eapply Hmin.
Qed.

(** X3. When every step costs 1 (the inherited [costo_local]), the
    nodes returned by [busqueda_ancho], by [busqueda_costo_uniforme]
    and by [busqueda_A_estrella] with the heuristic 0 have the same
    cost and the same depth. *)
Theorem ancho_y_costo_uniforme_coinciden pb
    fuel1 fuel2 fuel3 num1 num2 num3 ra ru re k1 k2 k3 :
  (∀ s a, costo_local (modelo pb) s a = costo_local_base s a) →
  busqueda_ancho fuel1 pb num1 = Some (Some ra, k1) →
  busqueda_costo_uniforme fuel2 pb num2 = Some (Some ru, k2) →
  busqueda_A_estrella fuel3 pb (λ _, 0) num3 = Some (Some re, k3) →
  costo ra = costo ru ∧ costo ru = costo re ∧
  profundidad ra = profundidad ru ∧ profundidad ru = profundidad re.
Proof.
  intros Hbase Ha Hu He.
  assert (∀ s a, costo_local (modelo pb) s a = 1) as Hun
    by (intros; by rewrite Hbase).
  rewrite <-costo_uniforme_A_estrella in He.
  destruct (busqueda_ancho_construido _ _ _ _ _ Ha) as [Hca Hma].
  destruct (busqueda_costo_uniforme_construido _ _ _ _ _ Hu) as [Hcu Hmu].
  destruct (busqueda_costo_uniforme_construido _ _ _ _ _ He) as [Hce Hme].
  destruct (construido_camino _ _ Hca) as (la & Hla & _ & Hda).
  destruct (construido_camino _ _ Hcu) as (lu & Hlu & _ & Hdu).
  destruct (construido_camino _ _ Hce) as (le & Hle & _ & Hde).
  pose proof (busqueda_ancho_cota _ _ _ _ _ _ _ Ha Hlu Hmu).
  pose proof (costo_uniforme_unitario_cota _ _ _ _ _ _ _ Hun Hu Hla Hma).
  pose proof (costo_uniforme_unitario_cota _ _ _ _ _ _ _ Hun Hu Hle Hme).
  pose proof (costo_uniforme_unitario_cota _ _ _ _ _ _ _ Hun He Hlu Hmu).
  rewrite !(costo_unitario_construido pb) by done. lia.
Qed.

(** *** The counter [num_nodos] *)

Lemma hijos_ancho_contador pb hijos frontera (v : gset Estado) num :
  match hijos_ancho pb hijos frontera v num with
  | inl (r, k) => (num < k)%nat ∧ nodos_visitados r = k
  | inr (_, _, k) => (num ≤ k)%nat
  end.
Proof.
  revert frontera v num. induction hijos as [|hijo resto IH];
    intros frontera v num; simpl; [done|].
  destruct (decide _); [apply IH|].
  destruct (meta pb (estado hijo)); [split; [lia|done]|].
  specialize (IH (frontera ++ [hijo]) ({[estado hijo]} ∪ v) (S num)).
  destruct (hijos_ancho _ _ _ _ _) as [[r k]|[[f' v'] k]]; [|lia].
  destruct IH. split; [lia|done].
Qed.

Lemma bucle_ancho_contador pb fuel frontera (v : gset Estado) num ro k :
  bucle_ancho fuel pb frontera v num = Some (ro, k) →
  (num ≤ k)%nat ∧ ∀ r, ro = Some r → (num < k)%nat ∧ nodos_visitados r = k.
Proof.
  revert frontera v num. induction fuel as [|fuel IH];
    intros frontera v num; simpl; [done|].
  destruct frontera as [|n resto]; [by intros [= <- <-]|].
  pose proof (hijos_ancho_contador pb (expande n (modelo pb)) resto v num)
    as Hh.
  destruct (hijos_ancho _ _ _ _ _) as [[r k']|[[f' v'] k']].
  - intros [= <- <-]. destruct Hh. split; [lia|]. by intros ? [= <-].
  - intros [Hle Hr]%IH. split; [lia|]. intros r ->.
    destruct (Hr r eq_refl). split; [lia|done].
Qed.

Lemma bucle_profundo_contador pb fuel mp frontera (v : gmap Estado nat)
    num ro k :
  bucle_profundo fuel pb mp frontera v num = Some (ro, k) →
  (num ≤ k)%nat ∧ (frontera ≠ [] → (num < k)%nat) ∧
  ∀ r, ro = Some r → nodos_visitados r = k.
Proof.
  revert frontera v num. induction fuel as [|fuel IH];
    intros frontera v num; simpl; [done|].
  destruct frontera as [|n resto]; [by intros [= <- <-]|].
  destruct (meta pb (estado n)).
  { intros [= <- <-]. split_and!; [lia|lia|by intros ? [= <-]]. }
  destruct (en_el_limite mp n).
  - intros (? & _ & ?)%IH. split_and!; [lia|lia|done].
  - destruct (hijos_profundo _ _ _).
    intros (? & _ & ?)%IH. split_and!; [lia|lia|done].
Qed.

Lemma bucle_A_estrella_contador pb fuel heuristica
    (frontera : list (Z * Nodo Estado Accion)) (v : gmap Estado Z)
    num ro k :
  bucle_A_estrella fuel pb heuristica frontera v num = Some (ro, k) →
  (num ≤ k)%nat ∧ (frontera ≠ [] → (num < k)%nat) ∧
  ∀ r, ro = Some r → nodos_visitados r = k.
Proof.
  revert frontera v num. induction fuel as [|fuel IH];
    intros frontera v num; simpl; [done|].
  destruct (heappop entrada_lt frontera) as [[[p n] f1]|] eqn:Hpop.
  2:{ apply heappop_None in Hpop as ->. by intros [= <- <-]. }
  destruct (meta pb (estado n)).
  { intros [= <- <-]. split_and!; [lia|lia|by intros ? [= <-]]. }
  destruct (hijos_A_estrella _ _ _ _).
  intros (? & _ & ?)%IH. split_and!; [lia|lia|done].
Qed.

Lemma heappush_no_vacio {T} (lt : T → T → bool) (h : list T) x :
  heappush lt h x ≠ [].
Proof.
  intros Hnil. pose proof (heappush_perm lt h x) as Hp.
  rewrite Hnil in Hp. by apply Permutation_nil_cons in Hp.
Qed.

Lemma iterativa_bucle_contador pb fuel profundidades num ro k :
  iterativa_bucle fuel pb profundidades num = Some (ro, k) →
  (num + length profundidades * match ro with None => 1 | _ => 0 end
   ≤ k)%nat ∧
  ∀ r, ro = Some r → (num < k)%nat ∧ nodos_visitados r = k.
Proof.
  revert num. induction profundidades as [|d resto IH]; intros num; simpl.
  { intros [= <- <-]. split; [lia|done]. }
  unfold busqueda_profundo.
  destruct (bucle_profundo fuel _ _ _ _ _) as [[[r|] k']|] eqn:Hd; [| |done].
  - intros [= <- <-].
    apply bucle_profundo_contador in Hd as (? & Hlt & Hr).
    split; [lia|]. intros ? [= <-]. split; [by apply Hlt|by apply Hr].
  - apply bucle_profundo_contador in Hd as (_ & Hlt & _).
    specialize (Hlt ltac:(done)).
    intros [Hle Hr]%IH. split; [destruct ro; lia|].
    intros r ->. destruct (Hr r eq_refl). split; [lia|done].
Qed.

(** X4. Every strategy counts its goal tests in [num_nodos] and
    leaves the count on the node it returns: after
    [busqueda_profundo], [busqueda_costo_uniforme] or
    [busqueda_A_estrella] the counter has grown and a returned node
    carries its value in [nodos_visitados]; [busqueda_ancho] does the
    same except when the initial state is a goal, where the root comes
    back with [nodos_visitados = 0] after one test;
    [busqueda_profundidad_iterativa] adds up the tests of all its
    rounds, at least one per round. *)
Theorem contador_de_nodos pb fuel num ro k :
  (busqueda_ancho fuel pb num = Some (ro, k) →
   (num < k)%nat ∧
   ∀ r, ro = Some r →
     if meta pb (x0 pb) then r = raiz pb ∧ k = S num
     else nodos_visitados r = k) ∧
  (∀ mp, busqueda_profundo fuel pb mp num = Some (ro, k) →
     (num < k)%nat ∧ ∀ r, ro = Some r → nodos_visitados r = k) ∧
  (busqueda_costo_uniforme fuel pb num = Some (ro, k) →
   (num < k)%nat ∧ ∀ r, ro = Some r → nodos_visitados r = k) ∧
  (∀ heuristica,
     busqueda_A_estrella fuel pb heuristica num = Some (ro, k) →
     (num < k)%nat ∧ ∀ r, ro = Some r → nodos_visitados r = k) ∧
  (∀ mp, busqueda_profundidad_iterativa fuel pb mp num = Some (ro, k) →
     (ro = None → (num + Z.to_nat mp ≤ k)%nat) ∧
     ∀ r, ro = Some r → (num < k)%nat ∧ nodos_visitados r = k).
Proof.
  assert (∀ heuristica,
            busqueda_A_estrella fuel pb heuristica num = Some (ro, k) →
            (num < k)%nat ∧ ∀ r, ro = Some r → nodos_visitados r = k) as HA.
  { intros h (_ & Hlt & Hr)%bucle_A_estrella_contador.
    split; [|done]. apply Hlt, heappush_no_vacio. }
  split_and!.
  - unfold busqueda_ancho. simpl. destruct (meta pb (x0 pb)).
    + intros [= <- <-]. split; [lia|]. by intros ? [= <-].
    + intros [Hle Hr]%bucle_ancho_contador. split; [lia|].
      intros r Hro. by destruct (Hr r Hro).
  - intros mp (_ & Hlt & Hr)%bucle_profundo_contador.
    split; [by apply Hlt|done].
  - rewrite costo_uniforme_A_estrella. apply HA.
  - done.
  - intros mp [Hle Hr]%iterativa_bucle_contador. split; [|done].
    intros ->. unfold range in Hle. rewrite length_seq in Hle. lia.
Qed.

(** *** Effort of the breadth-first search *)

Lemma hijos_ancho_esfuerzo pb universo hijos frontera (v : gset Estado)
    num :
  (∀ hijo, hijo ∈ hijos → estado hijo ∈ universo) →
  match hijos_ancho pb hijos frontera v num with
  | inl (_, k) => (k ≤ num + no_visitados universo v)%nat
  | inr (_, v', k) =>
      (k + no_visitados universo v' ≤ num + no_visitados universo v)%nat
  end.
Proof.
  revert frontera v num. induction hijos as [|hijo resto IH];
    intros frontera v num Hu; simpl; [done|].
  assert (∀ h, h ∈ resto → estado h ∈ universo) as Hu'
    by (intros h Hh; apply Hu; by right).
  destruct (decide _) as [|Hnv]; [by apply IH|].
  pose proof (no_visitados_add universo v (estado hijo)
                (Hu hijo ltac:(by left)) Hnv) as Hlt.
  destruct (meta pb (estado hijo)); [lia|].
  specialize (IH (frontera ++ [hijo]) ({[estado hijo]} ∪ v) (S num) Hu').
  destruct (hijos_ancho _ _ _ _ _) as [[r k]|[[f' v'] k]]; lia.
Qed.

Lemma bucle_ancho_esfuerzo pb universo fuel frontera (v : gset Estado)
    num ro k :
  espacio_finito pb universo →
  (∀ n, n ∈ frontera → estado n ∈ universo) →
  bucle_ancho fuel pb frontera v num = Some (ro, k) →
  (k ≤ num + no_visitados universo v)%nat.
Proof.
  intros Hfin. revert frontera v num. induction fuel as [|fuel IH];
    intros frontera v num Hu; simpl; [done|].
  destruct frontera as [|n resto]; [intros [= <- <-]; lia|].
  assert (∀ hijo, hijo ∈ expande n (modelo pb) → estado hijo ∈ universo)
    as Hh.
  { intros hijo ?. eapply expande_universo; [done| |done]. apply Hu.
    by left. }
  pose proof (hijos_ancho_esfuerzo pb universo _ resto v num Hh) as He.
  pose proof (hijos_ancho_medida pb universo _ resto v num Hh) as Hm.
  destruct (hijos_ancho _ _ _ _ _) as [[r k']|[[f' v'] k']].
  - by intros [= <- <-].
  - destruct Hm as [Hin _]. intros Hrun%IH; [lia|].
    intros n' [?|?]%Hin; [apply Hu; by right|by apply Hh].
Qed.

(** X5. On a finite space [busqueda_ancho] tests every state at most
    once: whatever it returns, the counter has grown by no more than
    the number of states of the space. *)
Theorem ancho_prueba_cada_estado_una_vez pb universo fuel num ro k :
  espacio_finito pb universo →
  busqueda_ancho fuel pb num = Some (ro, k) →
  (k ≤ num + length universo)%nat.
Proof.
  intros Hfin. unfold busqueda_ancho. simpl.
  assert (no_visitados universo {[x0 pb]} < length universo)%nat as Hlt.
  { apply length_filter_lt with (x0 pb); [apply Hfin|].
    intros Hn. apply Hn. by apply elem_of_singleton. }
  destruct (meta pb (x0 pb)).
  - intros [= <- <-]. lia.
  - intros Hrun%(bucle_ancho_esfuerzo pb universo); [lia|done|].
    by apply raiz_universo.
Qed.

(** *** Depth first *)

(** X6. A node returned by [busqueda_profundo] under a bound
    [max_profundidad >= 0] is never deeper than the bound. *)
Theorem profundo_respeta_la_cota pb fuel max_profundidad num r k :
  0 ≤ max_profundidad →
  busqueda_profundo fuel pb (Some max_profundidad) num = Some (Some r, k) →
  Z.of_nat (profundidad r) ≤ max_profundidad.
Proof.
  intros Hm Hrun. rewrite <-(Z2Nat.id max_profundidad) in Hrun by done.
  apply busqueda_profundo_acotada in Hrun. lia.
Qed.

(** X7. On a finite space [busqueda_profundo] finds a goal whenever
    one can be reached by a path that the bound allows: any path when
    [max_profundidad] is [None] (or negative), a path of at most
    [max_profundidad] actions otherwise.  Pushing a state again when it
    is met at a smaller depth is what makes the bounded search
    complete. *)
Theorem profundo_encuentra_la_meta pb universo mp num l t :
  espacio_finito pb universo →
  camino (modelo pb) (x0 pb) l t → meta pb t = true →
  (∀ cota, mp = Some cota → cota < 0 ∨ Z.of_nat (length l) ≤ cota) →
  ∃ fuel r k,
    (∀ fuel', (fuel ≤ fuel')%nat →
       busqueda_profundo fuel' pb mp num = Some (Some r, k)) ∧
    meta pb (estado r) = true.
Proof.
  intros Hfin Hl Ht Hcota.
  destruct (bucle_profundo_termina pb universo Hfin mp [raiz pb]
              {[x0 pb := O]} num (raiz_universo pb universo Hfin))
    as (fuel & [[r|] k] & Hrun).
  - exists fuel, r, k. split.
    + intros fuel' Hle. by apply (bucle_profundo_mono pb fuel).
    + by apply busqueda_profundo_construido in Hrun as [_ ?].
  - destruct (busqueda_profundo_no_None pb mp fuel num k l t Hrun Hl Ht).
    intros d Hd ->. destruct (Hcota _ eq_refl); lia.
Qed.

(** X8. On a finite space, when the least depth [d] of a goal is
    below the ceiling, [busqueda_profundidad_iterativa] returns a goal
    node of depth [d]. *)
Theorem iterativa_bajo_el_techo pb universo d max_profundidad num :
  espacio_finito pb universo → profundidad_minima pb d →
  Z.of_nat d < max_profundidad →
  ∃ fuel r k,
    (∀ fuel', (fuel ≤ fuel')%nat →
       busqueda_profundidad_iterativa fuel' pb max_profundidad num
       = Some (Some r, k)) ∧
    profundidad r = d ∧ meta pb (estado r) = true.
Proof. intros Hfin Hd Hlt. by apply iterativa_minima with universo. Qed.

(** *** The cost-ordered searches *)

(** X9. On a finite space with non-negative step costs,
    [busqueda_A_estrella] returns a goal node whenever a goal can be
    reached, whatever the heuristic is; the heuristic only decides
    which one: a node of least cost when it is non-negative and
    admissible. *)
Theorem A_estrella_encuentra_la_meta pb universo heuristica num :
  espacio_finito pb universo → costos_no_negativos (modelo pb) →
  (∃ l t, camino (modelo pb) (x0 pb) l t ∧ meta pb t = true) →
  ∃ fuel r k,
    (∀ fuel', (fuel ≤ fuel')%nat →
       busqueda_A_estrella fuel' pb heuristica num = Some (Some r, k)) ∧
    meta pb (estado r) = true ∧
    (no_negativa pb heuristica → admisible pb heuristica →
     es_costo_minimo pb (costo r)).
Proof.
  intros Hfin Hcost (l & t & Hl & Ht).
  destruct (busqueda_A_estrella_termina pb universo Hfin Hcost heuristica num)
    as (fuel & [[r|] k] & Hrun).
  - exists fuel, r, k.
    apply busqueda_A_estrella_construido in Hrun as Hr.
    destruct Hr as [Hc Hm]. split_and!; [|done|].
    + intros fuel' Hle. by apply (bucle_A_estrella_mono pb fuel).
    + intros Hnn Hadm. split.
      * destruct (construido_camino _ _ Hc) as (l' & Hl' & Hcl & _).
        by exists l', (estado r).
      * intros l' t' Hl' Ht'. by eapply A_estrella_cota.
  - by rewrite (busqueda_A_estrella_no_None pb heuristica fuel num k l t
                  Hrun Hl) in Ht.
Qed.

(** X10. On a finite space with non-negative step costs and a goal
    that can be reached, [busqueda_costo_uniforme] stops and returns a
    goal node whose cost is the least cost of a path to a goal. *)
Theorem costo_uniforme_encuentra_el_optimo pb universo num :
  espacio_finito pb universo → costos_no_negativos (modelo pb) →
  (∃ l t, camino (modelo pb) (x0 pb) l t ∧ meta pb t = true) →
  ∃ fuel r k,
    (∀ fuel', (fuel ≤ fuel')%nat →
       busqueda_costo_uniforme fuel' pb num = Some (Some r, k)) ∧
    meta pb (estado r) = true ∧ es_costo_minimo pb (costo r).
Proof.
  intros Hfin Hcost (l & t & Hl & Ht).
  destruct (busqueda_A_estrella_termina pb universo Hfin Hcost (λ _, 0) num)
    as (fuel & [[r|] k] & Hrun).
  - exists fuel, r, k.
    apply busqueda_A_estrella_construido in Hrun as Hr.
    destruct Hr as [Hc Hm]. split_and!; [|done|].
    + intros fuel' Hle. rewrite costo_uniforme_A_estrella.
      by apply (bucle_A_estrella_mono pb fuel).
    + split.
      * destruct (construido_camino _ _ Hc) as (l' & Hl' & Hcl & _).
        by exists l', (estado r).
      * intros l' t' Hl' Ht'.
        eapply (A_estrella_cota pb (λ _, 0)); [by intros ? ?| |done..].
        intros n' l'' t'' _ Hl'' _. by eapply costo_camino_no_neg.
  - by rewrite (busqueda_A_estrella_no_None pb (λ _, 0) fuel num k l t
                  Hrun Hl) in Ht.
Qed.

(** What the frontier and the visited map hold at the head of the
    loop. *)
Lemma construido_costo_no_neg pb n :
  costos_no_negativos (modelo pb) → construido pb n → 0 ≤ costo n.
Proof.
  intros Hcost Hc. destruct (construido_camino _ _ Hc) as (l & Hl & <- & _).
  by eapply costo_camino_no_neg.
Qed.

Lemma hijos_A_estrella_registro pb heuristica hijos
    (f : list (Z * Nodo Estado Accion)) (v : gmap Estado Z) :
  Forall (λ hijo, construido pb hijo ∧ hijo ≠ raiz pb) hijos →
  (∀ p n, (p, n) ∈ f →
     construido pb n ∧
     (p = costo n + heuristica n ∨ (p = 0 ∧ n = raiz pb)) ∧
     ∃ c, v !! estado n = Some c ∧ c ≤ costo n) →
  costos_reales pb v →
  let r := hijos_A_estrella heuristica hijos f v in
  (∀ p n, (p, n) ∈ r.1 →
     construido pb n ∧
     (p = costo n + heuristica n ∨ (p = 0 ∧ n = raiz pb)) ∧
     ∃ c, r.2 !! estado n = Some c ∧ c ≤ costo n) ∧
  costos_reales pb r.2.
Proof.
  intros Hh. revert f v. induction Hh as [|hijo resto [Hc Hnr] _ IH];
    intros f v Hf Hv; simpl; [done|].
  destruct (mejora mayor_costo v (estado hijo) (costo hijo)) eqn:Hm;
    [|by apply IH].
  apply IH.
  - intros p n. rewrite heappush_perm, elem_of_cons.
    intros [[= -> ->]|Hin].
    + split_and!; [done|by left|]. exists (costo hijo).
      by rewrite lookup_insert_eq.
    + destruct (Hf p n Hin) as (? & ? & c & Hc' & ?).
      split_and!; [done..|].
      destruct (mejora_baja _ _ _ _ _ Hm Hc') as (c2 & ? & ?).
      exists c2. split; [done|lia].
  - intros s c. destruct (decide (estado hijo = s)) as [<-|Hne].
    + rewrite lookup_insert_eq. intros [= <-].
      destruct (construido_camino _ _ Hc) as (l & ? & ? & _). by exists l.
    + rewrite lookup_insert_ne by done. apply Hv.
Qed.

Lemma hijos_A_estrella_raiz pb heuristica hijos
    (f : list (Z * Nodo Estado Accion)) (v : gmap Estado Z) :
  costos_no_negativos (modelo pb) → Forall (construido pb) hijos →
  v !! x0 pb = Some 0 →
  (∀ p n, (p, n) ∈ f → estado n = x0 pb → n = raiz pb) →
  let r := hijos_A_estrella heuristica hijos f v in
  r.2 !! x0 pb = Some 0 ∧
  ∀ p n, (p, n) ∈ r.1 → estado n = x0 pb → n = raiz pb.
Proof.
  intros Hcost Hh. revert f v. induction Hh as [|hijo resto Hc _ IH];
    intros f v Hx0 Hf; simpl; [done|].
  destruct (mejora mayor_costo v (estado hijo) (costo hijo)) eqn:Hm;
    [|by apply IH].
  assert (estado hijo ≠ x0 pb) as Hne.
  { intros Heq.
    apply mejora_costo_true in Hm as [Hm|(c0 & Hm & Hlt)];
      rewrite Heq, Hx0 in Hm; [done|]. simplify_eq.
    pose proof (construido_costo_no_neg _ _ Hcost Hc). lia. }
  apply IH; [by rewrite lookup_insert_ne|].
  intros p n. rewrite heappush_perm, elem_of_cons.
  intros [[= -> ->]|Hin]; [done|by apply (Hf p n)].
Qed.

Lemma expande_no_raiz pb n hijo :
  hijo ∈ expande n (modelo pb) → hijo ≠ raiz pb.
Proof. by intros (a & _ & ->)%expande_elem. Qed.

(** X11. At every head of the loop of [busqueda_A_estrella]: each
    frontier entry holds a node built from the root, under priority
    [costo + heuristica] (0 for the root), whose state is recorded in
    [visitados] at a cost no greater than the node's; every recorded
    cost is the cost of some path from the initial state to that
    state; and with non-negative step costs the initial state stays
    recorded at cost 0 and is never pushed again.  The loop of
    [busqueda_costo_uniforme] keeps every entry under the cost of its
    node. *)
Theorem registro_de_visitados pb heuristica
    (f : list (Z * Nodo Estado Accion)) (v : gmap Estado Z) :
  (en_bucle_A_estrella pb heuristica f v →
   (∀ p n, (p, n) ∈ f →
      construido pb n ∧
      (p = costo n + heuristica n ∨ (p = 0 ∧ n = raiz pb)) ∧
      ∃ c, v !! estado n = Some c ∧ c ≤ costo n) ∧
   costos_reales pb v ∧
   (costos_no_negativos (modelo pb) →
    v !! x0 pb = Some 0 ∧
    ∀ p n, (p, n) ∈ f → estado n = x0 pb → n = raiz pb)) ∧
  (en_bucle_costo_uniforme pb f v → ∀ p n, (p, n) ∈ f → p = costo n).
Proof.
  assert (∀ h f v, en_bucle_A_estrella pb h f v →
            (∀ p n, (p, n) ∈ f →
               construido pb n ∧
               (p = costo n + h n ∨ (p = 0 ∧ n = raiz pb)) ∧
               ∃ c, v !! estado n = Some c ∧ c ≤ costo n) ∧
            costos_reales pb v) as HA.
  { clear f v. intros h f v.
    induction 1 as [|f v p n f1 _ (Hf & Hv) Hpop Hm].
    - split.
      + intros p n. rewrite heappush_perm, list_elem_of_singleton.
        intros [= -> ->]. split_and!; [apply construido_raiz|by right|].
        exists 0. by rewrite lookup_singleton_eq.
      + intros s c [<- <-]%lookup_singleton_Some. exists [].
        split; [apply camino_nil|done].
    - apply heappop_perm in Hpop as Hperm; [|apply entrada_lt_asim].
      destruct (Hf p n) as (Hn & _); [rewrite Hperm; by left|].
      apply hijos_A_estrella_registro; [| |done].
      + apply Forall_forall. intros hijo Hh.
        split; [by apply construido_hijo with n|by eapply expande_no_raiz].
      + intros p' n' Hin. apply Hf. rewrite Hperm. by right. }
  split.
  - intros Hen. destruct (HA _ _ _ Hen) as [Hf Hv].
    split_and!; [done..|]. intros Hcost. clear Hf Hv.
    induction Hen as [|f v p n f1 Hen IH Hpop Hm].
    + split; [by rewrite lookup_singleton_eq|].
      intros p n. rewrite heappush_perm, list_elem_of_singleton.
      by intros [= -> ->].
    + destruct IH as [Hx0 Hr].
      apply heappop_perm in Hpop as Hperm; [|apply entrada_lt_asim].
      destruct (HA _ _ _ Hen) as [Hf _].
      destruct (Hf p n) as (Hn & _); [rewrite Hperm; by left|].
      apply hijos_A_estrella_raiz; [done| |done|].
      * by apply expande_construido.
      * intros p' n' Hin. apply (Hr p' n'). rewrite Hperm. by right.
  - intros Hcu%en_bucle_costo_uniforme_A_estrella p n Hin.
    destruct (HA _ _ _ Hcu) as (Hf & _).
    destruct (Hf p n Hin) as (_ & [->|[-> ->]] & _); [lia|done].
Qed.

End Adicionales.

(** * The properties on concrete problems *)

Lemma costos_saltos : costos_no_negativos modelo_saltos.
Proof.
  intros s a. simpl. destruct (decide (s < 6)%nat); [|by intros ?%elem_of_nil].
  rewrite !elem_of_cons, elem_of_nil. intros [->|[->|[]]]; lia.
Defined.

Lemma costo_uniforme_y_A_estrella_optimas_testigo :
  (∃ r k, busqueda_costo_uniforme 20 problema_saltos 0 = Some (Some r, k) ∧
          es_costo_minimo problema_saltos (costo r)) ∧
  (∃ r k, busqueda_A_estrella 20 problema_saltos (λ _, 0) 0
          = Some (Some r, k) ∧
          es_costo_minimo problema_saltos (costo r)).
Proof.
  pose proof (costo_uniforme_y_A_estrella_optimas problema_saltos
                costos_saltos) as [Hcu HA].
  split.
  - eexists _, _. split; [vm_compute; reflexivity|].
    apply (Hcu 20%nat O _ 7%nat). vm_compute; reflexivity.
  - eexists _, _. split; [vm_compute; reflexivity|].
    apply (HA (λ _, 0)) with 20%nat O 7%nat;
      [by intros ? ?| |vm_compute; reflexivity].
    intros n l t _ Hl _.
    exact (costo_camino_no_neg _ _ _ _ costos_saltos Hl).
Defined.

Lemma plan_de_la_solucion_testigo :
  ∃ r k, busqueda_ancho 20 problema_saltos 0 = Some (Some r, k) ∧
    plan_valido problema_saltos (genera_plan r) ∧
    genera_plan r
    = [PEstado 0%nat; PAccion (Some 1%nat); PEstado 1%nat;
       PAccion (Some 2%nat); PEstado 3%nat; PAccion (Some 2%nat);
       PEstado 5%nat].
Proof.
  eexists _, _. split; [vm_compute; reflexivity|]. split; [|reflexivity].
  apply (plan_de_la_solucion problema_saltos 20 0 _ 6%nat).
  left. vm_compute; reflexivity.
Defined.


Lemma pop_minimo_por_prioridad_y_profundidad_testigo :
  ∃ (f : list (Z * Nodo nat nat)) p n f1,
    heappop entrada_lt f = Some ((p, n), f1) ∧ length f1 = 1%nat ∧
    f ≡ₚ (p, n) :: f1 ∧
    ∀ p' n', (p', n') ∈ f1 →
      p ≤ p' ∧ (p' = p → (profundidad n ≤ profundidad n')%nat).
Proof.
  set (f0 := heappush entrada_lt [] (0, raiz problema_saltos)).
  set (v0 := {[0%nat := 0]} : gmap nat Z).
  set (e := hijos_costo_uniforme
              (expande (raiz problema_saltos) modelo_saltos) [] v0).
  assert (en_bucle_costo_uniforme problema_saltos e.1 e.2) as He.
  { apply (en_bucle_CU_vuelta problema_saltos f0 v0 0
             (raiz problema_saltos) []);
      [apply en_bucle_CU_inicio|vm_compute; reflexivity|reflexivity]. }
  exists e.1. eexists _, _, _.
  split; [vm_compute; reflexivity|]. split; [reflexivity|].
  apply (proj1 (pop_minimo_por_prioridad_y_profundidad problema_saltos
                  (λ _, 0)) e.1 e.2); [by left|vm_compute; reflexivity].
Defined.

Lemma heuristica_solo_en_hijos_testigo :
  let hp := λ n : Nodo nat nat,
    if decide (estado n = 0%nat) then None
    else Some (Z.of_nat (5 - estado n)) in
  hp (raiz problema_saltos) = None ∧
  (∃ r k, busqueda_A_estrella_exc 20 problema_saltos hp 0
          = Some (Devuelve (Some r) k)) ∧
  busqueda_A_estrella_exc 20 problema_saltos hp 0 ≠ Some Lanza.
Proof.
  intros hp. split; [reflexivity|].
  split; [eexists _, _; vm_compute; reflexivity|].
  eapply (heuristica_solo_en_hijos problema_saltos hp
            (λ n, Z.of_nat (5 - estado n)) 20 0).
  intros q hijo _ (a & Ha & ->)%expande_elem. unfold hp. simpl in *.
  destruct (decide (estado q < 6)%nat); [|by apply elem_of_nil in Ha].
  rewrite !elem_of_cons, elem_of_nil in Ha.
  destruct Ha as [->|[->|[]]];
    (destruct (decide _) as [E|_]; [lia|reflexivity]).
Defined.

Lemma finito_saltos :
  espacio_finito problema_saltos [0; 1; 2; 3; 4; 5; 6; 7]%nat.
Proof.
  split; [by left|]. intros s a Hs. simpl.
  rewrite !elem_of_cons, elem_of_nil in Hs.
  destruct Hs as [->|[->|[->|[->|[->|[->|[->|[->|[]]]]]]]]]; simpl;
    rewrite ?elem_of_cons, ?elem_of_nil;
    intros [->|[->|[]]] || intros []; simpl; tauto.
Defined.

Lemma finito_pasillo objetivo :
  espacio_finito (problema_pasillo objetivo) [0; 1; 2; 3]%nat.
Proof.
  split; [by left|]. intros s a Hs. simpl.
  rewrite !elem_of_cons, elem_of_nil in Hs.
  destruct Hs as [->|[->|[->|[->|[]]]]]; simpl;
    rewrite ?elem_of_cons, ?elem_of_nil;
    intros [->|[]] || intros []; simpl; tauto.
Defined.

Lemma sin_meta_pasillo : sin_meta_alcanzable (problema_pasillo 7).
Proof.
  intros t Ht.
  apply (alcanzable_universo _ _ (finito_pasillo 7)) in Ht. simpl.
  rewrite !elem_of_cons, elem_of_nil in Ht.
  by destruct Ht as [->|[->|[->|[->|[]]]]].
Defined.

Lemma ancho_profundidad_minima_testigo :
  ∃ fuel r k,
    (∀ fuel', (fuel ≤ fuel')%nat →
       busqueda_ancho fuel' problema_saltos 0 = Some (Some r, k)) ∧
    meta problema_saltos (estado r) = true ∧
    (∃ l, camino modelo_saltos 0%nat l (estado r) ∧
          length l = profundidad r) ∧
    (∀ l t, camino modelo_saltos 0%nat l t →
       meta problema_saltos t = true → (profundidad r ≤ length l)%nat).
Proof.
  apply (ancho_profundidad_minima problema_saltos
           [0; 1; 2; 3; 4; 5; 6; 7]%nat 0 finito_saltos).
  exists [1; 2; 2]%nat, 5%nat. split; [|reflexivity].
  repeat (apply camino_cons; [simpl; rewrite !elem_of_cons; tauto|]).
  apply camino_nil.
Defined.

Lemma sin_solucion_termina_testigo :
  (∃ fuel k, ∀ fuel', (fuel ≤ fuel')%nat →
     busqueda_ancho fuel' (problema_pasillo 7) 0 = Some (None, k)) ∧
  (∃ fuel k, ∀ fuel', (fuel ≤ fuel')%nat →
     busqueda_profundo fuel' (problema_pasillo 7) None 0 = Some (None, k)) ∧
  (∃ fuel k, ∀ fuel', (fuel ≤ fuel')%nat →
     busqueda_costo_uniforme fuel' (problema_pasillo 7) 0 = Some (None, k)).
Proof.
  destruct (sin_solucion_termina (problema_pasillo 7) [0; 1; 2; 3]%nat 0
              (finito_pasillo 7) sin_meta_pasillo)
    as (Hancho & Hprofundo & _ & Hcostos).
  split; [exact Hancho|]. split; [exact (Hprofundo None)|].
  apply Hcostos. intros s a _. simpl. unfold costo_local_base. lia.
Defined.

(** C7, as the specification words it, fails: with
    [max_profundidad = -1] the depth-first search is not rejected; it
    tests five states and returns a node of depth 3. *)
Lemma max_profundidad_negativa_no_se_rechaza :
  ∃ r, busqueda_profundo 20 problema_saltos (Some (-1)) 0
       = Some (Some r, 5%nat) ∧
       profundidad r = 3%nat ∧ nodos_visitados r = 5%nat.
Proof. eexists. split; [vm_compute; reflexivity|]. split; reflexivity. Qed.

Lemma max_profundidad_negativa_testigo :
  busqueda_profundo 20 problema_saltos (Some (-1)) 0
  = busqueda_profundo 20 problema_saltos None 0 ∧
  busqueda_profundidad_iterativa 20 problema_saltos (-1) 0 = Some (None, O).
Proof. apply max_profundidad_negativa. lia. Defined.

(** C2 at the ceiling.  The corridor has its goal at depth 1; with
    [max_profundidad = 1] the iteration only tries the bound 0 and
    returns [None], although a solution of depth 1 exists; one more
    unit of ceiling finds it. *)
Lemma iterativa_no_prueba_el_techo :
  camino modelo_pasillo 0%nat [()] 1%nat ∧
  meta (problema_pasillo 1) 1%nat = true ∧
  (∀ fuel, busqueda_profundidad_iterativa (S (S fuel)) (problema_pasillo 1) 1 0
           = Some (None, 1%nat)) ∧
  ∃ r, busqueda_profundidad_iterativa 20 (problema_pasillo 1) 2 0
       = Some (Some r, 3%nat) ∧ profundidad r = 1%nat.
Proof.
  split_and!.
  - apply camino_cons; [by left|apply camino_nil].
  - reflexivity.
  - intros fuel. reflexivity.
  - eexists. split; [vm_compute; reflexivity|reflexivity].
Qed.

(** Two entries of equal priority leave the heap shallower first, in
    whichever order they were pushed. *)
Lemma desempate_por_profundidad :
  let r := raiz problema_saltos in
  let hijo := Nodo_init 2%nat (Some 2%nat) (Some r) 1 in
  fst <$> heappop entrada_lt
            (heappush entrada_lt (heappush entrada_lt [] (1, hijo)) (1, r))
  = Some (1, r) ∧
  fst <$> heappop entrada_lt
            (heappush entrada_lt (heappush entrada_lt [] (1, r)) (1, hijo))
  = Some (1, r).
Proof. split; reflexivity. Qed.

(** ** The further properties on the concrete problems *)

Lemma camino_saltos_5 : camino modelo_saltos 0%nat [1; 2; 2]%nat 5%nat.
Proof.
  repeat (apply camino_cons; [simpl; rewrite !elem_of_cons; tauto|]).
  apply camino_nil.
Defined.

Lemma minima_pasillo_1 : profundidad_minima (problema_pasillo 1) 1.
Proof.
  split.
  - exists [()], 1%nat. split_and!; [|reflexivity..].
    apply camino_cons; [by left|apply camino_nil].
  - intros [|a l] t Hl Ht; [|simpl; lia].
    inversion Hl; subst. discriminate Ht.
Defined.

Lemma str_lista_las_transiciones_testigo :
  let hijo := Nodo_init 2%nat (Some 2%nat) (Some (raiz problema_saltos)) 1 in
  construido problema_saltos hijo ∧
  length (Nodo_trayectoria hijo) = 1%nat ∧
  Forall (transicion modelo_saltos) (Nodo_trayectoria hijo).
Proof.
  intros hijo.
  assert (construido problema_saltos hijo) as Hc.
  { apply construido_hijo with (raiz problema_saltos);
      [apply construido_raiz|]. right; left. }
  split; [exact Hc|].
  destruct (str_lista_las_transiciones problema_saltos hijo Hc)
    as (Hlen & Htr & _).
  split; [exact Hlen|exact Htr].
Defined.

Lemma costo_unitario_es_profundidad_testigo :
  ∃ r k, busqueda_costo_uniforme 20 (problema_pasillo 2) 0
         = Some (Some r, k) ∧
    costo r = 2 ∧ profundidad r = 2%nat ∧
    ∀ l t, camino modelo_pasillo 0%nat l t →
      meta (problema_pasillo 2) t = true → (profundidad r ≤ length l)%nat.
Proof.
  destruct (costo_unitario_es_profundidad (problema_pasillo 2))
    as [_ Hcu]; [reflexivity|].
  eexists _, _. split; [vm_compute; reflexivity|].
  split; [reflexivity|]. split; [reflexivity|].
  apply (Hcu 20%nat O _ 3%nat). vm_compute; reflexivity.
Defined.

Lemma ancho_y_costo_uniforme_coinciden_testigo :
  ∃ ra ru re k1 k2 k3,
    busqueda_ancho 20 (problema_pasillo 2) 0 = Some (Some ra, k1) ∧
    busqueda_costo_uniforme 20 (problema_pasillo 2) 0 = Some (Some ru, k2) ∧
    busqueda_A_estrella 20 (problema_pasillo 2) (λ _, 0) 0
    = Some (Some re, k3) ∧
    costo ra = costo ru ∧ costo ru = costo re ∧
    profundidad ra = profundidad ru ∧ profundidad ru = profundidad re.
Proof.
  eexists _, _, _, _, _, _.
  split; [vm_compute; reflexivity|].
  split; [vm_compute; reflexivity|].
  split; [vm_compute; reflexivity|].
  apply (ancho_y_costo_uniforme_coinciden (problema_pasillo 2)
           20 20 20 0 0 0 _ _ _ 3%nat 3%nat 3%nat);
    [reflexivity|vm_compute; reflexivity..].
Defined.

Lemma contador_de_nodos_testigo :
  ∃ r k, busqueda_ancho 20 problema_saltos 0 = Some (Some r, k) ∧
    (0 < k)%nat ∧ nodos_visitados r = k.
Proof.
  eexists _, _. split; [vm_compute; reflexivity|].
  match goal with
  | |- _ ∧ nodos_visitados ?r = ?k =>
      destruct (proj1 (contador_de_nodos problema_saltos 20 0 (Some r) k))
        as [Hlt Hr]
  end; [vm_compute; reflexivity|].
  split; [exact Hlt|]. exact (Hr _ eq_refl).
Defined.

Lemma ancho_prueba_cada_estado_una_vez_testigo :
  ∃ ro k, busqueda_ancho 20 problema_saltos 0 = Some (ro, k) ∧
    (k ≤ 0 + 8)%nat.
Proof.
  eexists _, _. split; [vm_compute; reflexivity|].
  eapply ancho_prueba_cada_estado_una_vez
    with (fuel := 20%nat) (universo := [0; 1; 2; 3; 4; 5; 6; 7]%nat);
    [exact finito_saltos|vm_compute; reflexivity].
Defined.

Lemma profundo_respeta_la_cota_testigo :
  ∃ r k, busqueda_profundo 20 problema_saltos (Some 3) 0
         = Some (Some r, k) ∧
    Z.of_nat (profundidad r) ≤ 3.
Proof.
  eexists _, _. split; [vm_compute; reflexivity|].
  apply (profundo_respeta_la_cota problema_saltos 20 3 0 _ 5%nat);
    [lia|vm_compute; reflexivity].
Defined.

Lemma profundo_encuentra_la_meta_testigo :
  ∃ fuel r k,
    (∀ fuel', (fuel ≤ fuel')%nat →
       busqueda_profundo fuel' problema_saltos (Some 3) 0
       = Some (Some r, k)) ∧
    meta problema_saltos (estado r) = true.
Proof.
  apply (profundo_encuentra_la_meta problema_saltos
           [0; 1; 2; 3; 4; 5; 6; 7]%nat (Some 3) 0 [1; 2; 2]%nat 5%nat
           finito_saltos camino_saltos_5 eq_refl).
  intros cota [= <-]. right. simpl. lia.
Defined.

Lemma iterativa_bajo_el_techo_testigo :
  ∃ fuel r k,
    (∀ fuel', (fuel ≤ fuel')%nat →
       busqueda_profundidad_iterativa fuel' (problema_pasillo 1) 2 0
       = Some (Some r, k)) ∧
    profundidad r = 1%nat ∧ meta (problema_pasillo 1) (estado r) = true.
Proof.
  apply (iterativa_bajo_el_techo (problema_pasillo 1) [0; 1; 2; 3]%nat
           1 2 0 (finito_pasillo 1) minima_pasillo_1).
  simpl. lia.
Defined.

Lemma A_estrella_encuentra_la_meta_testigo :
  ∃ fuel r k,
    (∀ fuel', (fuel ≤ fuel')%nat →
       busqueda_A_estrella fuel' problema_saltos
         (λ n, Z.of_nat (estado n)) 0 = Some (Some r, k)) ∧
    meta problema_saltos (estado r) = true.
Proof.
  destruct (A_estrella_encuentra_la_meta problema_saltos
              [0; 1; 2; 3; 4; 5; 6; 7]%nat (λ n, Z.of_nat (estado n)) 0
              finito_saltos costos_saltos)
    as (fuel & r & k & Hrun & Hm & _).
  { exists [1; 2; 2]%nat, 5%nat. split; [exact camino_saltos_5|reflexivity]. }
  exists fuel, r, k. split; [exact Hrun|exact Hm].
Defined.

Lemma costo_uniforme_encuentra_el_optimo_testigo :
  ∃ fuel r k,
    (∀ fuel', (fuel ≤ fuel')%nat →
       busqueda_costo_uniforme fuel' problema_saltos 0 = Some (Some r, k)) ∧
    meta problema_saltos (estado r) = true ∧
    es_costo_minimo problema_saltos (costo r).
Proof.
  apply (costo_uniforme_encuentra_el_optimo problema_saltos
           [0; 1; 2; 3; 4; 5; 6; 7]%nat 0 finito_saltos costos_saltos).
  exists [1; 2; 2]%nat, 5%nat. split; [exact camino_saltos_5|reflexivity].
Defined.

Lemma registro_de_visitados_testigo :
  let f := heappush entrada_lt [] (0, raiz problema_saltos) in
  let v := {[0%nat := 0]} : gmap nat Z in
  en_bucle_A_estrella problema_saltos (λ _, 0) f v ∧
  (∀ p n, (p, n) ∈ f → ∃ c, v !! estado n = Some c ∧ c ≤ costo n) ∧
  costos_reales problema_saltos v.
Proof.
  intros f v.
  assert (en_bucle_A_estrella problema_saltos (λ _, 0) f v) as Hb
    by apply en_bucle_A_inicio.
  split; [exact Hb|].
  destruct (proj1 (registro_de_visitados problema_saltos (λ _, 0) f v) Hb)
    as (Hf & Hv & _).
  split; [|exact Hv]. intros p n Hpn. by destruct (Hf p n Hpn) as (_ & _ & ?).
Defined.
